(** * The write-ahead transaction manager of EliasDB's storage files

    A shallow embedding of [storage/file/transactionmanager.go] and the
    properties of its commit, drain, recovery and rollback paths.

    The Go code mutates one [TransactionManager], the [Record] objects
    its slots point to, the log file and the owning [StorageFile].  The
    embedding threads all of that through one explicit state; a method
    is a function from a state to an outcome, which is a result with the
    next state or a Go panic. *)

From Stdlib Require Import ZArith Lia.
From Stdlib.Strings Require Import Byte.
From stdpp Require Import base option list gmap strings.

(** ** Errors, panics and outcomes *)

(** The values of Go's [error] that the manager can see. *)
Inductive error : Type :=
  | ErrBadMagic            (* file.ErrBadMagic *)
  | EOF                    (* io.EOF *)
  | ErrUnexpectedEOF       (* io.ErrUnexpectedEOF *)
  | ErrOS (code : nat).    (* any other error of the system or of a collaborator *)

#[global] Instance error_eq_dec : EqDecision error.
Proof. solve_decision. Defined.

(** The two run-time panics the manager's own code can raise. *)
Inductive PanicKind : Type :=
  | IndexOutOfRange        (* [s[i]] with [i] outside [0 .. len(s))    *)
  | NilDereference.        (* a method call on a nil interface or pointer *)

#[global] Instance PanicKind_eq_dec : EqDecision PanicKind.
Proof. solve_decision. Defined.

Inductive Res (S A : Type) : Type :=
  | Ret (a : A) (s : S)
  | Panic (k : PanicKind)
  | OutOfFuel.
Arguments Ret {S A} a s.
Arguments Panic {S A} k.
Arguments OutOfFuel {S A}.

(** A Go procedure over a state [S]. *)
Definition Go (S A : Type) : Type := S → Res S A.

#[global] Instance Go_ret {S} : MRet (Go S) := λ A a s, Ret a s.
#[global] Instance Go_bind {S} : MBind (Go S) := λ A B f m s,
  match m s with
  | Ret a s' => f a s'
  | Panic k => Panic k
  | OutOfFuel => OutOfFuel
  end.

Definition gets {S A} (f : S → A) : Go S A := λ s, Ret (f s) s.
Definition modify {S} (f : S → S) : Go S unit := λ s, Ret tt (f s).
Definition panic {S A} (k : PanicKind) : Go S A := λ _, Panic k.

(** ** Little-endian integers *)

#[global] Instance byte_eq_decision : EqDecision byte := Byte.byte_eq_dec.

Definition byte_of_Z (z : Z) : byte :=
  default "000"%byte (Byte.of_N (Z.to_N (z mod 256))).

Definition Z_of_byte (b : byte) : Z := Z.of_N (Byte.to_N b).

(** [binary.LittleEndian.PutUint64]: the [n] low bytes, lowest first. *)
Fixpoint le_bytes (n : nat) (z : Z) : list byte :=
  match n with
  | O => []
  | S n' => byte_of_Z z :: le_bytes n' (Z.shiftr z 8)
  end.

Fixpoint le_value (bs : list byte) : Z :=
  match bs with
  | [] => 0
  | b :: bs' => Z_of_byte b + 256 * le_value bs'
  end.

(** The value of a 64-bit pattern read as Go's [int64]. *)
Definition int64_wrap (u : Z) : Z :=
  let m := (u mod 2 ^ 64)%Z in
  if decide (m < 2 ^ 63)%Z then m else (m - 2 ^ 64)%Z.

(** [binary.Write(w, binary.LittleEndian, int64(z))]: the bytes handed to [w]. *)
Definition int64_le (z : Z) : list byte := le_bytes 8 z.

(** [binary.Read(r, binary.LittleEndian, &numRecords)] on the rest of a
    file: [io.ReadFull] gives [io.EOF] when nothing is left and
    [io.ErrUnexpectedEOF] when fewer than eight bytes are. *)
Definition binary_Read_int64 (file : list byte) : error + (Z * list byte) :=
  match file with
  | [] => inl EOF
  | _ =>
    if decide (length file < 8) then inl ErrUnexpectedEOF
    else inr (int64_wrap (le_value (take 8 file)), drop 8 file)
  end.

(** ** Constants of the package *)

Definition LOG_FILE_SUFFIX : string := "tlg".
Definition DEFAULT_TRANS_IN_LOG : nat := 10.
Definition TRANSACTION_LOG_HEADER : list byte := ["f"%byte; "B"%byte].

(** ** Records *)

(** A [*Record] is an index into the heap of records; an index outside
    the heap stands for a nil pointer. *)
Abbreviation ptr := nat.

(** Modelled from the spec: the [Record] type ([record.go] is not among
    the sources).  "id: unsigned 64-bit identifier", "payload: fixed-size
    byte image", "dirty: boolean", "transCount: non-negative integer",
    "inTransaction() = transCount > 0".  The spec does not say what
    [decTransCount] does at zero; here it counts on, and the properties
    that depend on the counter take the spec's invariant, a counter not
    below the number of slot entries of its record, as a hypothesis. *)
Record Rec : Type := mkRec {
  rec_id : N;
  rec_data : list byte;
  rec_dirty : bool;
  rec_transCount : Z
}.

Definition Id (r : Rec) : N := rec_id r.
Definition IncTransCount (r : Rec) : Rec :=
  mkRec (rec_id r) (rec_data r) (rec_dirty r) (rec_transCount r + 1).
Definition DecTransCount (r : Rec) : Rec :=
  mkRec (rec_id r) (rec_data r) (rec_dirty r) (rec_transCount r - 1).
Definition InTransaction (r : Rec) : bool := bool_decide (0 < rec_transCount r)%Z.
Definition ClearDirty (r : Rec) : Rec :=
  mkRec (rec_id r) (rec_data r) false (rec_transCount r).

(** Modelled from the spec: [Record.WriteRecord] and [ReadRecord]
    ([record.go] is not among the sources).  "writeTo(sink): serialises
    the full page image ... so that readFrom(source) round-trips";
    "readFrom(source): inverse; fails on truncation".  The byte layout
    is left open: any layout that round-trips on the records the file
    can hold will do. *)
Class RecordCodec : Type := {
  (* the records the storage file can hold, e.g. a payload of the record size *)
  record_ok : N → list byte → Prop;
  (* what [WriteRecord] hands to the writer for an id and a payload *)
  record_bytes : N → list byte → list byte;
  (* what [ReadRecord] finds at the start of the rest of a file:
     an error, or id, payload and the number of bytes consumed *)
  record_parse : list byte → error + (N * list byte * nat);
  record_parse_bytes : ∀ i d rest,
    record_ok i d →
    record_parse (record_bytes i d ++ rest) = inr (i, d, length (record_bytes i d))
}.

(** Go leaves the order of [range] over a map open, and it may differ
    from one loop to the next: the order of the [k]-th loop of a run over
    the map [m] is some enumeration of [m]. *)
Class MapOrder : Type := {
  range_order : nat → gmap N ptr → list (N * ptr);
  range_order_perm : ∀ k m, range_order k m ≡ₚ map_to_list m
}.

(** ** The state *)

(** An [*os.File] opened on the log. *)
Record LogFile : Type := OsFile { lf_name : string }.

(** The calls the owning [StorageFile] receives. *)
Inductive OwnerCall : Type :=
  | CallWriteRecord (p : ptr)
  | CallReleaseInTrans (p : ptr) (dirty : bool)
  | CallSync.

#[global] Instance OwnerCall_eq_dec : EqDecision OwnerCall.
Proof. solve_decision. Defined.

(** The calls on the log handle that leave no mark on the file itself. *)
Inductive FileCall : Type :=
  | FileSync
  | FileClose.

#[global] Instance FileCall_eq_dec : EqDecision FileCall.
Proof. solve_decision. Defined.

Record TransactionManager : Type := mkTM {
  name : string;                          (* Name of this transaction manager *)
  logFile : option LogFile;               (* Log file for transactions, None is nil *)
  curTrans : Z;                           (* Current transaction pointer *)
  transList : list (option (list ptr));   (* the slots, None is a nil slice *)
  maxTrans : Z                            (* Maximal number of transactions *)
}.

(** Everything outside the manager: the records, the file system, the
    owner, and what the environment will answer. *)
Record World : Type := mkWorld {
  w_heap : list Rec;                      (* the Record objects *)
  w_log : option (list byte);             (* the log file on disk, None when missing *)
  w_owner : string;                       (* owner.Name() *)
  w_main : gmap N (list byte);            (* the main file: the image applied per id *)
  w_calls : list OwnerCall;               (* calls to the owner, oldest first *)
  w_fileCalls : list FileCall;            (* Sync and Close on log handles, oldest first *)
  w_ranges : nat;                         (* map loops run so far *)
  f_openRead : option error;              (* failure of the next open for reading *)
  f_openWrite : option error;             (* failure of the next create-or-truncate *)
  f_logWrite : list (option error);       (* answers to the next Write calls on the log *)
  f_writeRecord : list (option error)     (* answers to the next owner.writeRecord calls *)
}.

Record St : Type := mkSt { tm : TransactionManager; world : World }.

Definition set_logFile (x : option LogFile) (t : TransactionManager) :=
  mkTM (name t) x (curTrans t) (transList t) (maxTrans t).
Definition set_curTrans (x : Z) (t : TransactionManager) :=
  mkTM (name t) (logFile t) x (transList t) (maxTrans t).
Definition set_transList (x : list (option (list ptr))) (t : TransactionManager) :=
  mkTM (name t) (logFile t) (curTrans t) x (maxTrans t).

Definition set_heap (x : list Rec) (w : World) :=
  mkWorld x (w_log w) (w_owner w) (w_main w) (w_calls w) (w_fileCalls w) (w_ranges w)
    (f_openRead w) (f_openWrite w) (f_logWrite w) (f_writeRecord w).
Definition set_log (x : option (list byte)) (w : World) :=
  mkWorld (w_heap w) x (w_owner w) (w_main w) (w_calls w) (w_fileCalls w) (w_ranges w)
    (f_openRead w) (f_openWrite w) (f_logWrite w) (f_writeRecord w).
Definition set_main (x : gmap N (list byte)) (w : World) :=
  mkWorld (w_heap w) (w_log w) (w_owner w) x (w_calls w) (w_fileCalls w) (w_ranges w)
    (f_openRead w) (f_openWrite w) (f_logWrite w) (f_writeRecord w).
Definition set_calls (x : list OwnerCall) (w : World) :=
  mkWorld (w_heap w) (w_log w) (w_owner w) (w_main w) x (w_fileCalls w) (w_ranges w)
    (f_openRead w) (f_openWrite w) (f_logWrite w) (f_writeRecord w).
Definition set_fileCalls (x : list FileCall) (w : World) :=
  mkWorld (w_heap w) (w_log w) (w_owner w) (w_main w) (w_calls w) x (w_ranges w)
    (f_openRead w) (f_openWrite w) (f_logWrite w) (f_writeRecord w).
Definition set_ranges (x : nat) (w : World) :=
  mkWorld (w_heap w) (w_log w) (w_owner w) (w_main w) (w_calls w) (w_fileCalls w) x
    (f_openRead w) (f_openWrite w) (f_logWrite w) (f_writeRecord w).
Definition set_f_logWrite (x : list (option error)) (w : World) :=
  mkWorld (w_heap w) (w_log w) (w_owner w) (w_main w) (w_calls w) (w_fileCalls w) (w_ranges w)
    (f_openRead w) (f_openWrite w) x (f_writeRecord w).
Definition set_f_writeRecord (x : list (option error)) (w : World) :=
  mkWorld (w_heap w) (w_log w) (w_owner w) (w_main w) (w_calls w) (w_fileCalls w) (w_ranges w)
    (f_openRead w) (f_openWrite w) (f_logWrite w) x.

Definition on_tm (f : TransactionManager → TransactionManager) (s : St) : St :=
  mkSt (f (tm s)) (world s).
Definition on_world (f : World → World) (s : St) : St :=
  mkSt (tm s) (f (world s)).

(** ** Primitive steps *)

(** [s[i]] for a Go [int] index: a panic outside the slice. *)
Definition index {A} (l : list A) (i : Z) : option A :=
  if decide (0 ≤ i)%Z then l !! Z.to_nat i else None.

(** Reading through a [*Record]. *)
Definition deref (p : ptr) : Go St Rec := λ s,
  match w_heap (world s) !! p with
  | Some r => Ret r s
  | None => Panic NilDereference
  end.

(** A method of [Record] that updates the object in place. *)
Definition update (f : Rec → Rec) (p : ptr) : Go St unit :=
  r ← deref p;
  modify (on_world (λ w, set_heap (<[p := f r]> (w_heap w)) w)).

(** [t.transList[t.curTrans]] *)
Definition curSlot : Go St (option (list ptr)) := λ s,
  match index (transList (tm s)) (curTrans (tm s)) with
  | Some sl => Ret sl s
  | None => Panic IndexOutOfRange
  end.

(** [t.logFile.Write(bs)].  The next answer of the environment decides:
    an error leaves the file as it is, otherwise [bs] is appended. *)
Definition logFile_Write (bs : list byte) : Go St (option error) := λ s,
  match logFile (tm s) with
  | None => Panic NilDereference
  | Some _ =>
    let w := world s in
    match f_logWrite w with
    | Some e :: fs => Ret (Some e) (on_world (set_f_logWrite fs) s)
    | fs =>
      Ret None (on_world (λ w, set_f_logWrite (tail fs)
                                 (set_log (Some (default [] (w_log w) ++ bs)) w)) s)
    end
  end.

(** [t.logFile.Sync()] and [t.logFile.Close()]; the manager drops what
    they return. *)
Definition logFile_Sync : Go St unit := λ s,
  match logFile (tm s) with
  | None => Panic NilDereference
  | Some _ => Ret tt (on_world (λ w, set_fileCalls (w_fileCalls w ++ [FileSync]) w) s)
  end.

Definition logFile_Close : Go St unit := λ s,
  match logFile (tm s) with
  | None => Panic NilDereference
  | Some _ => Ret tt (on_world (λ w, set_fileCalls (w_fileCalls w ++ [FileClose]) w) s)
  end.

Section Manager.
Context `{Codec : RecordCodec} `{Order : MapOrder}.

(** [record.WriteRecord(t.logFile)] *)
Definition WriteRecord (p : ptr) : Go St (option error) :=
  r ← deref p;
  logFile_Write (record_bytes (rec_id r) (rec_data r)).

(** ** syncFile and close *)

Definition syncFile : Go St unit := logFile_Sync.

Definition close : Go St unit :=
  syncFile;;
  logFile_Close;;
  modify (on_tm (set_logFile None)).

(** ** commit *)

(** The first loop of [commit]: it returns at the first error. *)
Fixpoint commit_write (recs : list ptr) : Go St (option error) :=
  match recs with
  | [] => mret None
  | p :: rest =>
    err ← WriteRecord p;
    match err with
    | Some e => mret (Some e)
    | None => commit_write rest
    end
  end.

(** The second loop of [commit]. *)
Fixpoint commit_clear (recs : list ptr) : Go St unit :=
  match recs with
  | [] => mret tt
  | p :: rest => update ClearDirty p;; commit_clear rest
  end.

Definition commit : Go St (option error) :=
  sl ← curSlot;
  err ← logFile_Write (int64_le (Z.of_nat (length (default [] sl))));
  match err with
  | Some e => mret (Some e)
  | None =>
    sl ← curSlot;
    err ← commit_write (default [] sl);
    match err with
    | Some e => mret (Some e)
    | None =>
      syncFile;;
      sl ← curSlot;
      commit_clear (default [] sl);;
      mret None
    end
  end.

(** ** open *)

(** [os.OpenFile(t.name, O_CREATE|O_TRUNC|O_RDWR, 0660)] and the header.
    What [Write] and [Sync] return is dropped. *)
Definition open : Go St (option error) :=
  w ← gets world;
  match f_openWrite w with
  | Some e => mret (Some e)
  | None =>
    modify (on_world (set_log (Some [])));;
    modify (on_tm (λ t, set_logFile (Some (OsFile (name t))) t));;
    logFile_Write TRANSACTION_LOG_HEADER;;
    logFile_Sync;;
    modify (on_tm (set_curTrans (-1)));;
    mret None
  end.

(** ** The owner *)

(** Modelled from the spec: [StorageFile.writeRecord] ([storagefile.go]
    is not among the sources).  "applies a record image to its canonical
    offset in the main data file"; the next answer of the environment
    says whether it fails, and a failed call applies nothing. *)
Definition owner_writeRecord (p : ptr) : Go St (option error) :=
  r ← deref p;
  w ← gets world;
  let called := set_calls (w_calls w ++ [CallWriteRecord p]) w in
  match f_writeRecord w with
  | Some e :: fs =>
    modify (on_world (λ _, set_f_writeRecord fs called));;
    mret (Some e)
  | fs =>
    modify (on_world (λ _, set_f_writeRecord (tail fs)
                             (set_main (<[rec_id r := rec_data r]> (w_main w)) called)));;
    mret None
  end.

(** Modelled from the spec: [StorageFile.releaseInTrans] ([storagefile.go]
    is not among the sources).  "releases the record from the in-use
    set"; the owner's in-use set is its own business, the model keeps
    the call. *)
Definition owner_releaseInTrans (p : ptr) (dirty : bool) : Go St unit :=
  modify (on_world (λ w, set_calls (w_calls w ++ [CallReleaseInTrans p dirty]) w)).

(** Modelled from the spec: [StorageFile.Sync] ([storagefile.go] is not
    among the sources).  "fsync the main data file"; the manager drops
    what it returns. *)
Definition owner_Sync : Go St unit :=
  modify (on_world (λ w, set_calls (w_calls w ++ [CallSync]) w)).

(** ** syncRecords *)

Fixpoint syncRecords_loop (records : list (N * ptr)) (clearMemTransLog : bool)
    : Go St (option error) :=
  match records with
  | [] => mret None
  | (_, record) :: rest =>
    err ← owner_writeRecord record;
    match err with
    | Some e => mret (Some e)
    | None =>
      (if clearMemTransLog then
         update DecTransCount record;;
         r ← deref record;
         if negb (InTransaction r) then owner_releaseInTrans record true else mret tt
       else mret tt);;
      syncRecords_loop rest clearMemTransLog
    end
  end.

Definition syncRecords (records : gmap N ptr) (clearMemTransLog : bool)
    : Go St (option error) :=
  k ← gets (λ s, w_ranges (world s));
  modify (on_world (set_ranges (S k)));;
  syncRecords_loop (range_order k records) clearMemTransLog.

(** ** syncLogFromMemory *)

(** The inner loop of the drain: one slot into the record map. *)
Fixpoint coalesce_slot (recs : list ptr) (recMap : gmap N ptr) : Go St (gmap N ptr) :=
  match recs with
  | [] => mret recMap
  | record :: rest =>
    r ← deref record;
    match recMap !! Id r with
    | Some _ => update DecTransCount record;; coalesce_slot rest recMap
    | None => coalesce_slot rest (<[Id r := record]> recMap)
    end
  end.

(** The outer loop of the drain, from slot [i] on. *)
Fixpoint coalesce (i : nat) (slots : list (option (list ptr))) (recMap : gmap N ptr)
    : Go St (gmap N ptr) :=
  match slots with
  | [] => mret recMap
  | None :: rest => coalesce (S i) rest recMap
  | Some recs :: rest =>
    recMap' ← coalesce_slot recs recMap;
    modify (on_tm (λ t, set_transList (<[i := None]> (transList t)) t));;
    coalesce (S i) rest recMap'
  end.

Definition syncLogFromMemory : Go St (option error) :=
  close;;
  slots ← gets (λ s, transList (tm s));
  recMap ← coalesce 0 slots ∅;
  err ← syncRecords recMap true;
  match err with
  | Some e => mret (Some e)
  | None => owner_Sync;; open
  end.

(** ** recover *)

(** Modelled from the spec: [ReadRecord] ([record.go] is not among the
    sources) gives a new [Record] object; it is clean and in no
    transaction. *)
Definition ReadRecord (file : list byte) : Go St (error + (ptr * list byte)) :=
  match record_parse file with
  | inl e => mret (inl e)
  | inr (i, d, n) =>
    h ← gets (λ s, w_heap (world s));
    modify (on_world (set_heap (h ++ [mkRec i d false 0])));;
    mret (inr (length h, drop n file))
  end.

(** The records of one frame: [for i := int64(0); i < numRecords; i++]. *)
Fixpoint recover_frame (n : nat) (file : list byte) (recMap : gmap N ptr)
    : Go St (error + (gmap N ptr * list byte)) :=
  match n with
  | O => mret (inr (recMap, file))
  | S n' =>
    rd ← ReadRecord file;
    match rd with
    | inl e => mret (inl e)
    | inr (record, file') =>
      r ← deref record;
      recover_frame n' file' (<[Id r := record]> recMap)
    end
  end.

(** The frames: [for true].  Every turn that goes on has read eight
    bytes, so a fuel above the length of the file is never used up. *)
Fixpoint recover_loop (fuel : nat) (file : list byte) : Go St (option error) :=
  match fuel with
  | O => λ _, OutOfFuel
  | S fuel' =>
    match binary_Read_int64 file with
    | inl e => if decide (e = EOF) then mret None else mret (Some e)
    | inr (numRecords, file1) =>
      fr ← recover_frame (Z.to_nat numRecords) file1 ∅;
      match fr with
      | inl e => mret (Some e)
      | inr (recMap, file2) =>
        (* If something goes wrong here ignore and try to do the rest *)
        syncRecords recMap false;;
        recover_loop fuel' file2
      end
    end
  end.

(** Modelled from the spec: [ErrBadMagic.fireError(t.owner, "")]
    ([storagefile.go] is not among the sources) is the error the
    constructor compares with [ErrBadMagic]: "fail with ErrBadMagic". *)
Definition recover : Go St (option error) :=
  w ← gets world;
  match w_log w with
  | None => mret None                      (* os.IsNotExist(err) *)
  | Some content =>
    match f_openRead w with
    | Some e => mret (Some e)
    | None =>
      let i := length (take 2 content) in
      let magic := take 2 content ++ replicate (2 - i) "000"%byte in
      if decide (i ≠ 2 ∨ magic !! 0 ≠ TRANSACTION_LOG_HEADER !! 0
                 ∨ magic !! 1 ≠ TRANSACTION_LOG_HEADER !! 1)
      then mret (Some ErrBadMagic)
      else recover_loop (S (length content)) (drop 2 content)
    end
  end.

(** ** syncLogFromDisk *)

Fixpoint discard_slot (recs : list ptr) : Go St unit :=
  match recs with
  | [] => mret tt
  | record :: rest =>
    update DecTransCount record;;
    r ← deref record;
    (if negb (InTransaction r) then owner_releaseInTrans record false else mret tt);;
    discard_slot rest
  end.

Fixpoint discard (i : nat) (slots : list (option (list ptr))) : Go St unit :=
  match slots with
  | [] => mret tt
  | None :: rest => discard (S i) rest
  | Some recs :: rest =>
    discard_slot recs;;
    modify (on_tm (λ t, set_transList (<[i := None]> (transList t)) t));;
    discard (S i) rest
  end.

Definition syncLogFromDisk : Go St (option error) :=
  close;;
  slots ← gets (λ s, transList (tm s));
  discard 0 slots;;
  err ← recover;
  match err with
  | Some e => mret (Some e)
  | None => open
  end.

(** ** start and add *)

(** [t.transList[t.curTrans] = x] *)
Definition set_curSlot (x : option (list ptr)) : Go St unit := λ s,
  match index (transList (tm s)) (curTrans (tm s)) with
  | Some _ =>
    Ret tt (on_tm (set_transList (<[Z.to_nat (curTrans (tm s)) := x]> (transList (tm s)))) s)
  | None => Panic IndexOutOfRange
  end.

Definition start : Go St unit :=
  modify (on_tm (λ t, set_curTrans (int64_wrap (curTrans t + 1)) t));;
  t ← gets tm;
  (if decide (maxTrans t ≤ curTrans t)%Z then
     syncLogFromMemory;;
     modify (on_tm (set_curTrans 0))
   else mret tt);;
  set_curSlot (Some []).

Definition add (record : ptr) : Go St unit :=
  update IncTransCount record;;
  sl ← curSlot;
  set_curSlot (Some (default [] sl ++ [record])).

(** ** NewTransactionManager *)

(** [&TransactionManager{name, nil, -1, make([][]*Record, DEFAULT_TRANS_IN_LOG),
    DEFAULT_TRANS_IN_LOG, owner}] *)
Definition new_manager (w : World) : TransactionManager :=
  mkTM (w_owner w +:+ "." +:+ LOG_FILE_SUFFIX) None (-1)
       (replicate DEFAULT_TRANS_IN_LOG None)
       (Z.of_nat DEFAULT_TRANS_IN_LOG).

Definition NewTransactionManager (doRecover : bool)
    : Go World (option TransactionManager * option error) := λ w,
  let ret := new_manager w in
  let body : Go St (option error) :=
    err ← (if doRecover then recover else mret None);
    match err with
    | Some e =>
      if decide (e ≠ ErrBadMagic) then mret (Some e)
      else open    (* If we have a bad magic just overwrite the transaction file *)
    | None => open
    end in
  match body (mkSt ret w) with
  | Ret (Some e) s => Ret (None, Some e) (world s)
  | Ret None s => Ret (Some (tm s), None) (world s)
  | Panic k => Panic k
  | OutOfFuel => OutOfFuel
  end.

End Manager.

(** ** Stand-ins for the collaborators, for running the model *)

Definition byte_of_N (n : N) : byte := default "000"%byte (Byte.of_N n).

(** A record layout for small files: one byte of id, one byte of payload. *)
#[global, refine] Instance tiny_codec : RecordCodec := {|
  record_ok i d := (i < 256)%N ∧ length d = 1;
  record_bytes i d := byte_of_N i :: d;
  record_parse file :=
    match file with
    | b :: x :: _ => inr (Byte.to_N b, [x], 2)
    | _ => inl ErrUnexpectedEOF
    end
|}.
Proof.
  intros i d rest [Hi Hd]. destruct d as [|x [|]]; try discriminate. simpl.
  unfold byte_of_N. destruct (Byte.of_N i) eqn:E.
  - apply Byte.to_of_N in E. simpl. by rewrite E.
  - apply Byte.of_N_None_iff in E. lia.
Defined.

(** Maps ranged over in the order of their keys' encodings. *)
#[global, refine] Instance listed_order : MapOrder :=
  {| range_order _ m := map_to_list m |}.
Proof. done. Defined.

(** An empty directory for the owner [db], and nothing that fails. *)
Definition calm_world (heap : list Rec) (log : option (list byte)) : World :=
  mkWorld heap log "db" ∅ [] [] 0 None None [] [].

(** ** Running procedures *)

(** Projections of updated states. *)
Ltac st_simpl :=
  cbn [tm world on_tm on_world
       name logFile curTrans transList maxTrans
       set_logFile set_curTrans set_transList
       w_heap w_log w_owner w_main w_calls w_fileCalls w_ranges
       f_openRead f_openWrite f_logWrite f_writeRecord
       set_heap set_log set_main set_calls set_fileCalls set_ranges
       set_f_logWrite set_f_writeRecord] in *.

Lemma bind_eq {S A B} (m : Go S A) (f : A → Go S B) s :
  (m ≫= f) s = match m s with
               | Ret a s' => f a s'
               | Panic k => Panic k
               | OutOfFuel => OutOfFuel
               end.
Proof. reflexivity. Qed.

Lemma bind_Ret {S A B} (m : Go S A) (f : A → Go S B) s a s' :
  m s = Ret a s' → (m ≫= f) s = f a s'.
Proof. intros H. by rewrite bind_eq, H. Qed.

Lemma bind_Panic {S A B} (m : Go S A) (f : A → Go S B) s k :
  m s = Panic k → (m ≫= f) s = Panic k.
Proof. intros H. by rewrite bind_eq, H. Qed.

Lemma index_Some {A} (l : list A) (i : Z) (x : A) :
  index l i = Some x ↔ (0 ≤ i)%Z ∧ l !! Z.to_nat i = Some x.
Proof. unfold index. case_decide; [tauto | split; [done | tauto]]. Qed.

Lemma index_None {A} (l : list A) (i : Z) :
  index l i = None ↔ (i < 0)%Z ∨ (Z.of_nat (length l) ≤ i)%Z.
Proof.
  unfold index. case_decide.
  - rewrite lookup_ge_None. lia.
  - split; [lia | done].
Qed.

Lemma index_is_Some {A} (l : list A) (i : Z) :
  is_Some (index l i) ↔ (0 ≤ i < Z.of_nat (length l))%Z.
Proof.
  rewrite <- not_eq_None_Some, index_None. lia.
Qed.

Section Proofs.
Context `{Codec : RecordCodec} `{Order : MapOrder}.

(** *** Steps on the log *)

Lemma logFile_Write_ok bs s f fs :
  logFile (tm s) = Some f →
  f_logWrite (world s) = None :: fs →
  logFile_Write bs s =
    Ret None (on_world (λ w, set_f_logWrite fs
                               (set_log (Some (default [] (w_log w) ++ bs)) w)) s).
Proof. intros Hf Hw. unfold logFile_Write. by rewrite Hf, Hw. Qed.

Lemma logFile_Write_fail bs s f e fs :
  logFile (tm s) = Some f →
  f_logWrite (world s) = Some e :: fs →
  logFile_Write bs s = Ret (Some e) (on_world (set_f_logWrite fs) s).
Proof. intros Hf Hw. unfold logFile_Write. by rewrite Hf, Hw. Qed.

Lemma logFile_Write_nil bs s :
  logFile (tm s) = None → logFile_Write bs s = Panic NilDereference.
Proof. intros Hf. unfold logFile_Write. by rewrite Hf. Qed.

(** The first loop of [commit] when the [k]-th write from now fails. *)
Lemma commit_write_fails recs : ∀ k s f e fs,
  logFile (tm s) = Some f →
  (∀ p, p ∈ recs → is_Some (w_heap (world s) !! p)) →
  f_logWrite (world s) = replicate k None ++ Some e :: fs →
  k < length recs →
  ∃ s', commit_write recs s = Ret (Some e) s' ∧
        tm s' = tm s ∧ w_heap (world s') = w_heap (world s) ∧
        f_logWrite (world s') = fs.
Proof.
  induction recs as [|p recs IH]; intros k s f e fs Hf Hp Hw Hk; simpl in Hk; [lia|].
  destruct (Hp p) as [r Hr]; [left|].
  cbn [commit_write]. unfold WriteRecord.
  rewrite bind_eq, bind_eq. unfold deref at 1. rewrite Hr.
  destruct k as [|k]; simpl in Hw.
  - rewrite (logFile_Write_fail _ _ _ _ _ Hf Hw). eexists; split; [reflexivity|done].
  - rewrite (logFile_Write_ok _ _ _ _ Hf Hw).
    edestruct (IH k) as (s' & -> & ? & ? & ?); [exact Hf| |reflexivity|lia|].
    + intros q Hq. apply Hp. by right.
    + eexists; split; [reflexivity|done].
Qed.

(** C1. A write error in [commit] before the sync, on the record count
    or on a record image, is what [commit] returns; the manager and its
    slot are as before and so is every record object, with its dirty
    flag and its transaction count.  The failing write is the [k]-th of
    the call: the count is write 0, the records follow. *)
Theorem commit_write_error_keeps_transaction s f sl k e fs :
  logFile (tm s) = Some f →
  index (transList (tm s)) (curTrans (tm s)) = Some sl →
  (∀ p, p ∈ default [] sl → is_Some (w_heap (world s) !! p)) →
  f_logWrite (world s) = replicate k None ++ Some e :: fs →
  k ≤ length (default [] sl) →
  ∃ s', commit s = Ret (Some e) s' ∧
        tm s' = tm s ∧
        w_heap (world s') = w_heap (world s) ∧
        index (transList (tm s')) (curTrans (tm s')) = Some sl.
Proof.
  intros Hf Hsl Hp Hw Hk. unfold commit.
  assert (Hcur : ∀ s1, tm s1 = tm s → curSlot s1 = Ret sl s1).
  { intros s1 E. unfold curSlot. by rewrite E, Hsl. }
  rewrite bind_eq, Hcur by done. rewrite bind_eq.
  destruct k as [|k]; simpl in Hw.
  - rewrite (logFile_Write_fail _ _ _ _ _ Hf Hw).
    eexists; split; [reflexivity|]. by rewrite <- Hsl.
  - rewrite (logFile_Write_ok _ _ _ _ Hf Hw).
    rewrite bind_eq, Hcur by done. rewrite bind_eq.
    edestruct (commit_write_fails (default [] sl) k) as (s' & -> & Ht & Hh & _);
      [exact Hf|exact Hp|reflexivity|lia|].
    eexists; split; [reflexivity|]. simpl in Ht, Hh. rewrite Ht. by rewrite <- Hsl.
Qed.

(** *** close *)

Lemma close_open s f :
  logFile (tm s) = Some f →
  close s = Ret tt (mkSt (set_logFile None (tm s))
                         (set_fileCalls (w_fileCalls (world s) ++ [FileSync; FileClose])
                                        (world s))).
Proof.
  intros Hf. unfold close, syncFile.
  rewrite bind_eq. unfold logFile_Sync at 1. rewrite Hf.
  rewrite bind_eq. unfold logFile_Close at 1. cbn [tm on_world]. rewrite Hf.
  unfold modify, on_tm, on_world, set_fileCalls. cbn. by rewrite <- app_assoc.
Qed.

Lemma close_nil s : logFile (tm s) = None → close s = Panic NilDereference.
Proof.
  intros Hf. unfold close, syncFile. rewrite bind_eq. unfold logFile_Sync. by rewrite Hf.
Qed.

(** C9, as the code has it.  On an open log [close] syncs the handle,
    closes it and sets [logFile] to nil; nothing else changes.  On a
    manager whose [logFile] is nil already, [close] does not come back:
    [syncFile] calls [Sync] on the nil handle. *)
Theorem close_releases_open_log s :
  (∀ f, logFile (tm s) = Some f →
     close s = Ret tt (mkSt (set_logFile None (tm s))
                            (set_fileCalls (w_fileCalls (world s) ++ [FileSync; FileClose])
                                           (world s)))) ∧
  (logFile (tm s) = None → close s = Panic NilDereference).
Proof. split; [apply close_open | apply close_nil]. Qed.

(** *** Outcomes that leave the manager alone *)

(** What [commit] cannot change: the manager, the number of record
    objects, the calls the owner has received. *)
Definition core (s : St) : TransactionManager * nat * list OwnerCall :=
  (tm s, length (w_heap (world s)), w_calls (world s)).

(** The outcome [r] is a result with the core [c], or a nil dereference. *)
Definition calm {A} (c : TransactionManager * nat * list OwnerCall) (r : Res St A) : Prop :=
  match r with
  | Ret _ s' => core s' = c
  | Panic k => k = NilDereference
  | OutOfFuel => False
  end.

Lemma calm_bind {A B} c (m : Go St A) (f : A → Go St B) s :
  calm c (m s) →
  (∀ a s', m s = Ret a s' → core s' = c → calm c (f a s')) →
  calm c ((m ≫= f) s).
Proof.
  intros Hm Hf. rewrite bind_eq. destruct (m s) as [a s'| |]; simpl in *; auto.
Qed.

Lemma calm_deref p s : calm (core s) (deref p s).
Proof. unfold deref. by destruct (_ !! p). Qed.

Lemma calm_update g p s : calm (core s) (update g p s).
Proof.
  unfold update. apply calm_bind; [apply calm_deref|].
  intros r s' _ E. unfold modify, calm. unfold core at 1. st_simpl.
  rewrite length_insert. exact E.
Qed.

Lemma calm_logFile_Write bs s : calm (core s) (logFile_Write bs s).
Proof.
  unfold logFile_Write. destruct (logFile (tm s)); [|done].
  by destruct (f_logWrite (world s)) as [|[e|] fs].
Qed.

Lemma calm_logFile_Sync s : calm (core s) (logFile_Sync s).
Proof. unfold logFile_Sync. by destruct (logFile (tm s)). Qed.

Lemma calm_WriteRecord p s : calm (core s) (WriteRecord p s).
Proof.
  unfold WriteRecord. apply calm_bind; [apply calm_deref|].
  intros r s' _ E. rewrite <- E. apply calm_logFile_Write.
Qed.

Lemma calm_commit_write recs : ∀ s, calm (core s) (commit_write recs s).
Proof.
  induction recs as [|p recs IH]; intros s; [done|].
  cbn [commit_write]. apply calm_bind; [apply calm_WriteRecord|].
  intros [e|] s' _ E; [done|]. rewrite <- E. apply IH.
Qed.

Lemma calm_commit_clear recs : ∀ s, calm (core s) (commit_clear recs s).
Proof.
  induction recs as [|p recs IH]; intros s; [done|].
  cbn [commit_clear]. apply calm_bind; [apply calm_update|].
  intros [] s' _ E. rewrite <- E. apply IH.
Qed.

Lemma curSlot_Ret s sl :
  index (transList (tm s)) (curTrans (tm s)) = Some sl → curSlot s = Ret sl s.
Proof. intros H. unfold curSlot. by rewrite H. Qed.

Lemma curSlot_Panic s :
  index (transList (tm s)) (curTrans (tm s)) = None → curSlot s = Panic IndexOutOfRange.
Proof. intros H. unfold curSlot. by rewrite H. Qed.

(** With the current slot in range, [commit] leaves the manager as it
    is and can only stop on a nil handle or a nil record. *)
Lemma calm_commit s sl :
  index (transList (tm s)) (curTrans (tm s)) = Some sl → calm (core s) (commit s).
Proof.
  intros Hsl. unfold commit.
  assert (Hcur : ∀ s1, core s1 = core s → curSlot s1 = Ret sl s1).
  { intros s1 [= E _ _]. apply curSlot_Ret. by rewrite E. }
  rewrite bind_eq, Hcur by done.
  apply calm_bind; [apply calm_logFile_Write|]. intros [e|] s1 _ E1; [done|].
  rewrite bind_eq, Hcur by done.
  apply calm_bind; [rewrite <- E1; apply calm_commit_write|]. intros [e|] s2 _ E2; [done|].
  apply calm_bind; [rewrite <- E2; apply calm_logFile_Sync|]. intros [] s3 _ E3.
  rewrite bind_eq, Hcur by done.
  apply calm_bind; [rewrite <- E3; apply calm_commit_clear|]. by intros [] s4 _ E4.
Qed.

(** *** add *)

Lemma add_Ret p r sl s :
  w_heap (world s) !! p = Some r →
  index (transList (tm s)) (curTrans (tm s)) = Some sl →
  add p s =
    Ret tt (mkSt (set_transList (<[Z.to_nat (curTrans (tm s)) := Some (default [] sl ++ [p])]>
                                   (transList (tm s))) (tm s))
                 (set_heap (<[p := IncTransCount r]> (w_heap (world s))) (world s))).
Proof.
  intros Hr Hsl. unfold add, update, deref, modify, curSlot, set_curSlot, mbind, Go_bind.
  rewrite Hr. st_simpl. rewrite Hsl. st_simpl. by rewrite Hsl.
Qed.

Lemma add_out_of_range p r s :
  w_heap (world s) !! p = Some r →
  index (transList (tm s)) (curTrans (tm s)) = None →
  add p s = Panic IndexOutOfRange.
Proof.
  intros Hr Hsl. unfold add, update, deref, modify, curSlot, mbind, Go_bind.
  rewrite Hr. st_simpl. by rewrite Hsl.
Qed.

Lemma add_nil p s :
  w_heap (world s) !! p = None → add p s = Panic NilDereference.
Proof.
  intros Hr. unfold add, update. rewrite !bind_eq. unfold deref. by rewrite Hr.
Qed.

(** C10.  With no transaction open ([curTrans = -1]) both [add] and
    [commit] index the slot list at -1 and stop with an index out of
    range; with [curTrans] inside the slot list neither of them can. *)
Theorem add_commit_need_open_transaction s :
  (curTrans (tm s) = (-1)%Z →
     commit s = Panic IndexOutOfRange ∧
     ∀ p, is_Some (w_heap (world s) !! p) → add p s = Panic IndexOutOfRange) ∧
  ((0 ≤ curTrans (tm s) < Z.of_nat (length (transList (tm s))))%Z →
     commit s ≠ Panic IndexOutOfRange ∧
     ∀ p, add p s ≠ Panic IndexOutOfRange).
Proof.
  split.
  - intros Hc.
    assert (Hi : index (transList (tm s)) (curTrans (tm s)) = None).
    { apply index_None. lia. }
    split.
    + unfold commit. by rewrite bind_eq, (curSlot_Panic _ Hi).
    + intros p [r Hr]. by apply add_out_of_range with r.
  - intros Hc. apply index_is_Some in Hc as [sl Hsl]. split.
    + pose proof (calm_commit s sl Hsl) as H. intros E. rewrite E in H. done.
    + intros p. destruct (w_heap (world s) !! p) as [r|] eqn:Hr.
      * by rewrite (add_Ret p r sl).
      * by rewrite add_nil.
Qed.

(** *** The coalescing loop of the drain *)

(** The ids behind the pointers.  Counting a record up or down leaves
    them as they are. *)
Definition ids (h : list Rec) : list N := rec_id <$> h.

(** The record map and the decremented occurrences of the loop, as
    functions of the ids alone. *)
Fixpoint scan_map (ix : list N) (recs : list ptr) (m : gmap N ptr) : gmap N ptr :=
  match recs with
  | [] => m
  | p :: rest =>
    match ix !! p with
    | None => scan_map ix rest m
    | Some i =>
      match m !! i with
      | Some _ => scan_map ix rest m
      | None => scan_map ix rest (<[i := p]> m)
      end
    end
  end.

Fixpoint scan_dec (ix : list N) (recs : list ptr) (m : gmap N ptr) : list ptr :=
  match recs with
  | [] => []
  | p :: rest =>
    match ix !! p with
    | None => scan_dec ix rest m
    | Some i =>
      match m !! i with
      | Some _ => p :: scan_dec ix rest m
      | None => scan_dec ix rest (<[i := p]> m)
      end
    end
  end.

(** The heap after [c p] calls of [DecTransCount] on each record [p]. *)
Definition lower (c : ptr → nat) (h : list Rec) : list Rec :=
  imap (λ p r, mkRec (rec_id r) (rec_data r) (rec_dirty r)
                     (rec_transCount r - Z.of_nat (c p))) h.

Definition occurrences (slots : list (option (list ptr))) : list ptr :=
  concat (default [] <$> slots).

Lemma lookup_lower c h p :
  lower c h !! p =
    (λ r, mkRec (rec_id r) (rec_data r) (rec_dirty r)
                (rec_transCount r - Z.of_nat (c p))) <$> h !! p.
Proof. unfold lower. by rewrite list_lookup_imap. Qed.

Lemma length_lower c h : length (lower c h) = length h.
Proof. unfold lower. by rewrite length_imap. Qed.

Lemma ids_lower c h : ids (lower c h) = ids h.
Proof.
  apply list_eq. intros p. unfold ids.
  rewrite !list_lookup_fmap, lookup_lower. by destruct (h !! p).
Qed.

Lemma lookup_ids h p : ids h !! p = rec_id <$> h !! p.
Proof. unfold ids. by rewrite list_lookup_fmap. Qed.

Lemma lower_0 h : lower (λ _, 0) h = h.
Proof.
  apply list_eq. intros p. rewrite lookup_lower.
  destruct (h !! p) as [[]|]; [|done]. simpl. f_equal. f_equal. lia.
Qed.

Lemma lower_ext c c' h : (∀ p, c p = c' p) → lower c h = lower c' h.
Proof.
  intros E. apply list_eq. intros p. by rewrite !lookup_lower, E.
Qed.

Lemma lower_lower c c' h : lower c (lower c' h) = lower (λ p, c' p + c p) h.
Proof.
  apply list_eq. intros p. rewrite !lookup_lower.
  destruct (h !! p) as [[]|]; [|done]. simpl. f_equal. f_equal. lia.
Qed.

(** One decrement on the heap. *)
Lemma insert_Dec_lower h p r :
  h !! p = Some r →
  <[p := DecTransCount r]> h = lower (λ q, if decide (q = p) then 1 else 0) h.
Proof.
  intros Hr. apply list_eq. intros q. rewrite lookup_lower.
  destruct (decide (q = p)) as [->|Hne].
  - rewrite list_lookup_insert_eq by (by eapply lookup_lt_Some). by rewrite Hr.
  - rewrite list_lookup_insert_ne by done.
    destruct (h !! q) as [[]|]; [|done]. simpl. f_equal. f_equal. lia.
Qed.

Lemma update_Dec p r s :
  w_heap (world s) !! p = Some r →
  update DecTransCount p s =
    Ret tt (on_world (set_heap (lower (λ q, if decide (q = p) then 1 else 0)
                                      (w_heap (world s)))) s).
Proof.
  intros Hr. unfold update, deref, modify, mbind, Go_bind. rewrite Hr.
  unfold on_world. st_simpl. by rewrite (insert_Dec_lower _ _ _ Hr).
Qed.

Lemma count_occ_cons_decide (p q : ptr) l :
  count_occ Nat.eq_dec (q :: l) p = (if decide (p = q) then 1 else 0) + count_occ Nat.eq_dec l p.
Proof.
  case_decide.
  - subst. by rewrite count_occ_cons_eq.
  - rewrite count_occ_cons_neq by done. done.
Qed.

(** The inner loop against [scan_map] and [scan_dec]. *)
Lemma coalesce_slot_scan recs : ∀ m s,
  (∀ p, p ∈ recs → is_Some (w_heap (world s) !! p)) →
  coalesce_slot recs m s =
    Ret (scan_map (ids (w_heap (world s))) recs m)
        (on_world (set_heap
           (lower (count_occ Nat.eq_dec (scan_dec (ids (w_heap (world s))) recs m))
                  (w_heap (world s)))) s).
Proof.
  induction recs as [|p recs IH]; intros m s Hv.
  - cbn. unfold mret, Go_ret. destruct s as [t w]. unfold on_world. cbn [tm world].
    f_equal. f_equal. rewrite lower_0. by destruct w.
  - destruct (Hv p) as [r Hr]; [left|].
    assert (Hv' : ∀ q, q ∈ recs → is_Some (w_heap (world s) !! q)).
    { intros q Hq. apply Hv. by right. }
    cbn [coalesce_slot scan_map scan_dec]. rewrite lookup_ids, Hr. cbn [fmap option_fmap option_map].
    rewrite bind_eq. unfold deref at 1. rewrite Hr. unfold Id.
    destruct (m !! rec_id r) as [x|] eqn:Hm.
    + rewrite bind_eq, (update_Dec _ _ _ Hr), IH.
      * st_simpl. rewrite ids_lower, lower_lower.
        rewrite (lower_ext _ (count_occ Nat.eq_dec
                   (p :: scan_dec (ids (w_heap (world s))) recs m))); [done|].
        intros q. by rewrite count_occ_cons_decide.
      * intros q Hq. st_simpl. rewrite lookup_lower.
        destruct (Hv' q Hq) as [r' ->]. by eexists.
    + by rewrite IH.
Qed.

Lemma scan_map_app ix a b m :
  scan_map ix (a ++ b) m = scan_map ix b (scan_map ix a m).
Proof.
  revert m. induction a as [|p a IH]; intros m; [done|]. cbn.
  destruct (ix !! p) as [i|]; [|done]. by destruct (m !! i).
Qed.

Lemma scan_dec_app ix a b m :
  scan_dec ix (a ++ b) m = scan_dec ix a m ++ scan_dec ix b (scan_map ix a m).
Proof.
  revert m. induction a as [|p a IH]; intros m; [done|]. cbn.
  destruct (ix !! p) as [i|]; [|done]. destruct (m !! i); [|done].
  cbn. by rewrite IH.
Qed.

(** The outer loop: the slots from [i] on are scanned in order and set
    to nil. *)
Lemma coalesce_scan slots : ∀ pre m s,
  transList (tm s) = pre ++ slots →
  (∀ p, p ∈ occurrences slots → is_Some (w_heap (world s) !! p)) →
  coalesce (length pre) slots m s =
    Ret (scan_map (ids (w_heap (world s))) (occurrences slots) m)
        (mkSt (set_transList (pre ++ replicate (length slots) None) (tm s))
              (set_heap
                 (lower (count_occ Nat.eq_dec
                           (scan_dec (ids (w_heap (world s))) (occurrences slots) m))
                        (w_heap (world s))) (world s))).
Proof.
  induction slots as [|[recs|] slots IH]; intros pre m s Ht Hv.
  - cbn. unfold mret, Go_ret. rewrite lower_0. rewrite app_nil_r in *.
    destruct s as [[] []]. st_simpl. by subst.
  - unfold occurrences in *. cbn [fmap list_fmap concat default from_option id] in *.
    cbn [coalesce]. rewrite bind_eq, coalesce_slot_scan.
    2:{ intros p Hp. apply Hv. apply elem_of_app. by left. }
    rewrite bind_eq. unfold modify at 1.
    replace (S (length pre)) with (length (pre ++ [None (A:=list ptr)]))
      by (rewrite length_app; simpl; lia).
    rewrite IH.
    + st_simpl. rewrite ids_lower, scan_map_app, scan_dec_app, lower_lower.
      rewrite (lower_ext _ (count_occ Nat.eq_dec
                 (scan_dec (ids (w_heap (world s))) recs m ++
                  scan_dec (ids (w_heap (world s))) (concat (default [] <$> slots))
                           (scan_map (ids (w_heap (world s))) recs m))))
        by (intros q; by rewrite count_occ_app).
      rewrite <- app_assoc. done.
    + st_simpl. rewrite Ht.
      rewrite insert_app_r_alt, Nat.sub_diag by lia. cbn. by rewrite <- app_assoc.
    + intros p Hp. st_simpl. rewrite lookup_lower.
      destruct (Hv p) as [r ->]; [|by eexists]. apply elem_of_app. by right.
  - unfold occurrences in *. cbn [fmap list_fmap concat default from_option id app] in *.
    cbn [coalesce].
    replace (S (length pre)) with (length (pre ++ [None (A:=list ptr)]))
      by (rewrite length_app; simpl; lia).
    rewrite IH; [|by rewrite Ht, <- app_assoc|done].
    f_equal. f_equal. cbn. by rewrite <- app_assoc.
Qed.

(** The map of the scan holds, per id, what it held before or else the
    first pointer scanned whose record has the id. *)
Lemma scan_map_lookup ix recs : ∀ m i,
  scan_map ix recs m !! i =
    match m !! i with
    | Some x => Some x
    | None => head (filter (λ p, ix !! p = Some i) recs)
    end.
Proof.
  induction recs as [|p recs IH]; intros m i.
  - cbn. by destruct (m !! i).
  - cbn [scan_map]. rewrite filter_cons.
    destruct (ix !! p) as [j|] eqn:Hj.
    + destruct (m !! j) as [x|] eqn:Hm.
      * rewrite IH. destruct (m !! i) eqn:Hi; [done|].
        rewrite decide_False; [done|]. intros [= ->]. congruence.
      * rewrite IH. destruct (decide (i = j)) as [->|Hne].
        -- rewrite lookup_insert_eq, Hm. by rewrite decide_True.
        -- rewrite lookup_insert_ne by done.
           rewrite (decide_False (P := Some j = Some i)) by congruence. done.
    + rewrite IH. by rewrite decide_False.
Qed.

(** Every occurrence of a record is decremented, but the one the map
    took. *)
Lemma scan_dec_count ix recs p i : ∀ m,
  ix !! p = Some i →
  count_occ Nat.eq_dec (scan_dec ix recs m) p +
    (if decide (m !! i = None ∧ scan_map ix recs m !! i = Some p) then 1 else 0)
  = count_occ Nat.eq_dec recs p.
Proof.
  intros m Hp. revert m.
  induction recs as [|q recs IH]; intros m.
  - cbn. rewrite decide_False; [done|]. intros [E1 E2]. congruence.
  - cbn [scan_map scan_dec]. rewrite (count_occ_cons_decide p q recs).
    destruct (ix !! q) as [j|] eqn:Hj.
    + destruct (m !! j) as [x|] eqn:Hm.
      * rewrite count_occ_cons_decide, <- (IH m). lia.
      * rewrite <- (IH (<[j := q]> m)).
        destruct (decide (i = j)) as [->|Hne].
        -- rewrite lookup_insert_eq.
           rewrite (decide_False (P := Some q = None ∧ _)) by (intros [? _]; done).
           rewrite scan_map_lookup, lookup_insert_eq.
           repeat case_decide; try lia; intuition congruence.
        -- rewrite lookup_insert_ne by done.
           rewrite (decide_False (P := p = q)). 2:{ intros ->. congruence. }
           done.
    + rewrite (decide_False (P := p = q)). 2:{ intros ->. congruence. }
      apply IH.
Qed.

Lemma scan_map_first_seen h occs i :
  scan_map (ids h) occs ∅ !! i = head (filter (λ p, Id <$> h !! p = Some i) occs).
Proof.
  rewrite scan_map_lookup, lookup_empty.
  f_equal. apply list_filter_iff. intros p. by rewrite lookup_ids.
Qed.

(** *** Little-endian counts *)

Lemma Z_of_byte_of_Z z : Z_of_byte (byte_of_Z z) = (z mod 256)%Z.
Proof.
  unfold Z_of_byte, byte_of_Z.
  assert (0 ≤ z mod 256 < 256)%Z as Hb by (apply Z.mod_pos_bound; lia).
  destruct (Byte.of_N (Z.to_N (z mod 256))) as [b|] eqn:E.
  - apply Byte.to_of_N in E. cbn. rewrite E. lia.
  - apply Byte.of_N_None_iff in E. lia.
Qed.

Lemma length_le_bytes n : ∀ z, length (le_bytes n z) = n.
Proof. induction n as [|n IH]; intros z; cbn; [done|]. by rewrite IH. Qed.

Lemma le_value_le_bytes n : ∀ z,
  le_value (le_bytes n z) = (z mod 2 ^ (8 * Z.of_nat n))%Z.
Proof.
  induction n as [|n IH]; intros z.
  - cbn. by rewrite Z.mod_1_r.
  - cbn [le_bytes le_value]. rewrite Z_of_byte_of_Z, IH.
    rewrite Z.shiftr_div_pow2 by lia.
    replace (8 * Z.of_nat (S n))%Z with (8 + 8 * Z.of_nat n)%Z by lia.
    rewrite Z.pow_add_r by lia.
    change (2 ^ 8)%Z with 256%Z.
    rewrite Z.rem_mul_r; [done|lia|]. apply Z.pow_pos_nonneg; lia.
Qed.

Lemma binary_Read_int64_le n rest :
  (- 2 ^ 63 ≤ n < 2 ^ 63)%Z →
  binary_Read_int64 (int64_le n ++ rest) = inr (n, rest).
Proof.
  intros Hn. unfold binary_Read_int64.
  assert (Hl : length (int64_le n) = 8) by apply length_le_bytes.
  destruct (int64_le n ++ rest) as [|b l] eqn:E.
  { apply (f_equal length) in E. rewrite length_app, Hl in E. simpl in E. lia. }
  rewrite <- E. rewrite decide_False by (rewrite length_app; lia).
  rewrite take_app_length' by done. rewrite drop_app_length' by done.
  f_equal. f_equal. unfold int64_le. rewrite le_value_le_bytes.
  change (8 * Z.of_nat 8)%Z with 64%Z. unfold int64_wrap.
  rewrite Z.mod_mod by lia.
  destruct (decide (0 ≤ n)%Z).
  - rewrite Z.mod_small by lia. rewrite decide_True by lia. done.
  - replace (n mod 2 ^ 64)%Z with (n + 2 ^ 64)%Z.
    + rewrite decide_False by lia. lia.
    + apply Z.mod_unique with (-1)%Z; lia.
Qed.

(** *** Reading a frame *)

(** What [ReadRecord] allocates. *)
Definition new_record (r : N * list byte) : Rec := mkRec r.1 r.2 false 0.

(** The records a frame of [n] records yields from the rest of the file,
    and what stops the loop: an error, or the bytes left. *)
Fixpoint parse_frame (n : nat) (file : list byte)
    : list (N * list byte) * (error + list byte) :=
  match n with
  | O => ([], inr file)
  | S n' =>
    match record_parse file with
    | inl e => ([], inl e)
    | inr (i, d, k) =>
      let fr := parse_frame n' (drop k file) in ((i, d) :: fr.1, fr.2)
    end
  end.

(** The record map of a frame whose records are allocated from [base] on. *)
Fixpoint frame_map (base : nat) (rs : list (N * list byte)) (m : gmap N ptr)
    : gmap N ptr :=
  match rs with
  | [] => m
  | r :: rs' => frame_map (S base) rs' (<[r.1 := base]> m)
  end.

Lemma on_world_set_heap_id s : on_world (set_heap (w_heap (world s))) s = s.
Proof. by destruct s as [t []]. Qed.

Lemma recover_frame_parse n : ∀ file m s,
  recover_frame n file m s =
    Ret match (parse_frame n file).2 with
        | inl e => inl e
        | inr rest =>
          inr (frame_map (length (w_heap (world s))) (parse_frame n file).1 m, rest)
        end
        (on_world (set_heap (w_heap (world s) ++ (new_record <$> (parse_frame n file).1))) s).
Proof.
  induction n as [|n IH]; intros file m s.
  - cbn. unfold mret, Go_ret. by rewrite app_nil_r, on_world_set_heap_id.
  - cbn [recover_frame parse_frame]. unfold ReadRecord.
    destruct (record_parse file) as [e|[[i d] k]].
    + cbn. unfold mret, mbind, Go_bind, Go_ret. by rewrite app_nil_r, on_world_set_heap_id.
    + unfold gets, modify, mret, mbind, Go_bind, Go_ret, deref. st_simpl.
      rewrite lookup_app_r, Nat.sub_diag by lia. cbn [lookup list_lookup].
      rewrite IH. st_simpl. unfold Id. cbn [rec_id fst snd].
      rewrite length_app. cbn [length].
      replace (length (w_heap (world s)) + 1) with (S (length (w_heap (world s)))) by lia.
      cbn [fmap list_fmap]. rewrite <- app_assoc. done.
Qed.

Lemma parse_frame_rest n : ∀ file rest,
  (parse_frame n file).2 = inr rest → length rest ≤ length file.
Proof.
  induction n as [|n IH]; intros file rest; cbn.
  - intros [= ->]. done.
  - destruct (record_parse file) as [e|[[i d] k]]; cbn; [done|].
    intros H. apply IH in H. rewrite length_drop in H. lia.
Qed.

Lemma frame_map_range rs : ∀ base m i p,
  frame_map base rs m !! i = Some p →
  m !! i = Some p ∨ base ≤ p < base + length rs.
Proof.
  induction rs as [|[j d] rs IH]; intros base m i p; cbn; [by left|].
  intros H. apply IH in H as [H|H]; [|right; lia].
  destruct (decide (j = i)) as [->|Hne].
  - rewrite lookup_insert_eq in H. injection H as <-. right. lia.
  - rewrite lookup_insert_ne in H by done. by left.
Qed.

(** *** Applying records to the main file *)

(** What a procedure that only reads the log and calls the owner leaves
    as it was: the manager, the log, the handle calls, the answers about
    the log; and the records that were there. *)
Definition untouched (s s' : St) : Prop :=
  tm s' = tm s ∧
  w_log (world s') = w_log (world s) ∧
  w_owner (world s') = w_owner (world s) ∧
  w_fileCalls (world s') = w_fileCalls (world s) ∧
  f_openRead (world s') = f_openRead (world s) ∧
  f_openWrite (world s') = f_openWrite (world s) ∧
  f_logWrite (world s') = f_logWrite (world s) ∧
  ∃ ext, w_heap (world s') = w_heap (world s) ++ ext.

Lemma untouched_refl s : untouched s s.
Proof. repeat split. exists []. by rewrite app_nil_r. Qed.

Lemma untouched_trans s1 s2 s3 : untouched s1 s2 → untouched s2 s3 → untouched s1 s3.
Proof.
  intros (?&?&?&?&?&?&?&e1&Hx1) (?&?&?&?&?&?&?&e2&Hx2).
  repeat split; try congruence. exists (e1 ++ e2). by rewrite Hx2, Hx1, <- app_assoc.
Qed.

(** No answer of the owner is a failure. *)
Definition quiet (fw : list (option error)) : Prop := Forall (λ x, x = None) fw.

(** The main file after one more record. *)
Definition apply_rec (h : list Rec) (main : gmap N (list byte)) (ip : N * ptr)
    : gmap N (list byte) :=
  match h !! ip.2 with
  | Some r => <[rec_id r := rec_data r]> main
  | None => main
  end.

Lemma owner_writeRecord_fail p r e fs s :
  w_heap (world s) !! p = Some r →
  f_writeRecord (world s) = Some e :: fs →
  owner_writeRecord p s =
    Ret (Some e)
        (on_world (λ w, set_f_writeRecord fs
                          (set_calls (w_calls w ++ [CallWriteRecord p]) w)) s).
Proof.
  intros Hr Hf. unfold owner_writeRecord, deref, gets, modify, mbind, mret, Go_bind, Go_ret.
  rewrite Hr, Hf. done.
Qed.

Lemma owner_writeRecord_ok p r s :
  w_heap (world s) !! p = Some r →
  (∀ e fs, f_writeRecord (world s) ≠ Some e :: fs) →
  owner_writeRecord p s =
    Ret None
        (on_world (λ w, set_f_writeRecord (tail (f_writeRecord w))
                          (set_main (<[rec_id r := rec_data r]> (w_main w))
                             (set_calls (w_calls w ++ [CallWriteRecord p]) w))) s).
Proof.
  intros Hr Hf. unfold owner_writeRecord, deref, gets, modify, mbind, mret, Go_bind, Go_ret.
  rewrite Hr. unfold on_world. st_simpl.
  destruct (f_writeRecord (world s)) as [|[e|] fs] eqn:E; [done| |done].
  by destruct (Hf e fs).
Qed.

Lemma quiet_head fw : quiet fw → ∀ e fs, fw ≠ Some e :: fs.
Proof. intros H e fs ->. by inversion H. Qed.

Lemma quiet_tail fw : quiet fw → quiet (tail fw).
Proof. intros H. destruct H; [constructor|done]. Qed.

(** Replay: the loop of [syncRecords] that leaves the counters alone.
    It always comes back; when the owner does not fail it applies every
    record. *)
Lemma syncRecords_loop_replay l : ∀ s,
  (∀ ip, ip ∈ l → is_Some (w_heap (world s) !! ip.2)) →
  ∃ err s',
    syncRecords_loop l false s = Ret err s' ∧
    untouched s s' ∧
    w_heap (world s') = w_heap (world s) ∧
    (quiet (f_writeRecord (world s)) →
       err = None ∧
       quiet (f_writeRecord (world s')) ∧
       w_main (world s') = foldl (apply_rec (w_heap (world s))) (w_main (world s)) l).
Proof.
  induction l as [|[i p] l IH]; intros s Hv.
  - exists None, s. repeat split; try done. apply untouched_refl.
  - destruct (Hv (i, p)) as [r Hr]; [left|]. cbn [snd] in Hr.
    cbn [syncRecords_loop]. rewrite bind_eq.
    destruct (f_writeRecord (world s)) as [|[e|] fs] eqn:Hf.
    + rewrite (owner_writeRecord_ok p r s Hr) by (rewrite Hf; done).
      rewrite bind_eq. unfold mret at 1, Go_ret at 1.
      edestruct (IH) as (err & s' & -> & Hu & Hh & Hq); last first.
      * exists err, s'. split; [done|]. st_simpl. split; [|split; [done|]].
        { eapply untouched_trans; [|exact Hu]. repeat split. exists []. st_simpl.
          by rewrite app_nil_r. }
        intros _. rewrite Hf in Hq. destruct Hq as (-> & ? & ->); [constructor|].
        repeat split; [done|]. cbn [foldl]. f_equal. unfold apply_rec. cbn [snd]. by rewrite Hr.
      * intros ip Hip. st_simpl. apply Hv. by right.
    + rewrite (owner_writeRecord_fail p r e fs s Hr Hf).
      eexists _, _. split; [reflexivity|]. st_simpl. split; [|split; [done|]].
      * repeat split. exists []. by rewrite app_nil_r.
      * intros Hq. by inversion Hq.
    + rewrite (owner_writeRecord_ok p r s Hr) by (rewrite Hf; done).
      rewrite bind_eq. unfold mret at 1, Go_ret at 1.
      edestruct (IH) as (err & s' & -> & Hu & Hh & Hq); last first.
      * exists err, s'. split; [done|]. st_simpl. split; [|split; [done|]].
        { eapply untouched_trans; [|exact Hu]. repeat split. exists []. st_simpl.
          by rewrite app_nil_r. }
        intros Hq0. rewrite Hf in Hq. cbn [tail] in Hq.
        destruct Hq as (-> & ? & ->); [by inversion Hq0|].
        repeat split; [done|]. cbn [foldl]. f_equal. unfold apply_rec. cbn [snd]. by rewrite Hr.
      * intros ip Hip. st_simpl. apply Hv. by right.
Qed.

(** *** recover *)

(** What [recover] returns, read off the log alone. *)
Fixpoint log_status (fuel : nat) (file : list byte) : option error :=
  match fuel with
  | O => None
  | S fuel' =>
    match binary_Read_int64 file with
    | inl e => if decide (e = EOF) then None else Some e
    | inr (n, file1) =>
      match (parse_frame (Z.to_nat n) file1).2 with
      | inl e => Some e
      | inr file2 => log_status fuel' file2
      end
    end
  end.

Definition recover_status (log : option (list byte)) (fo : option error) : option error :=
  match log with
  | None => None
  | Some content =>
    match fo with
    | Some e => Some e
    | None =>
      let i := length (take 2 content) in
      let magic := take 2 content ++ replicate (2 - i) "000"%byte in
      if decide (i ≠ 2 ∨ magic !! 0 ≠ TRANSACTION_LOG_HEADER !! 0
                 ∨ magic !! 1 ≠ TRANSACTION_LOG_HEADER !! 1)
      then Some ErrBadMagic
      else log_status (S (length content)) (drop 2 content)
    end
  end.

Lemma binary_Read_int64_inr file n file1 :
  binary_Read_int64 file = inr (n, file1) → file1 = drop 8 file ∧ 8 ≤ length file.
Proof.
  unfold binary_Read_int64. destruct file as [|b l]; [done|].
  case_decide; [done|]. intros [= _ <-]. split; [done|lia].
Qed.

Lemma range_order_valid k rs base (h : list Rec) ip :
  length h = base + length rs →
  ip ∈ range_order k (frame_map base rs ∅) → is_Some (h !! ip.2).
Proof.
  intros Hl Hip. rewrite range_order_perm in Hip. destruct ip as [i p].
  apply elem_of_map_to_list in Hip. apply frame_map_range in Hip as [Hip|Hip].
  - by rewrite lookup_empty in Hip.
  - apply lookup_lt_is_Some. cbn. lia.
Qed.

Lemma syncRecords_eq records clear s :
  syncRecords records clear s =
    syncRecords_loop (range_order (w_ranges (world s)) records) clear
                     (on_world (set_ranges (S (w_ranges (world s)))) s).
Proof. reflexivity. Qed.

(** The frames are read to the end of the file or to the first error of
    reading; the fuel is never used up, and what applying the records
    returns has no part in the result. *)
Lemma recover_loop_status fuel : ∀ file s,
  length file < fuel →
  ∃ s', recover_loop fuel file s = Ret (log_status fuel file) s' ∧ untouched s s'.
Proof.
  induction fuel as [|fuel IH]; intros file s Hfuel; [lia|].
  cbn [recover_loop log_status].
  destruct (binary_Read_int64 file) as [e|[n file1]] eqn:Hrd.
  - exists s. split; [by case_decide|apply untouched_refl].
  - apply binary_Read_int64_inr in Hrd as [-> Hlen].
    rewrite bind_eq, recover_frame_parse.
    destruct (parse_frame (Z.to_nat n) (drop 8 file)) as [rs [e|file2]] eqn:Hpf; cbn [fst snd].
    + eexists. split; [reflexivity|]. repeat split. st_simpl. by eexists.
    + rewrite bind_eq, syncRecords_eq.
      edestruct (syncRecords_loop_replay) as (err & s3 & -> & Hu3 & _); last first.
      * edestruct (IH file2 s3) as (s' & -> & Hu').
        { pose proof (parse_frame_rest (Z.to_nat n) (drop 8 file) file2) as Hr.
          rewrite Hpf in Hr. specialize (Hr eq_refl). rewrite length_drop in Hr. lia. }
        exists s'. split; [done|].
        eapply untouched_trans; [|exact Hu']. eapply untouched_trans; [|exact Hu3].
        repeat split. st_simpl. by eexists.
      * intros ip Hip. st_simpl. eapply range_order_valid; [|exact Hip].
        by rewrite length_app, length_fmap.
Qed.

Lemma recover_eq s :
  ∃ s', recover s = Ret (recover_status (w_log (world s)) (f_openRead (world s))) s' ∧
        untouched s s'.
Proof.
  unfold recover, recover_status, gets. rewrite bind_eq.
  destruct (w_log (world s)) as [content|]; [|exists s; split; [done|apply untouched_refl]].
  destruct (f_openRead (world s)) as [e|]; [exists s; split; [done|apply untouched_refl]|].
  cbv zeta. case_decide; [exists s; split; [done|apply untouched_refl]|].
  apply recover_loop_status. rewrite length_drop. lia.
Qed.

(** C3, as the code has it.  [recover] drops what [syncRecords] returns
    ("If something goes wrong here ignore and try to do the rest"): it
    always comes back, and what it returns is settled by the log file
    and by whether it can be opened.  Nothing the owner answers to
    [writeRecord] has a part in it, so an error of applying a frame
    never reaches the caller. *)
Theorem recover_drops_apply_errors s1 s2 :
  w_log (world s1) = w_log (world s2) →
  f_openRead (world s1) = f_openRead (world s2) →
  ∃ err s1' s2',
    recover s1 = Ret err s1' ∧
    recover s2 = Ret err s2'.
Proof.
  intros Hlog Hopen.
  destruct (recover_eq s1) as (s1' & H1 & _).
  destruct (recover_eq s2) as (s2' & H2 & _).
  rewrite Hlog, Hopen in H1. eauto.
Qed.

(** *** open and NewTransactionManager *)

Lemma open_fail s e :
  f_openWrite (world s) = Some e → open s = Ret (Some e) s.
Proof. intros H. unfold open, gets. rewrite bind_eq. by rewrite H. Qed.

(** A successful [open]: an empty file, the header if the write goes
    through, a fresh handle in the manager, and no transaction open. *)
Lemma open_ok s :
  f_openWrite (world s) = None →
  open s =
    Ret None
      (mkSt (set_curTrans (-1) (set_logFile (Some (OsFile (name (tm s)))) (tm s)))
            (set_fileCalls (w_fileCalls (world s) ++ [FileSync])
               (set_f_logWrite (tail (f_logWrite (world s)))
                  (set_log (Some (match f_logWrite (world s) with
                                  | Some _ :: _ => []
                                  | _ => TRANSACTION_LOG_HEADER
                                  end)) (world s))))).
Proof.
  intros H. unfold open, gets. rewrite bind_eq, H.
  unfold modify, mbind, mret, Go_bind, Go_ret, logFile_Write, logFile_Sync, on_tm, on_world.
  st_simpl. by destruct (f_logWrite (world s)) as [|[e|] fs].
Qed.

(** C6.  For a manager built with [doRecover = true]: on a missing log
    [recover] returns nil and changes nothing; when [recover] returns
    [ErrBadMagic] the construction goes on to [open], and with the file
    created and the header written it returns the manager over a log
    that holds the header and nothing else; any other error of
    [recover] is returned in place of a manager. *)
Theorem construction_tolerates_bad_magic w :
  let s0 := mkSt (new_manager w) w in
  (w_log w = None → recover s0 = Ret None s0) ∧
  (∀ s1, recover s0 = Ret (Some ErrBadMagic) s1 →
     f_openWrite w = None →
     (∀ e fs, f_logWrite w ≠ Some e :: fs) →
     ∃ w', NewTransactionManager true w =
             Ret (Some (set_logFile (Some (OsFile (name (new_manager w)))) (new_manager w)),
                  None) w' ∧
           w_log w' = Some TRANSACTION_LOG_HEADER) ∧
  (∀ e s1, recover s0 = Ret (Some e) s1 → e ≠ ErrBadMagic →
     NewTransactionManager true w = Ret (None, Some e) (world s1)).
Proof.
  intros s0. split; [|split].
  - intros Hlog. unfold recover, gets. rewrite bind_eq. cbn [world s0]. by rewrite Hlog.
  - intros s1 Hrec Hopen Hwr.
    destruct (recover_eq s0) as (s1' & Hrec' & Hu). rewrite Hrec in Hrec'.
    injection Hrec' as _ <-. destruct Hu as (Ht & _ & _ & _ & _ & Ho & Hl & _).
    unfold NewTransactionManager. fold s0. rewrite bind_eq, Hrec.
    rewrite decide_False by (intros H; by apply H).
    rewrite open_ok by (by rewrite Ho). rewrite Ht, Hl. cbn [s0 tm world].
    eexists. split; [reflexivity|]. st_simpl.
    destruct (f_logWrite w) as [|[e|] fs] eqn:E; [done| |done]. by destruct (Hwr e fs).
  - intros e s1 Hrec Hne.
    unfold NewTransactionManager. fold s0. rewrite bind_eq, Hrec.
    by rewrite decide_True.
Qed.

(** *** Replaying frames *)

(** The main file after the image [r.2] is written for the id [r.1]. *)
Definition put_rec (main : gmap N (list byte)) (r : N * list byte) : gmap N (list byte) :=
  <[r.1 := r.2]> main.

(** The bytes of a frame and of a log, as [commit] and [open] write them. *)
Definition records_bytes (rs : list (N * list byte)) : list byte :=
  concat ((λ r, record_bytes r.1 r.2) <$> rs).
Definition frame_bytes (rs : list (N * list byte)) : list byte :=
  int64_le (Z.of_nat (length rs)) ++ records_bytes rs.
Definition log_bytes (frames : list (list (N * list byte))) : list byte :=
  TRANSACTION_LOG_HEADER ++ concat (frame_bytes <$> frames).

Lemma lookup_foldl_put_rec main l j :
  foldl put_rec main l !! j =
    match last (filter (λ r, r.1 = j) l) with
    | Some r => Some r.2
    | None => main !! j
    end.
Proof.
  induction l as [|r l IH] using rev_ind; [done|].
  rewrite foldl_app, filter_app. cbn [foldl]. unfold put_rec at 1.
  rewrite filter_cons, filter_nil. case_decide as Hj.
  - rewrite last_snoc, <- Hj. apply lookup_insert_eq.
  - rewrite app_nil_r, lookup_insert_ne by done. apply IH.
Qed.

Lemma foldl_put_rec_union main l : foldl put_rec main l = foldl put_rec ∅ l ∪ main.
Proof.
  apply map_eq. intros j. rewrite lookup_union, !lookup_foldl_put_rec.
  destruct (last _) as [r|]; cbn.
  - by destruct (main !! j).
  - rewrite lookup_empty. by destruct (main !! j).
Qed.

Lemma foldl_put_rec_NoDup main l :
  NoDup l.*1 → foldl put_rec main l = list_to_map l ∪ main.
Proof.
  revert main. induction l as [|[i d] l IH]; intros main Hnd.
  - cbn. by rewrite (left_id_L ∅ (∪)).
  - apply NoDup_cons in Hnd as [Hi Hnd]. cbn [foldl list_to_map foldr].
    rewrite IH by done. unfold put_rec. cbn [fst snd].
    rewrite <- insert_union_l. rewrite insert_union_r; [done|].
    by apply not_elem_of_list_to_map_1.
Qed.

(** The record map of a frame against the images it stands for: each id
    of the map points at a record with that id and its image. *)
Definition frame_rel (h : list Rec) (m : gmap N ptr) (img : gmap N (list byte)) : Prop :=
  ∀ i, match m !! i, img !! i with
       | Some p, Some d => h !! p = Some (new_record (i, d))
       | None, None => True
       | _, _ => False
       end.

Lemma frame_map_rel rs : ∀ hb m img,
  frame_rel hb m img →
  frame_rel (hb ++ (new_record <$> rs)) (frame_map (length hb) rs m) (foldl put_rec img rs).
Proof.
  induction rs as [|[j d] rs IH]; intros hb m img Hrel.
  - cbn. by rewrite app_nil_r.
  - cbn [frame_map foldl fmap list_fmap fst].
    replace (hb ++ new_record (j, d) :: (new_record <$> rs))
      with ((hb ++ [new_record (j, d)]) ++ (new_record <$> rs)) by (by rewrite <- app_assoc).
    replace (S (length hb)) with (length (hb ++ [new_record (j, d)]))
      by (rewrite length_app; cbn; lia).
    apply IH. intros i. unfold put_rec. cbn [fst snd].
    destruct (decide (j = i)) as [->|Hne].
    + rewrite !lookup_insert_eq. rewrite lookup_app_r, Nat.sub_diag by lia. done.
    + rewrite !lookup_insert_ne by done. specialize (Hrel i).
      destruct (m !! i) as [p|], (img !! i) as [x|]; try done.
      rewrite lookup_app_l; [done|]. by eapply lookup_lt_Some.
Qed.

Lemma frame_rel_empty h : frame_rel h ∅ ∅.
Proof. intros i. by rewrite !lookup_empty. Qed.

(** Applying a record map in any order of its entries writes its images. *)
Lemma foldl_apply_rec_rel h m img l main :
  frame_rel h m img →
  l ≡ₚ map_to_list m →
  foldl (apply_rec h) main l = img ∪ main.
Proof.
  intros Hrel Hperm.
  assert (Hin : ∀ i p, (i, p) ∈ l ↔ m !! i = Some p).
  { intros i p. rewrite Hperm. apply elem_of_map_to_list. }
  assert (Hnd : NoDup l.*1).
  { rewrite Hperm. apply NoDup_fst_map_to_list. }
  set (f := λ ip : N * ptr, (ip.1, default [] (rec_data <$> h !! ip.2))).
  assert (Hf : foldl (apply_rec h) main l = foldl put_rec main (f <$> l)).
  { clear Hnd. revert main.
    assert (Hall : ∀ ip, ip ∈ l → ∃ d, h !! ip.2 = Some (new_record (ip.1, d))).
    { intros [i p] Hip. apply Hin in Hip. specialize (Hrel i). rewrite Hip in Hrel.
      destruct (img !! i) as [d|]; [|done]. by exists d. }
    clear Hin Hperm. induction l as [|ip l IH]; intros main; [done|].
    cbn [foldl fmap list_fmap]. rewrite IH by (intros ? ?; apply Hall; by right).
    f_equal. destruct (Hall ip) as [d Hd]; [left|].
    unfold apply_rec, put_rec, f. rewrite Hd. done. }
  assert (Hfst : (f <$> l).*1 = l.*1).
  { rewrite <- list_fmap_compose. by apply list_fmap_ext. }
  rewrite Hf, foldl_put_rec_NoDup by (by rewrite Hfst). f_equal.
  apply map_eq. intros j. specialize (Hrel j).
  destruct (img !! j) as [d|] eqn:Himg.
  - destruct (m !! j) as [p|] eqn:Hm; [|done].
    apply elem_of_list_to_map_1; [by rewrite Hfst|].
    apply list_elem_of_fmap. exists (j, p). split; [|by apply Hin].
    unfold f. cbn. by rewrite Hrel.
  - destruct (m !! j) as [p|] eqn:Hm; [done|].
    apply not_elem_of_list_to_map_1. rewrite Hfst. intros Hj.
    apply list_elem_of_fmap in Hj as ([i p] & -> & Hip). apply Hin in Hip. cbn in Hm. congruence.
Qed.

Lemma parse_frame_bytes rs : ∀ rest,
  Forall (λ r, record_ok r.1 r.2) rs →
  parse_frame (length rs) (records_bytes rs ++ rest) = (rs, inr rest).
Proof.
  induction rs as [|[i d] rs IH]; intros rest Hok; [done|].
  apply Forall_cons in Hok as [Hr Hok]. cbn [fst snd] in Hr.
  unfold records_bytes. cbn [length parse_frame fmap list_fmap concat fst snd].
  rewrite <- app_assoc, (record_parse_bytes i d _ Hr).
  rewrite drop_app_length. fold (records_bytes rs). by rewrite IH.
Qed.

(** Replay of a log of whole frames when the owner does not fail. *)
Lemma recover_loop_frames frames : ∀ fuel s,
  length frames < fuel →
  quiet (f_writeRecord (world s)) →
  Forall (λ rs, (Z.of_nat (length rs) < 2 ^ 63)%Z ∧
                Forall (λ r, record_ok r.1 r.2) rs) frames →
  ∃ s', recover_loop fuel (concat (frame_bytes <$> frames)) s = Ret None s' ∧
        w_main (world s') = foldl put_rec (w_main (world s)) (concat frames).
Proof.
  induction frames as [|rs frames IH]; intros fuel s Hfuel Hq Hok.
  - destruct fuel as [|fuel]; [simpl in Hfuel; lia|]. exists s. done.
  - destruct fuel as [|fuel]; [simpl in Hfuel; lia|].
    apply Forall_cons in Hok as [[Hlen Hrs] Hok].
    cbn [fmap list_fmap concat recover_loop]. unfold frame_bytes at 1.
    rewrite <- app_assoc, binary_Read_int64_le by lia.
    rewrite Nat2Z.id, bind_eq, recover_frame_parse, parse_frame_bytes by done.
    cbn [fst snd]. rewrite bind_eq, syncRecords_eq.
    edestruct (syncRecords_loop_replay) as (err & s3 & -> & Hu3 & Hh3 & Hq3); last first.
    + st_simpl. destruct (Hq3 Hq) as (_ & Hq' & Hmain).
      destruct (IH fuel s3) as (s' & -> & Hmain'); [simpl in Hfuel; lia|done|done|].
      exists s'. split; [done|]. rewrite Hmain', Hmain, foldl_app. f_equal.
      rewrite (foldl_apply_rec_rel _ (frame_map (length (w_heap (world s))) rs ∅)
                 (foldl put_rec ∅ rs)).
      * by rewrite <- foldl_put_rec_union.
      * apply frame_map_rel, frame_rel_empty.
      * apply range_order_perm.
    + intros ip Hip. st_simpl. eapply range_order_valid; [|exact Hip].
      by rewrite length_app, length_fmap.
Qed.

(** C4.  Replaying a log of whole frames: within a frame the later
    image of an id overwrites the earlier one in the record map, and
    frames are applied in order, so the main file ends with the last
    image written for every id of the log, and is as before elsewhere. *)
Theorem recover_later_wins s frames :
  w_log (world s) = Some (log_bytes frames) →
  f_openRead (world s) = None →
  quiet (f_writeRecord (world s)) →
  Forall (λ rs, (Z.of_nat (length rs) < 2 ^ 63)%Z ∧
                Forall (λ r, record_ok r.1 r.2) rs) frames →
  ∃ s', recover s = Ret None s' ∧
        ∀ i, w_main (world s') !! i =
               match last (filter (λ r, r.1 = i) (concat frames)) with
               | Some r => Some r.2
               | None => w_main (world s) !! i
               end.
Proof.
  intros Hlog Hopen Hq Hok.
  unfold recover, gets. rewrite bind_eq, Hlog, Hopen. cbv zeta.
  unfold log_bytes. cbn [TRANSACTION_LOG_HEADER app take drop length replicate Nat.sub].
  rewrite decide_False by (intros [H|[H|H]]; by apply H). rewrite drop_0.
  destruct (recover_loop_frames frames
              (S (S (S (length (concat (frame_bytes <$> frames)))))) s)
    as (s' & -> & Hmain); [|done|done|].
  - clear. induction frames as [|rs frames IH]; [cbn; lia|].
    cbn [fmap list_fmap concat length]. rewrite length_app. unfold frame_bytes at 1.
    rewrite length_app. unfold int64_le. rewrite length_le_bytes. lia.
  - exists s'. split; [done|]. intros i. by rewrite Hmain, lookup_foldl_put_rec.
Qed.

(** *** The discarding loop of the rollback *)

(** The records the loop hands back to the owner, in the order of the
    calls: those whose counter is not positive after the decrement. *)
Fixpoint released (h : list Rec) (recs : list ptr) : list ptr :=
  match recs with
  | [] => []
  | p :: rest =>
    match h !! p with
    | None => released h rest
    | Some r =>
      (if InTransaction (DecTransCount r) then [] else [p]) ++
      released (<[p := DecTransCount r]> h) rest
    end
  end.

Definition release_calls (dirty : bool) (ps : list ptr) : list OwnerCall :=
  (λ p, CallReleaseInTrans p dirty) <$> ps.

Lemma discard_slot_released recs : ∀ s,
  (∀ p, p ∈ recs → is_Some (w_heap (world s) !! p)) →
  discard_slot recs s =
    Ret tt (mkSt (tm s)
              (set_calls (w_calls (world s) ++
                          release_calls false (released (w_heap (world s)) recs))
                 (set_heap (lower (count_occ Nat.eq_dec recs) (w_heap (world s)))
                           (world s)))).
Proof.
  induction recs as [|p recs IH]; intros s Hv.
  - cbn. unfold mret, Go_ret. st_simpl. rewrite lower_0, app_nil_r.
    by destruct s as [t []].
  - destruct (Hv p) as [r Hr]; [left|].
    cbn [discard_slot released]. rewrite Hr.
    rewrite bind_eq, (update_Dec _ _ _ Hr), bind_eq.
    unfold deref at 1. st_simpl. rewrite lookup_lower, Hr. cbn [fmap option_fmap option_map].
    rewrite decide_True by done.
    change (mkRec (rec_id r) (rec_data r) (rec_dirty r) (rec_transCount r - Z.of_nat 1))
      with (DecTransCount r).
    rewrite bind_eq. rewrite <- (insert_Dec_lower _ _ _ Hr).
    assert (Hv' : ∀ q, q ∈ recs →
              is_Some (<[p := DecTransCount r]> (w_heap (world s)) !! q)).
    { intros q Hq. apply lookup_lt_is_Some. rewrite length_insert.
      apply lookup_lt_is_Some, Hv. by right. }
    destruct (InTransaction (DecTransCount r)); cbn [negb].
    + unfold mret at 1, Go_ret at 1. rewrite IH by (st_simpl; done).
      unfold on_world. st_simpl. rewrite (insert_Dec_lower _ _ _ Hr), lower_lower.
      rewrite (lower_ext (λ q, (if decide (q = p) then 1 else 0) + count_occ Nat.eq_dec recs q)
                 (count_occ Nat.eq_dec (p :: recs)));
        [done | intros q; by rewrite count_occ_cons_decide].
    + unfold owner_releaseInTrans, modify. rewrite IH by (st_simpl; done).
      unfold on_world. st_simpl. rewrite (insert_Dec_lower _ _ _ Hr), lower_lower.
      rewrite (lower_ext (λ q, (if decide (q = p) then 1 else 0) + count_occ Nat.eq_dec recs q)
                 (count_occ Nat.eq_dec (p :: recs)));
        [|intros q; by rewrite count_occ_cons_decide].
      unfold release_calls. cbn [app fmap list_fmap]. by rewrite <- app_assoc.
Qed.

Lemma released_app a : ∀ h b,
  (∀ p, p ∈ a → is_Some (h !! p)) →
  released h (a ++ b) = released h a ++ released (lower (count_occ Nat.eq_dec a) h) b.
Proof.
  induction a as [|p a IH]; intros h b Hv.
  - cbn. by rewrite lower_0.
  - destruct (Hv p) as [r Hr]; [left|]. cbn [app released]. rewrite Hr.
    rewrite IH.
    + rewrite <- app_assoc. do 3 f_equal.
      rewrite (insert_Dec_lower _ _ _ Hr), lower_lower. apply lower_ext.
      intros q. by rewrite count_occ_cons_decide.
    + intros q Hq. apply lookup_lt_is_Some. rewrite length_insert.
      apply lookup_lt_is_Some, Hv. by right.
Qed.

(** The outer loop of the rollback over the slots from [length pre] on. *)
Lemma discard_released slots : ∀ pre s,
  transList (tm s) = pre ++ slots →
  (∀ p, p ∈ occurrences slots → is_Some (w_heap (world s) !! p)) →
  discard (length pre) slots s =
    Ret tt
      (mkSt (set_transList (pre ++ replicate (length slots) None) (tm s))
            (set_calls (w_calls (world s) ++
                        release_calls false (released (w_heap (world s)) (occurrences slots)))
               (set_heap (lower (count_occ Nat.eq_dec (occurrences slots))
                                (w_heap (world s))) (world s)))).
Proof.
  induction slots as [|[recs|] slots IH]; intros pre s Ht Hv.
  - cbn. unfold mret, Go_ret. rewrite lower_0, !app_nil_r in *.
    destruct s as [[] []]. st_simpl. by subst.
  - unfold occurrences in *. cbn [fmap list_fmap concat default from_option id] in *.
    cbn [discard]. rewrite bind_eq, discard_slot_released.
    2:{ intros p Hp. apply Hv. apply elem_of_app. by left. }
    rewrite bind_eq. unfold modify at 1.
    replace (S (length pre)) with (length (pre ++ [None (A:=list ptr)]))
      by (rewrite length_app; simpl; lia).
    rewrite IH.
    + st_simpl. rewrite released_app, lower_lower.
      2:{ intros p Hp. apply Hv. apply elem_of_app. by left. }
      rewrite (lower_ext (λ q, count_occ Nat.eq_dec recs q +
                               count_occ Nat.eq_dec (concat (default [] <$> slots)) q)
                 (count_occ Nat.eq_dec (recs ++ concat (default [] <$> slots))))
        by (intros q; by rewrite count_occ_app).
      unfold release_calls. rewrite fmap_app, !app_assoc. cbn [length replicate].
      rewrite <- (app_assoc pre). done.
    + st_simpl. rewrite Ht.
      rewrite insert_app_r_alt, Nat.sub_diag by lia. cbn. by rewrite <- app_assoc.
    + intros p Hp. st_simpl. rewrite lookup_lower.
      destruct (Hv p) as [r ->]; [|by eexists]. apply elem_of_app. by right.
  - unfold occurrences in *. cbn [fmap list_fmap concat default from_option id app] in *.
    cbn [discard].
    replace (S (length pre)) with (length (pre ++ [None (A:=list ptr)]))
      by (rewrite length_app; simpl; lia).
    rewrite IH; [|by rewrite Ht, <- app_assoc|done].
    f_equal. f_equal. cbn. by rewrite <- app_assoc.
Qed.

(** When no counter is below the number of slot entries of its record,
    the loop releases a record once, at the entry that takes its counter
    to zero, and it releases no other record. *)
Lemma released_spec recs : ∀ h,
  (∀ p, p ∈ recs →
     ∃ r, h !! p = Some r ∧ (Z.of_nat (count_occ Nat.eq_dec recs p) ≤ rec_transCount r)%Z) →
  NoDup (released h recs) ∧
  ∀ p, p ∈ released h recs ↔
       p ∈ recs ∧
       ∃ r, h !! p = Some r ∧ rec_transCount r = Z.of_nat (count_occ Nat.eq_dec recs p).
Proof.
  induction recs as [|q recs IH]; intros h Hinv.
  - cbn. split; [constructor|]. intros p. split; [by intros ?%elem_of_nil|].
    by intros [?%elem_of_nil _].
  - destruct (Hinv q) as (r & Hr & Hle); [left|].
    rewrite count_occ_cons_eq in Hle by done.
    cbn [released]. rewrite Hr.
    assert (Hq' : <[q := DecTransCount r]> h !! q = Some (DecTransCount r)).
    { apply list_lookup_insert_eq. by eapply lookup_lt_Some. }
    assert (Hinv' : ∀ p, p ∈ recs →
              ∃ r', <[q := DecTransCount r]> h !! p = Some r' ∧
                    (Z.of_nat (count_occ Nat.eq_dec recs p) ≤ rec_transCount r')%Z).
    { intros p Hp. destruct (decide (p = q)) as [->|Hne].
      - exists (DecTransCount r). split; [done|]. cbn. lia.
      - rewrite list_lookup_insert_ne by done.
        destruct (Hinv p) as (r' & Hr' & Hle'); [by right|].
        rewrite count_occ_cons_neq in Hle' by done. eauto. }
    destruct (IH _ Hinv') as [Hnd Hmem].
    assert (Hother : ∀ p, p ≠ q →
              (p ∈ released (<[q := DecTransCount r]> h) recs ↔
               p ∈ q :: recs ∧
               ∃ r0, h !! p = Some r0 ∧
                     rec_transCount r0 = Z.of_nat (count_occ Nat.eq_dec (q :: recs) p))).
    { intros p Hne. rewrite Hmem, list_lookup_insert_ne by done.
      rewrite count_occ_cons_neq by done. rewrite elem_of_cons. intuition congruence. }
    unfold InTransaction. case_bool_decide as Htc; cbn [rec_transCount DecTransCount] in Htc.
    + cbn [app]. split; [done|]. intros p.
      destruct (decide (p = q)) as [->|Hne]; [|by apply Hother].
      rewrite Hmem, Hq', Hr, count_occ_cons_eq by done. split.
      * intros (Hin & r' & [= <-] & Hc). cbn in Hc. split; [left|].
        exists r. split; [done|]. lia.
      * intros (_ & r' & [= <-] & Hc). split.
        -- apply list_elem_of_In, (count_occ_In Nat.eq_dec). lia.
        -- exists (DecTransCount r). split; [done|]. cbn. lia.
    + assert (Hc0 : count_occ Nat.eq_dec recs q = 0) by lia.
      assert (Hnin : q ∉ recs).
      { intros Hin. apply list_elem_of_In, (count_occ_In Nat.eq_dec) in Hin. lia. }
      cbn [app]. split.
      * apply NoDup_cons. split; [|done]. rewrite Hmem. intros [? _]; done.
      * intros p. rewrite elem_of_cons.
        destruct (decide (p = q)) as [->|Hne].
        -- split; [|by left]. intros _. split; [left|].
           exists r. split; [done|]. rewrite count_occ_cons_eq by done. lia.
        -- rewrite Hother by done. intuition congruence.
Qed.

(** *** A drain that fails *)

Lemma apply_rec_lower c h main ip : apply_rec (lower c h) main ip = apply_rec h main ip.
Proof. unfold apply_rec. rewrite lookup_lower. by destruct (h !! ip.2). Qed.

Lemma foldl_apply_rec_lower c h l : ∀ main,
  foldl (apply_rec (lower c h)) main l = foldl (apply_rec h) main l.
Proof.
  induction l as [|ip l IH]; intros main; [done|].
  cbn [foldl]. by rewrite apply_rec_lower, IH.
Qed.

(** The loop of [syncRecords] that counts the records down: it comes
    back whatever the owner answers, and at the first failure it has
    applied the records before it and no other. *)
Lemma syncRecords_loop_clear l : ∀ s,
  (∀ ip, ip ∈ l → is_Some (w_heap (world s) !! ip.2)) →
  ∃ err s',
    syncRecords_loop l true s = Ret err s' ∧
    tm s' = tm s ∧
    w_log (world s') = w_log (world s) ∧
    f_openWrite (world s') = f_openWrite (world s) ∧
    ∀ k e fs,
      f_writeRecord (world s) = replicate k None ++ Some e :: fs →
      k < length l →
      err = Some e ∧
      f_writeRecord (world s') = fs ∧
      w_main (world s') = foldl (apply_rec (w_heap (world s))) (w_main (world s)) (take k l).
Proof.
  induction l as [|[i p] l IH]; intros s Hv.
  - exists None, s. repeat split; try done; cbn in *; lia.
  - destruct (Hv (i, p)) as [r Hr]; [left|]. cbn [snd] in Hr.
    cbn [syncRecords_loop]. rewrite bind_eq.
    assert (Hcase : (∃ e fs, f_writeRecord (world s) = Some e :: fs) ∨
                    (∀ e fs, f_writeRecord (world s) ≠ Some e :: fs)).
    { destruct (f_writeRecord (world s)) as [|[e|] fs];
        [by right | left; eauto | by right]. }
    destruct Hcase as [(e & fs & Hf)|Hok].
    + rewrite (owner_writeRecord_fail p r e fs s Hr Hf).
      eexists _, _. split; [reflexivity|]. st_simpl. repeat split.
      * rewrite Hf in H. destruct k; cbn in H; congruence.
      * rewrite Hf in H. destruct k; cbn in H; congruence.
      * rewrite Hf in H. destruct k; cbn in H; [done|congruence].
    + rewrite (owner_writeRecord_ok p r s Hr) by done.
      rewrite !bind_eq. rewrite (update_Dec p r) by done. rewrite bind_eq.
      unfold deref at 1. st_simpl. rewrite lookup_lower, Hr. cbn [fmap option_fmap option_map].
      set (s2 := on_world _ (on_world _ s)).
      assert (∃ s3, (if negb (InTransaction
                (mkRec (rec_id r) (rec_data r) (rec_dirty r)
                   (rec_transCount r - Z.of_nat (if decide (p = p) then 1 else 0))))
              then owner_releaseInTrans p true else mret tt) s2 = Ret tt s3 ∧
              tm s3 = tm s ∧ w_log (world s3) = w_log (world s) ∧
              f_openWrite (world s3) = f_openWrite (world s) ∧
              w_heap (world s3) = lower (λ q, if decide (q = p) then 1 else 0)
                                        (w_heap (world s)) ∧
              w_main (world s3) = <[rec_id r := rec_data r]> (w_main (world s)) ∧
              f_writeRecord (world s3) = tail (f_writeRecord (world s)))
        as (s3 & -> & Ht3 & Hl3 & Ho3 & Hh3 & Hm3 & Hf3).
      { destruct (negb _); eexists; (split; [reflexivity|done]). }
      destruct (IH s3) as (err & s' & -> & Ht & Hl & Ho & Hstop).
      { intros ip Hip. rewrite Hh3, lookup_lower.
        destruct (Hv ip) as [r' ->]; [by right|]. by eexists. }
      exists err, s'. split; [done|]. split; [congruence|]. split; [congruence|].
      split; [congruence|]. intros k e fs Hf Hk.
      destruct k as [|k]; [by destruct (Hok _ _ Hf)|].
      destruct (Hstop k e fs) as (-> & Hfs & Hmain).
      { by rewrite Hf3, Hf. }
      { cbn in Hk. lia. }
      split; [done|]. split; [done|].
      rewrite Hmain, Hh3, Hm3, foldl_apply_rec_lower. cbn [take foldl].
      f_equal. unfold apply_rec. cbn [snd]. by rewrite Hr.
Qed.

Lemma syncLogFromMemory_nil s :
  logFile (tm s) = None → syncLogFromMemory s = Panic NilDereference.
Proof. intros H. unfold syncLogFromMemory. by rewrite bind_eq, close_nil. Qed.

Lemma syncLogFromDisk_nil s :
  logFile (tm s) = None → syncLogFromDisk s = Panic NilDereference.
Proof. intros H. unfold syncLogFromDisk. by rewrite bind_eq, close_nil. Qed.

Lemma commit_nil s : logFile (tm s) = None → ∃ k, commit s = Panic k.
Proof.
  intros H. unfold commit. rewrite bind_eq. unfold curSlot at 1.
  destruct (index _ _); [|by eexists].
  rewrite bind_eq, logFile_Write_nil by done. by eexists.
Qed.

(** *** Runs of transactions *)

(** What a client does between drains. *)
Inductive Op : Type :=
  | OpStart
  | OpAdd (record : ptr)
  | OpCommit.

#[global] Instance Op_eq_dec : EqDecision Op.
Proof. solve_decision. Defined.

Definition run_op (o : Op) : Go St unit :=
  match o with
  | OpStart => start
  | OpAdd record => add record
  | OpCommit => commit;; mret tt
  end.

Fixpoint run (ops : list Op) : Go St unit :=
  match ops with
  | [] => mret tt
  | o :: ops' => run_op o;; run ops'
  end.

(** The calls of [start] in a run. *)
Definition starts (ops : list Op) : nat := length (filter (λ o, o = OpStart) ops).

(** Every slot entry points at a record. *)
Definition slots_live (s : St) : Prop :=
  ∀ p, p ∈ occurrences (transList (tm s)) → p < length (w_heap (world s)).

Lemma elem_of_occurrences p slots :
  p ∈ occurrences slots ↔ ∃ i recs, slots !! i = Some (Some recs) ∧ p ∈ recs.
Proof.
  unfold occurrences. induction slots as [|sl slots IH].
  - cbn. split; [by intros ?%elem_of_nil|]. by intros (i & recs & ? & _).
  - cbn [fmap list_fmap concat]. rewrite elem_of_app, IH. split.
    + intros [Hp|(i & recs & Hi & Hp)].
      * destruct sl as [recs|]; [|by apply elem_of_nil in Hp]. by exists 0, recs.
      * by exists (S i), recs.
    + intros ([|i] & recs & Hi & Hp).
      * left. cbn in Hi. injection Hi as ->. done.
      * right. by exists i, recs.
Qed.

Lemma occurrences_insert slots i x p :
  p ∈ occurrences (<[i := Some x]> slots) → p ∈ occurrences slots ∨ p ∈ x.
Proof.
  rewrite !elem_of_occurrences. intros (j & recs & Hj & Hp).
  destruct (decide (i = j)) as [->|Hne].
  - rewrite list_lookup_insert_eq in Hj.
    + injection Hj as ->. by right.
    + apply lookup_lt_Some in Hj. by rewrite length_insert in Hj.
  - rewrite list_lookup_insert_ne in Hj by done. left. by exists j, recs.
Qed.

Lemma int64_wrap_small z : (- 2 ^ 63 ≤ z < 2 ^ 63)%Z → int64_wrap z = z.
Proof.
  intros Hz. unfold int64_wrap. destruct (decide (0 ≤ z)%Z).
  - rewrite Z.mod_small by lia. by rewrite decide_True by lia.
  - replace (z mod 2 ^ 64)%Z with (z + 2 ^ 64)%Z
      by (apply Z.mod_unique with (-1)%Z; lia).
    rewrite decide_False by lia. lia.
Qed.

(** [start] below the capacity: the next slot, and no drain. *)
Lemma start_below s :
  (-1 ≤ curTrans (tm s))%Z →
  (curTrans (tm s) + 1 < maxTrans (tm s))%Z →
  (maxTrans (tm s) < 2 ^ 63)%Z →
  start s = set_curSlot (Some []) (on_tm (set_curTrans (curTrans (tm s) + 1)) s).
Proof.
  intros Hlo Hhi Hmax. unfold start, modify, gets, mbind, mret, Go_bind, Go_ret.
  unfold on_tm. st_simpl. rewrite !int64_wrap_small by lia.
  rewrite decide_False by lia. done.
Qed.

(** [start] at the capacity: the drain, then slot 0. *)
Lemma start_full s :
  (-1 ≤ curTrans (tm s))%Z →
  (maxTrans (tm s) ≤ curTrans (tm s) + 1)%Z →
  (curTrans (tm s) + 1 < 2 ^ 63)%Z →
  start s = ((syncLogFromMemory;; modify (on_tm (set_curTrans 0)));; set_curSlot (Some []))
              (on_tm (set_curTrans (curTrans (tm s) + 1)) s).
Proof.
  intros Hlo Hhi Hmax. unfold start at 1.
  rewrite bind_eq. unfold modify at 1. rewrite bind_eq. unfold gets at 1.
  unfold on_tm. st_simpl. rewrite !int64_wrap_small by lia.
  rewrite decide_True by lia. done.
Qed.

(** One step of a run that stays below the capacity. *)
Lemma run_op_below o s s' :
  (-1 ≤ curTrans (tm s))%Z →
  (curTrans (tm s) + (if decide (o = OpStart) then 1 else 0) < maxTrans (tm s))%Z →
  (maxTrans (tm s) < 2 ^ 63)%Z →
  slots_live s →
  run_op o s = Ret tt s' →
  logFile (tm s') = logFile (tm s) ∧
  maxTrans (tm s') = maxTrans (tm s) ∧
  length (transList (tm s')) = length (transList (tm s)) ∧
  w_calls (world s') = w_calls (world s) ∧
  slots_live s' ∧
  curTrans (tm s') = (curTrans (tm s) + (if decide (o = OpStart) then 1 else 0))%Z.
Proof.
  intros Hlo Hhi Hmax Hlive Hrun. destruct o as [|p|]; cbn [run_op] in Hrun.
  - rewrite decide_True in * by done. rewrite start_below in Hrun by done.
    unfold set_curSlot in Hrun. st_simpl.
    destruct (index _ _) eqn:Hi; [|done]. injection Hrun as <-. st_simpl.
    rewrite length_insert. repeat split.
    intros q Hq. st_simpl. apply occurrences_insert in Hq as [Hq|Hq]; [by apply Hlive|].
    by apply elem_of_nil in Hq.
  - rewrite decide_False in * by done.
    destruct (w_heap (world s) !! p) as [r|] eqn:Hr; [|by rewrite add_nil in Hrun].
    destruct (index (transList (tm s)) (curTrans (tm s))) as [sl|] eqn:Hsl;
      [|by rewrite (add_out_of_range p r) in Hrun].
    rewrite (add_Ret p r sl) in Hrun by done. injection Hrun as <-. st_simpl.
    rewrite length_insert. repeat split; try lia.
    intros q Hq. st_simpl. rewrite length_insert.
    apply occurrences_insert in Hq as [Hq|Hq]; [by apply Hlive|].
    apply elem_of_app in Hq as [Hq|Hq].
    + apply Hlive, elem_of_occurrences. apply index_Some in Hsl as [_ Hsl].
      destruct sl as [recs|]; [|by apply elem_of_nil in Hq]. eauto.
    + apply list_elem_of_singleton in Hq as ->. by eapply lookup_lt_Some.
  - rewrite decide_False in * by done.
    rewrite bind_eq in Hrun. destruct (commit s) as [err s1| |] eqn:Hc; [|done|done].
    injection Hrun as <-.
    destruct (index (transList (tm s)) (curTrans (tm s))) as [sl|] eqn:Hsl.
    + pose proof (calm_commit s sl Hsl) as Hcalm. rewrite Hc in Hcalm.
      injection Hcalm as Ht Hh Hcalls. rewrite Ht. repeat split; try done; try lia.
      intros q Hq. rewrite Ht in Hq. rewrite Hh. by apply Hlive.
    + unfold commit in Hc. by rewrite bind_eq, (curSlot_Panic _ Hsl) in Hc.
Qed.

Lemma run_below ops : ∀ s s',
  (-1 ≤ curTrans (tm s))%Z →
  (curTrans (tm s) + Z.of_nat (starts ops) < maxTrans (tm s))%Z →
  (maxTrans (tm s) < 2 ^ 63)%Z →
  slots_live s →
  run ops s = Ret tt s' →
  logFile (tm s') = logFile (tm s) ∧
  maxTrans (tm s') = maxTrans (tm s) ∧
  length (transList (tm s')) = length (transList (tm s)) ∧
  w_calls (world s') = w_calls (world s) ∧
  slots_live s' ∧
  curTrans (tm s') = (curTrans (tm s) + Z.of_nat (starts ops))%Z.
Proof.
  induction ops as [|o ops IH]; intros s s' Hlo Hhi Hmax Hlive Hrun.
  - injection Hrun as <-. repeat split; [done|]. cbn. lia.
  - cbn [run] in Hrun. rewrite bind_eq in Hrun.
    destruct (run_op o s) as [[] s1| |] eqn:Hop; [|done|done].
    assert (Hst : starts (o :: ops) = (if decide (o = OpStart) then 1 else 0) + starts ops).
    { unfold starts. rewrite filter_cons. by case_decide. }
    rewrite Hst in *.
    destruct (run_op_below o s s1) as (Hl1 & Hm1 & Hn1 & Hc1 & Hv1 & Hk1);
      [done|case_decide; lia|done|done|done|].
    destruct (IH s1 s') as (Hl2 & Hm2 & Hn2 & Hc2 & Hv2 & Hk2);
      [case_decide; lia|rewrite Hk1, Hm1; case_decide; lia|by rewrite Hm1|done|done|].
    do 4 (split; [congruence|]). split; [done|].
    rewrite Hk2, Hk1. case_decide; lia.
Qed.

(** A drain on an open log over live records comes back, whatever the
    owner and the file system answer, and leaves every slot nil. *)
Lemma syncLogFromMemory_total s f :
  logFile (tm s) = Some f →
  slots_live s →
  ∃ err s',
    syncLogFromMemory s = Ret err s' ∧
    transList (tm s') = replicate (length (transList (tm s))) None.
Proof.
  intros Hf Hlive. unfold syncLogFromMemory. rewrite bind_eq, (close_open s f Hf).
  unfold gets at 1. rewrite bind_eq. st_simpl. rewrite bind_eq.
  rewrite (coalesce_scan (transList (tm s)) []); [|done|].
  2:{ intros p Hp. st_simpl. by apply lookup_lt_is_Some, Hlive. }
  st_simpl. rewrite bind_eq, syncRecords_eq. st_simpl.
  edestruct (syncRecords_loop_clear) as (err & s' & -> & Ht & _ & _ & _); last first.
  - st_simpl. destruct err as [e|].
    + eexists _, _. split; [reflexivity|]. by rewrite Ht.
    + rewrite bind_eq. unfold owner_Sync, modify.
      destruct (f_openWrite (world s')) as [e|] eqn:Ho.
      * rewrite (open_fail _ e) by done. eexists _, _. split; [reflexivity|]. st_simpl.
        by rewrite Ht.
      * rewrite open_ok by done. eexists _, _. split; [reflexivity|]. st_simpl.
        by rewrite Ht.
  - intros [i p] Hip. st_simpl. rewrite lookup_lower.
    rewrite range_order_perm in Hip. apply elem_of_map_to_list in Hip.
    rewrite scan_map_first_seen in Hip.
    apply head_Some_elem_of, list_elem_of_filter in Hip as [_ Hip].
    apply Hlive, lookup_lt_is_Some in Hip as [r Hr]. cbn [snd]. rewrite Hr. by eexists.
Qed.

End Proofs.

(** ** The properties at work *)

(** A manager of the default capacity over an open log, with the given
    first slots. *)
Definition demo_tm (cur : Z) (slots : list (option (list ptr))) : TransactionManager :=
  mkTM "db.tlg" (Some (OsFile "db.tlg")) cur
       (slots ++ replicate (DEFAULT_TRANS_IN_LOG - length slots) None)
       (Z.of_nat DEFAULT_TRANS_IN_LOG).

(** One record in an open transaction, and a disk that fails on the
    second write. *)
Definition demo_commit : St :=
  mkSt (demo_tm 0 [Some [0]])
       (mkWorld [mkRec 7 ["A"%byte] true 1] (Some TRANSACTION_LOG_HEADER) "db" ∅ [] [] 0
                None None [None; Some (ErrOS 28)] []).

Lemma commit_write_error_witness :
  ∃ s', commit demo_commit = Ret (Some (ErrOS 28)) s' ∧
        tm s' = tm demo_commit ∧
        w_heap (world s') = w_heap (world demo_commit) ∧
        index (transList (tm s')) (curTrans (tm s')) = Some (Some [0]).
Proof.
  apply (commit_write_error_keeps_transaction demo_commit (OsFile "db.tlg") (Some [0]) 1
           (ErrOS 28) []).
  - reflexivity.
  - reflexivity.
  - apply Forall_forall. repeat constructor. by eexists.
  - reflexivity.
  - simpl. lia.
Defined.

(** *** C2: a drain that fails *)

(** A full manager: the tenth slot holds record 7, and the owner will
    fail to write. *)
Definition demo_full : St :=
  mkSt (demo_tm 9 (replicate 9 (Some []) ++ [Some [0]]))
       (mkWorld [mkRec 7 ["A"%byte] false 1] (Some TRANSACTION_LOG_HEADER) "db" ∅ [] [] 0
                None None [] [Some (ErrOS 5)]).

(** The drain inside [start] fails; [start] comes back all the same,
    with slot 0 new and [logFile] nil, and the next operation of the
    caller, an [add], goes through. *)
Lemma start_swallows_drain_error :
  ∃ s1 s2 s3,
    syncLogFromMemory (on_tm (set_curTrans 10) demo_full) = Ret (Some (ErrOS 5)) s1 ∧
    start demo_full = Ret tt s2 ∧
    logFile (tm s2) = None ∧
    curTrans (tm s2) = 0%Z ∧
    add 0 s2 = Ret tt s3.
Proof.
  eexists _, _, _.
  split; [vm_compute; reflexivity|].
  split; [vm_compute; reflexivity|].
  split; [reflexivity|]. split; [reflexivity|].
  vm_compute; reflexivity.
Qed.

(** *** C3: a frame that cannot be applied *)

(** A log with one frame, one record in it, and what the owner will
    answer. *)
Definition demo_replay (fw : list (option error)) : St :=
  mkSt (demo_tm (-1) [])
       (mkWorld [] (Some (log_bytes [[(7%N, ["A"%byte])]])) "db" ∅ [] [] 0
                None None [] fw).

(** [syncRecords] returns the owner's error for the frame, and [recover]
    returns nil with nothing applied. *)
Lemma recover_swallows_apply_error :
  ∃ s1 s',
    syncRecords {[7%N := 0]} false
      (on_world (set_heap [new_record (7%N, ["A"%byte])]) (demo_replay [Some (ErrOS 5)]))
      = Ret (Some (ErrOS 5)) s1 ∧
    recover (demo_replay [Some (ErrOS 5)]) = Ret None s' ∧
    w_calls (world s') = [CallWriteRecord 0] ∧
    w_main (world s') = ∅.
Proof.
  eexists _, _.
  split; [vm_compute; reflexivity|].
  split; [vm_compute; reflexivity|].
  split; reflexivity.
Qed.

Lemma recover_drops_witness :
  ∃ err s1' s2',
    recover (demo_replay []) = Ret err s1' ∧
    recover (demo_replay [Some (ErrOS 5)]) = Ret err s2'.
Proof.
  apply (recover_drops_apply_errors (demo_replay []) (demo_replay [Some (ErrOS 5)]));
    reflexivity.
Defined.

(** *** C4: the same id twice in a frame *)

Definition demo_twice : St :=
  mkSt (demo_tm (-1) [])
       (calm_world [] (Some (log_bytes [[(5%N, ["X"%byte]); (5%N, ["Y"%byte])]]))).

Lemma recover_later_wins_witness :
  ∃ s', recover demo_twice = Ret None s' ∧
        ∀ i, w_main (world s') !! i =
               match last (filter (λ r, r.1 = i)
                             (concat [[(5%N, ["X"%byte]); (5%N, ["Y"%byte])]])) with
               | Some r => Some r.2
               | None => w_main (world demo_twice) !! i
               end.
Proof.
  apply (recover_later_wins demo_twice [[(5%N, ["X"%byte]); (5%N, ["Y"%byte])]]).
  - reflexivity.
  - reflexivity.
  - constructor.
  - repeat constructor; simpl; lia.
Defined.

(** The committed sequence [add(r=5,"X"); add(r=5,"Y")] writes that log,
    and its replay leaves id 5 as ["Y"]. *)
Example duplicate_within_frame :
  ∃ s1 s2,
    (start;; add 0;; add 1;; commit)
      (mkSt (demo_tm (-1) [])
            (calm_world [mkRec 5 ["X"%byte] true 0; mkRec 5 ["Y"%byte] true 0]
                        (Some TRANSACTION_LOG_HEADER))) = Ret None s1 ∧
    w_log (world s1) = w_log (world demo_twice) ∧
    recover demo_twice = Ret None s2 ∧
    w_main (world s2) = {[5%N := ["Y"%byte]]}.
Proof.
  eexists _, _.
  split; [vm_compute; reflexivity|].
  split; [vm_compute; reflexivity|].
  split; [vm_compute; reflexivity|].
  vm_compute; reflexivity.
Qed.

(** *** C5: one id in two slots *)

(** Two record objects share the id 5; the second and the first slot
    both hold the first of them. *)
Definition demo_coalesce : St :=
  mkSt (demo_tm 1 [Some [0; 1]; Some [1; 2; 0]])
       (calm_world [mkRec 5 ["X"%byte] false 2; mkRec 5 ["Y"%byte] false 2;
                    mkRec 9 ["Z"%byte] false 1]
                   (Some TRANSACTION_LOG_HEADER)).

(** The map keeps record 0 for id 5 and record 2 for id 9; record 0 is
    counted down once, record 1 twice, record 2 not at all. *)
Example coalesce_demo :
  ∃ s',
    coalesce 0 (transList (tm demo_coalesce)) ∅ demo_coalesce =
      Ret {[5%N := 0; 9%N := 2]} s' ∧
    rec_transCount <$> w_heap (world s') = [1%Z; 0%Z; 1%Z] ∧
    transList (tm s') = replicate 10 None.
Proof.
  eexists. split; [vm_compute; reflexivity|]. split; reflexivity.
Qed.

(** *** C6: construction over a missing log and over a bad one *)

Definition demo_bad_magic : World := calm_world [] (Some ["255"%byte; "255"%byte]).

Lemma construction_bad_magic_witness :
  ∃ w', NewTransactionManager true demo_bad_magic =
          Ret (Some (set_logFile (Some (OsFile (name (new_manager demo_bad_magic))))
                                 (new_manager demo_bad_magic)), None) w' ∧
        w_log w' = Some TRANSACTION_LOG_HEADER.
Proof.
  destruct (construction_tolerates_bad_magic demo_bad_magic) as (_ & Hbad & _).
  apply (Hbad (mkSt (new_manager demo_bad_magic) demo_bad_magic)).
  - reflexivity.
  - reflexivity.
  - intros e fs. discriminate.
Defined.

(** A log cut inside its first frame: the construction fails with the
    error of reading it; and no log at all: nothing to do. *)
Example construction_other_error :
  NewTransactionManager true
    (calm_world [] (Some (TRANSACTION_LOG_HEADER ++ ["001"%byte])))
  = Ret (None, Some ErrUnexpectedEOF)
        (calm_world [] (Some (TRANSACTION_LOG_HEADER ++ ["001"%byte]))) ∧
  recover (mkSt (new_manager (calm_world [] None)) (calm_world [] None))
  = Ret None (mkSt (new_manager (calm_world [] None)) (calm_world [] None)).
Proof. split; vm_compute; reflexivity. Qed.

(** *** C7: rollback *)

(** After [start; add(r=9,"Q"); commit; start; add(r=9,"R")]: the record
    is in two slots and holds ["R"], the log holds the frame with ["Q"]. *)
Definition demo_rollback : St :=
  mkSt (demo_tm 1 [Some [0]; Some [0]])
       (calm_world [mkRec 9 ["R"%byte] true 2]
                   (Some (log_bytes [[(9%N, ["Q"%byte])]]))).

(** The rollback as a whole: the main file holds ["Q"] for id 9, the
    slots are nil, the record is in no transaction and has been handed
    back once, and the log is open and empty again. *)
Example rollback_demo :
  ∃ s',
    syncLogFromDisk demo_rollback = Ret None s' ∧
    w_main (world s') = {[9%N := ["Q"%byte]]} ∧
    transList (tm s') = replicate 10 None ∧
    InTransaction <$> w_heap (world s') !! 0 = Some false ∧
    filter (λ c, c = CallReleaseInTrans 0 false) (w_calls (world s'))
      = [CallReleaseInTrans 0 false] ∧
    w_log (world s') = Some TRANSACTION_LOG_HEADER.
Proof.
  eexists. split; [vm_compute; reflexivity|]. repeat split; vm_compute; reflexivity.
Qed.

(** *** C9: close *)

Definition demo_open : St :=
  mkSt (demo_tm (-1) []) (calm_world [] (Some TRANSACTION_LOG_HEADER)).

(** The manager [close] has left. *)
Definition demo_closed : St :=
  mkSt (set_logFile None (demo_tm (-1) []))
       (set_fileCalls [FileSync; FileClose] (calm_world [] (Some TRANSACTION_LOG_HEADER))).

(** A second [close] does not come back. *)
Lemma close_twice_panics :
  close demo_open = Ret tt demo_closed ∧
  logFile (tm demo_closed) = None ∧
  close demo_closed = Panic NilDereference.
Proof. repeat split. Qed.

Lemma close_releases_witness :
  close demo_open =
    Ret tt (mkSt (set_logFile None (tm demo_open))
                 (set_fileCalls (w_fileCalls (world demo_open) ++ [FileSync; FileClose])
                                (world demo_open))).
Proof.
  destruct (close_releases_open_log demo_open) as [Hopen _].
  apply (Hopen (OsFile "db.tlg")). reflexivity.
Defined.

(** *** C10: add and commit before start *)

Lemma add_commit_witness :
  (commit demo_open = Panic IndexOutOfRange ∧
   ∀ p, is_Some (w_heap (world demo_open) !! p) → add p demo_open = Panic IndexOutOfRange) ∧
  (commit demo_rollback ≠ Panic IndexOutOfRange ∧
   ∀ p, add p demo_rollback ≠ Panic IndexOutOfRange).
Proof.
  split.
  - destruct (add_commit_need_open_transaction demo_open) as [Hfresh _].
    apply Hfresh. reflexivity.
  - destruct (add_commit_need_open_transaction demo_rollback) as [_ Hbuilding].
    apply Hbuilding. simpl. lia.
Defined.

(** A record added before any [start]. *)
Example add_before_start :
  add 0 (mkSt (demo_tm (-1) []) (calm_world [mkRec 7 ["A"%byte] true 0] None))
  = Panic IndexOutOfRange.
Proof. reflexivity. Qed.

(** *** C8: the drain at capacity *)

(** A new manager of capacity 3 and three records. *)
Definition demo_three : St :=
  mkSt (mkTM "db.tlg" (Some (OsFile "db.tlg")) (-1) [None; None; None] 3)
       (calm_world [mkRec 1 ["a"%byte] true 0; mkRec 2 ["b"%byte] true 0;
                    mkRec 3 ["c"%byte] true 0]
                   (Some TRANSACTION_LOG_HEADER)).

Definition three_cycles : list Op :=
  [OpStart; OpAdd 0; OpCommit; OpStart; OpAdd 1; OpCommit; OpStart; OpAdd 2; OpCommit].

(** Three cycles with the ids 1, 2, 3 and a fourth [start]: the main
    file holds all three, the log is empty again but for its header, and
    [curTrans] is 0. *)
Example drain_at_capacity :
  ∃ s',
    (run three_cycles;; start) demo_three = Ret tt s' ∧
    w_main (world s') = {[1%N := ["a"%byte]; 2%N := ["b"%byte]; 3%N := ["c"%byte]]} ∧
    w_log (world s') = Some TRANSACTION_LOG_HEADER ∧
    curTrans (tm s') = 0%Z ∧
    transList (tm s') = [Some []; None; None].
Proof.
  eexists. split; [vm_compute; reflexivity|]. repeat split; vm_compute; reflexivity.
Qed.

(** *** Commit, crash, restart *)

(** [start; add(r=7,"A"); commit; close], and then a new manager over
    what is left on disk: the main file holds ["A"] for id 7 and the log
    is back to its header. *)
Example commit_then_recover :
  ∃ s1 t w2,
    (start;; add 0;; commit;; close)
      (mkSt (demo_tm (-1) [])
            (calm_world [mkRec 7 ["A"%byte] true 0] (Some TRANSACTION_LOG_HEADER)))
      = Ret tt s1 ∧
    NewTransactionManager true (world s1) = Ret (Some t, None) w2 ∧
    w_main w2 = {[7%N := ["A"%byte]]} ∧
    w_log w2 = Some TRANSACTION_LOG_HEADER.
Proof.
  eexists _, _, _.
  split; [vm_compute; reflexivity|].
  split; [vm_compute; reflexivity|].
  split; vm_compute; reflexivity.
Qed.

(** ** What every operation keeps *)

Section Keeps.
Context `{Codec : RecordCodec} `{Order : MapOrder}.

(** Every result of [m] is related to the state it started from. *)
Definition respects {A} (R : St → St → Prop) (m : Go St A) : Prop :=
  ∀ s a s', m s = Ret a s' → R s s'.

Lemma respects_ret {A} R `{!Reflexive R} (a : A) : respects R (mret a).
Proof. intros s a' s' [= _ <-]. reflexivity. Qed.

Lemma respects_gets {A} R `{!Reflexive R} (f : St → A) : respects R (gets f).
Proof. intros s a' s' [= _ <-]. reflexivity. Qed.

Lemma respects_bind {A B} R `{!Transitive R} (m : Go St A) (f : A → Go St B) :
  respects R m → (∀ a, respects R (f a)) → respects R (m ≫= f).
Proof.
  intros Hm Hf s b s' H. rewrite bind_eq in H.
  destruct (m s) as [a s1| |] eqn:E; [|done|done].
  etransitivity; [by eapply Hm|by eapply Hf].
Qed.

Lemma respects_modify R (f : St → St) : (∀ s, R s (f s)) → respects R (modify f).
Proof. intros Hf s a s' H. unfold modify in H. injection H as <- <-. apply Hf. Qed.

(** A primitive step, by cases on what it reads. *)
Ltac by_cases :=
  let H := fresh "H" in
  intros ? ? ? H;
  unfold deref, curSlot, set_curSlot, logFile_Write, logFile_Sync, logFile_Close,
    owner_releaseInTrans, owner_Sync, modify, gets in H;
  repeat (case_match; try done);
  injection H as <- <- || injection H as <-.

(** What no operation but [start] changes in the manager, the slots'
    contents and the log handle apart: its name, its capacity and the
    number of its slots stay, and [curTrans] stays or goes back to -1.
    And what none changes in a record: its id and its image. *)
Definition settled (s s' : St) : Prop :=
  name (tm s') = name (tm s) ∧
  maxTrans (tm s') = maxTrans (tm s) ∧
  length (transList (tm s')) = length (transList (tm s)) ∧
  (curTrans (tm s') = curTrans (tm s) ∨ curTrans (tm s') = (-1)%Z) ∧
  ∀ p r, w_heap (world s) !! p = Some r →
         ∃ r', w_heap (world s') !! p = Some r' ∧
               rec_id r' = rec_id r ∧ rec_data r' = rec_data r.

#[local] Instance settled_refl : Reflexive settled.
Proof. intros s. repeat split; [by left|]. intros p r Hr. by exists r. Qed.
#[local] Instance settled_trans : Transitive settled.
Proof.
  intros s1 s2 s3 (?&?&?&Hc1&Hh1) (?&?&?&Hc2&Hh2).
  split; [congruence|]. split; [congruence|]. split; [congruence|]. split.
  - destruct Hc1, Hc2; [left|right|right|right]; congruence.
  - intros p r Hr. destruct (Hh1 p r Hr) as (r1 & Hr1 & ? & ?).
    destruct (Hh2 p r1 Hr1) as (r2 & Hr2 & ? & ?). exists r2. split; [done|]. split; congruence.
Qed.

Lemma settled_bind {A B} (m : Go St A) (f : A → Go St B) :
  respects settled m → (∀ a, respects settled (f a)) → respects settled (m ≫= f).
Proof. apply respects_bind, _. Qed.

Lemma settled_ret {A} (a : A) : respects settled (mret a).
Proof. apply respects_ret, _. Qed.

Lemma settled_gets {A} (f : St → A) : respects settled (gets f).
Proof. apply respects_gets, _. Qed.

(** A step that leaves the record objects alone. *)
Lemma settled_same_heap s s' :
  name (tm s') = name (tm s) →
  maxTrans (tm s') = maxTrans (tm s) →
  length (transList (tm s')) = length (transList (tm s)) →
  (curTrans (tm s') = curTrans (tm s) ∨ curTrans (tm s') = (-1)%Z) →
  w_heap (world s') = w_heap (world s) →
  settled s s'.
Proof. intros ? ? ? ? Hh. repeat split; try done. intros p r Hr. exists r. by rewrite Hh. Qed.

Lemma settled_on_world f s :
  w_heap (f (world s)) = w_heap (world s) → settled s (on_world f s).
Proof. intros Hh. apply settled_same_heap; try done. by left. Qed.

Lemma settled_deref p : respects settled (deref p).
Proof. by_cases. reflexivity. Qed.

(** The methods of a record the manager calls keep its id and image. *)
Lemma settled_update g p :
  (∀ r, rec_id (g r) = rec_id r ∧ rec_data (g r) = rec_data r) →
  respects settled (update g p).
Proof.
  intros Hg s a s' H. unfold update, deref, modify, mbind, Go_bind in H.
  destruct (w_heap (world s) !! p) as [r|] eqn:Hr; [|done]. injection H as _ <-.
  repeat split; [by left|]. st_simpl. intros q rq Hq.
  destruct (decide (q = p)) as [->|Hne].
  - rewrite list_lookup_insert_eq by (by eapply lookup_lt_Some).
    exists (g r). split; [done|]. rewrite Hr in Hq. injection Hq as <-. apply Hg.
  - rewrite list_lookup_insert_ne by done. by exists rq.
Qed.

Lemma settled_curSlot : respects settled curSlot.
Proof. by_cases. reflexivity. Qed.

Lemma settled_set_curSlot x : respects settled (set_curSlot x).
Proof.
  by_cases. apply settled_same_heap; st_simpl; try done; [by rewrite length_insert|by left].
Qed.

Lemma settled_logFile_Write bs : respects settled (logFile_Write bs).
Proof. by_cases; by apply settled_on_world. Qed.

Lemma settled_logFile_Sync : respects settled logFile_Sync.
Proof. by_cases. by apply settled_on_world. Qed.

Lemma settled_logFile_Close : respects settled logFile_Close.
Proof. by_cases. by apply settled_on_world. Qed.

Lemma settled_close : respects settled close.
Proof.
  unfold close, syncFile.
  apply settled_bind; [apply settled_logFile_Sync|]. intros _.
  apply settled_bind; [apply settled_logFile_Close|]. intros _.
  apply respects_modify. intros s. apply settled_same_heap; try done. by left.
Qed.

Lemma settled_open : respects settled open.
Proof.
  unfold open. apply settled_bind; [apply settled_gets|]. intros w.
  destruct (f_openWrite w); [apply settled_ret|].
  apply settled_bind; [apply respects_modify; intros s; by apply settled_on_world|]. intros _.
  apply settled_bind;
    [apply respects_modify; intros s; apply settled_same_heap; try done; by left|].
  intros _.
  apply settled_bind; [apply settled_logFile_Write|]. intros _.
  apply settled_bind; [apply settled_logFile_Sync|]. intros _.
  apply settled_bind; [|intros _; apply settled_ret].
  apply respects_modify. intros s. apply settled_same_heap; try done. by right.
Qed.

Lemma settled_WriteRecord p : respects settled (WriteRecord p).
Proof.
  unfold WriteRecord.
  apply settled_bind; [apply settled_deref|]. intros r. apply settled_logFile_Write.
Qed.

Lemma settled_commit_write recs : respects settled (commit_write recs).
Proof.
  induction recs as [|p recs IH]; [apply settled_ret|].
  cbn [commit_write]. apply settled_bind; [apply settled_WriteRecord|].
  intros [e|]; [apply settled_ret|done].
Qed.

Lemma settled_commit_clear recs : respects settled (commit_clear recs).
Proof.
  induction recs as [|p recs IH]; [apply settled_ret|].
  cbn [commit_clear]. apply settled_bind; [by apply settled_update|]. by intros _.
Qed.

Lemma settled_commit : respects settled commit.
Proof.
  unfold commit. apply settled_bind; [apply settled_curSlot|]. intros sl.
  apply settled_bind; [apply settled_logFile_Write|]. intros [e|]; [apply settled_ret|].
  apply settled_bind; [apply settled_curSlot|]. intros sl2.
  apply settled_bind; [apply settled_commit_write|]. intros [e|]; [apply settled_ret|].
  apply settled_bind; [apply settled_logFile_Sync|]. intros _.
  apply settled_bind; [apply settled_curSlot|]. intros sl3.
  apply settled_bind; [apply settled_commit_clear|]. intros _. apply settled_ret.
Qed.

Lemma settled_add p : respects settled (add p).
Proof.
  unfold add. apply settled_bind; [by apply settled_update|]. intros _.
  apply settled_bind; [apply settled_curSlot|]. intros sl. apply settled_set_curSlot.
Qed.

Lemma settled_owner_writeRecord p : respects settled (owner_writeRecord p).
Proof.
  intros s a s' H.
  unfold owner_writeRecord, deref, gets, modify, mbind, mret, Go_bind, Go_ret in H.
  destruct (w_heap (world s) !! p); [|done].
  destruct (f_writeRecord (world s)) as [|[e|] fs]; injection H as _ <-;
    (apply settled_same_heap; try done; by left).
Qed.

Lemma settled_owner_releaseInTrans p d : respects settled (owner_releaseInTrans p d).
Proof.
  unfold owner_releaseInTrans. apply respects_modify. intros s. by apply settled_on_world.
Qed.

Lemma settled_syncRecords_loop l clear : respects settled (syncRecords_loop l clear).
Proof.
  induction l as [|[i p] l IH]; [apply settled_ret|].
  cbn [syncRecords_loop]. apply settled_bind; [apply settled_owner_writeRecord|].
  intros [e|]; [apply settled_ret|].
  apply settled_bind; [|by intros _].
  destruct clear; [|apply settled_ret].
  apply settled_bind; [by apply settled_update|]. intros _.
  apply settled_bind; [apply settled_deref|]. intros r.
  destruct (negb _); [apply settled_owner_releaseInTrans|apply settled_ret].
Qed.

Lemma settled_syncRecords m clear : respects settled (syncRecords m clear).
Proof.
  unfold syncRecords. apply settled_bind; [apply settled_gets|]. intros k.
  apply settled_bind; [apply respects_modify; intros s; by apply settled_on_world|].
  intros _. apply settled_syncRecords_loop.
Qed.

Lemma settled_clear_slot i :
  respects settled (modify (on_tm (λ t, set_transList (<[i := None]> (transList t)) t))).
Proof.
  apply respects_modify. intros s.
  apply settled_same_heap; st_simpl; try done; [by rewrite length_insert|by left].
Qed.

Lemma settled_coalesce_slot recs : ∀ m, respects settled (coalesce_slot recs m).
Proof.
  induction recs as [|p recs IH]; intros m; [apply settled_ret|].
  cbn [coalesce_slot]. apply settled_bind; [apply settled_deref|]. intros r.
  destruct (m !! Id r); [|done].
  apply settled_bind; [by apply settled_update|]. by intros _.
Qed.

Lemma settled_coalesce slots : ∀ i m, respects settled (coalesce i slots m).
Proof.
  induction slots as [|[recs|] slots IH]; intros i m;
    [apply settled_ret| |cbn [coalesce]; apply IH].
  cbn [coalesce]. apply settled_bind; [apply settled_coalesce_slot|]. intros m'.
  apply settled_bind; [apply settled_clear_slot|]. intros _. apply IH.
Qed.

Lemma settled_syncLogFromMemory : respects settled syncLogFromMemory.
Proof.
  unfold syncLogFromMemory. apply settled_bind; [apply settled_close|]. intros _.
  apply settled_bind; [apply settled_gets|]. intros slots.
  apply settled_bind; [apply settled_coalesce|]. intros m.
  apply settled_bind; [apply settled_syncRecords|]. intros [e|]; [apply settled_ret|].
  apply settled_bind;
    [unfold owner_Sync; apply respects_modify; intros s; by apply settled_on_world|].
  intros _. apply settled_open.
Qed.

Lemma settled_discard_slot recs : respects settled (discard_slot recs).
Proof.
  induction recs as [|p recs IH]; [apply settled_ret|].
  cbn [discard_slot]. apply settled_bind; [by apply settled_update|]. intros _.
  apply settled_bind; [apply settled_deref|]. intros r.
  apply settled_bind; [|by intros _].
  destruct (negb _); [apply settled_owner_releaseInTrans|apply settled_ret].
Qed.

Lemma settled_discard slots : ∀ i, respects settled (discard i slots).
Proof.
  induction slots as [|[recs|] slots IH]; intros i;
    [apply settled_ret| |cbn [discard]; apply IH].
  cbn [discard]. apply settled_bind; [apply settled_discard_slot|]. intros _.
  apply settled_bind; [apply settled_clear_slot|]. intros _. apply IH.
Qed.

Lemma settled_recover : respects settled recover.
Proof.
  intros s a s' Hrec. destruct (recover_eq s) as (s1 & H1 & Hu).
  rewrite Hrec in H1. injection H1 as _ <-.
  destruct Hu as (Ht & _ & _ & _ & _ & _ & _ & ext & Hh).
  repeat split; try (by rewrite Ht); [left; by rewrite Ht|].
  intros p r Hr. exists r. split; [|done]. rewrite Hh. by apply lookup_app_l_Some.
Qed.

Lemma settled_syncLogFromDisk : respects settled syncLogFromDisk.
Proof.
  unfold syncLogFromDisk. apply settled_bind; [apply settled_close|]. intros _.
  apply settled_bind; [apply settled_gets|]. intros slots.
  apply settled_bind; [apply settled_discard|]. intros _.
  apply settled_bind; [apply settled_recover|]. intros [e|]; [apply settled_ret|].
  apply settled_open.
Qed.


(** *** The manager's invariant *)

(** What a caller can ask of a manager. *)
Inductive Request : Type :=
  | DoStart
  | DoAdd (record : ptr)
  | DoCommit
  | DoRollback
  | DoDrain
  | DoClose
  | DoOpen
  | DoRecover.

Definition perform (q : Request) : Go St (option error) :=
  match q with
  | DoStart => start;; mret None
  | DoAdd record => add record;; mret None
  | DoCommit => commit
  | DoRollback => syncLogFromDisk
  | DoDrain => syncLogFromMemory
  | DoClose => close;; mret None
  | DoOpen => open
  | DoRecover => recover
  end.

(** A sequence of requests; what they return is the caller's business. *)
Fixpoint serve (qs : list Request) : Go St unit :=
  match qs with
  | [] => mret tt
  | q :: qs' => perform q;; serve qs'
  end.

(** A capacity that is a positive Go [int] and has its slots, and
    [curTrans] at a slot below the capacity or at -1. *)
Definition tm_ok (t : TransactionManager) : Prop :=
  (0 < maxTrans t < 2 ^ 63)%Z ∧
  (maxTrans t ≤ Z.of_nat (length (transList t)))%Z ∧
  (-1 ≤ curTrans t < maxTrans t)%Z.

Lemma settled_tm_ok s s' : settled s s' → tm_ok (tm s) → tm_ok (tm s').
Proof.
  intros (_ & Hm & Hl & Hc & _) (? & ? & ?). unfold tm_ok. rewrite Hm, Hl.
  destruct Hc as [-> | ->]; repeat split; lia.
Qed.

Lemma start_tm_ok s s' :
  tm_ok (tm s) → start s = Ret tt s' →
  tm_ok (tm s') ∧ (0 ≤ curTrans (tm s'))%Z ∧
  name (tm s') = name (tm s) ∧
  maxTrans (tm s') = maxTrans (tm s) ∧
  length (transList (tm s')) = length (transList (tm s)).
Proof.
  intros (Hmax & Hlen & Hcur) Hst.
  destruct (decide (curTrans (tm s) + 1 < maxTrans (tm s))%Z) as [Hlt|Hge].
  - rewrite start_below in Hst by lia. unfold set_curSlot in Hst.
    destruct (index _ _); [|done]. injection Hst as <-. st_simpl.
    unfold tm_ok. st_simpl. rewrite length_insert. repeat split; lia.
  - rewrite start_full in Hst by lia. rewrite !bind_eq in Hst.
    destruct (syncLogFromMemory _) as [err sd| |] eqn:Hd; [|done|done].
    apply settled_syncLogFromMemory in Hd as (Hn & Hm & Hl & _ & _). st_simpl.
    unfold modify, set_curSlot in Hst. st_simpl.
    destruct (index _ _); [|done]. injection Hst as <-. st_simpl.
    unfold tm_ok. st_simpl. rewrite length_insert, Hm, Hl. repeat split; try done; lia.
Qed.

Lemma perform_tm_ok q s a s' :
  tm_ok (tm s) → perform q s = Ret a s' →
  tm_ok (tm s') ∧
  name (tm s') = name (tm s) ∧
  maxTrans (tm s') = maxTrans (tm s) ∧
  length (transList (tm s')) = length (transList (tm s)).
Proof.
  intros Hok Hq.
  assert (Hset : ∀ (m : Go St (option error)),
            respects settled m → m s = Ret a s' →
            tm_ok (tm s') ∧ name (tm s') = name (tm s) ∧
            maxTrans (tm s') = maxTrans (tm s) ∧
            length (transList (tm s')) = length (transList (tm s))).
  { intros m Hm Hr. apply Hm in Hr. split; [by eapply settled_tm_ok|].
    by destruct Hr as (? & ? & ? & _ & _). }
  destruct q as [|p| | | | | |]; cbn [perform] in Hq.
  - rewrite bind_eq in Hq. destruct (start s) as [[] s1| |] eqn:Hst; [|done|done].
    injection Hq as _ <-. by destruct (start_tm_ok s s1) as (? & _ & ? & ? & ?).
  - apply (Hset (add p;; mret None)); [|done].
    apply settled_bind; [apply settled_add|intros _; apply settled_ret].
  - by apply (Hset commit); [apply settled_commit|].
  - by apply (Hset syncLogFromDisk); [apply settled_syncLogFromDisk|].
  - by apply (Hset syncLogFromMemory); [apply settled_syncLogFromMemory|].
  - apply (Hset (close;; mret None)); [|done].
    apply settled_bind; [apply settled_close|intros _; apply settled_ret].
  - by apply (Hset open); [apply settled_open|].
  - by apply (Hset recover); [apply settled_recover|].
Qed.

(** X1.  Whatever a caller asks of a manager, in any order and with
    whatever the file system and the owner answer: when the requests
    come back, the manager has its name, its capacity and the number of
    its slots, and [curTrans] is at -1 or at a slot below the capacity. *)
Theorem manager_invariant qs : ∀ s s',
  tm_ok (tm s) →
  serve qs s = Ret tt s' →
  tm_ok (tm s') ∧
  name (tm s') = name (tm s) ∧
  maxTrans (tm s') = maxTrans (tm s) ∧
  length (transList (tm s')) = length (transList (tm s)).
Proof.
  induction qs as [|q qs IH]; intros s s' Hok Hrun.
  - by injection Hrun as <-.
  - cbn [serve] in Hrun. rewrite bind_eq in Hrun.
    destruct (perform q s) as [a s1| |] eqn:Hq; [|done|done].
    destruct (perform_tm_ok q s a s1 Hok Hq) as (Hok1 & Hn1 & Hm1 & Hl1).
    destruct (IH s1 s' Hok1 Hrun) as (Hok' & Hn' & Hm' & Hl').
    repeat split; try congruence; apply Hok'.
Qed.

(** *** The records under a manager *)

(** Every record that was there is there, with its id and its image. *)
Definition imaged (s s' : St) : Prop :=
  ∀ p r, w_heap (world s) !! p = Some r →
         ∃ r', w_heap (world s') !! p = Some r' ∧
               rec_id r' = rec_id r ∧ rec_data r' = rec_data r.

Lemma settled_imaged s s' : settled s s' → imaged s s'.
Proof. by intros (_ & _ & _ & _ & H). Qed.

Lemma start_imaged s s' : start s = Ret tt s' → imaged s s'.
Proof.
  unfold start. rewrite bind_eq. unfold modify at 1. rewrite bind_eq. unfold gets at 1.
  set (s0 := on_tm _ s). rewrite bind_eq. intros Hst.
  assert (Hset : ∀ s1, imaged s s1 → set_curSlot (Some []) s1 = Ret tt s' → imaged s s').
  { intros s1 H1 Hs. apply settled_set_curSlot, settled_imaged in Hs.
    intros p r Hr. destruct (H1 p r Hr) as (r1 & Hr1 & ? & ?).
    destruct (Hs p r1 Hr1) as (r2 & Hr2 & ? & ?). exists r2. split; [done|].
    split; congruence. }
  case_decide.
  - rewrite bind_eq in Hst.
    destruct (syncLogFromMemory s0) as [err sd| |] eqn:Hd; [|done|done].
    apply settled_syncLogFromMemory, settled_imaged in Hd. unfold modify in Hst.
    by apply (Hset (on_tm (set_curTrans 0) sd)).
  - unfold mret at 1, Go_ret at 1 in Hst. apply (Hset s0); [|done].
    intros p r Hr. by exists r.
Qed.

(** X2.  No request changes the id or the image of a record.  Whatever
    a caller asks of a manager, in any order and with whatever the file
    system and the owner answer: when the requests come back, every
    record object that was there is there, with its id and its image;
    the manager moves counters and dirty flags and nothing else of a
    record. *)
Theorem records_keep_id_and_image qs : ∀ s s' p r,
  serve qs s = Ret tt s' →
  w_heap (world s) !! p = Some r →
  ∃ r', w_heap (world s') !! p = Some r' ∧
        rec_id r' = rec_id r ∧ rec_data r' = rec_data r.
Proof.
  induction qs as [|q qs IH]; intros s s' p r Hrun Hr.
  - injection Hrun as <-. by exists r.
  - cbn [serve] in Hrun. rewrite bind_eq in Hrun.
    destruct (perform q s) as [a s1| |] eqn:Hq; [|done|done].
    assert (H1 : imaged s s1).
    { destruct q as [|x| | | | | |]; cbn [perform] in Hq.
      - rewrite bind_eq in Hq. destruct (start s) as [[] s2| |] eqn:Hst; [|done|done].
        injection Hq as _ <-. by apply start_imaged.
      - apply settled_imaged.
        apply (settled_bind (add x) (λ _, mret None)) in Hq;
          [done|apply settled_add|intros _; apply settled_ret].
      - by apply settled_commit, settled_imaged in Hq.
      - by apply settled_syncLogFromDisk, settled_imaged in Hq.
      - by apply settled_syncLogFromMemory, settled_imaged in Hq.
      - apply settled_imaged.
        apply (settled_bind close (λ _, mret None)) in Hq;
          [done|apply settled_close|intros _; apply settled_ret].
      - by apply settled_open, settled_imaged in Hq.
      - by apply settled_recover, settled_imaged in Hq. }
    destruct (H1 p r Hr) as (r1 & Hr1 & ? & ?).
    destruct (IH s1 s' p r1 Hrun Hr1) as (r2 & Hr2 & ? & ?).
    exists r2. split; [done|]. split; congruence.
Qed.

End Keeps.


(** ** More on recovery *)

Section Recovery.
Context `{Codec : RecordCodec} `{Order : MapOrder}.

(** The frames at the head of a file are replayed one by one, and the
    loop goes on with what follows them. *)
Lemma recover_loop_frames_then frames : ∀ fuel rest s,
  quiet (f_writeRecord (world s)) →
  Forall (λ rs, (Z.of_nat (length rs) < 2 ^ 63)%Z ∧
                Forall (λ r, record_ok r.1 r.2) rs) frames →
  ∃ s1,
    recover_loop (length frames + fuel) (concat (frame_bytes <$> frames) ++ rest) s =
      recover_loop fuel rest s1 ∧
    w_main (world s1) = foldl put_rec (w_main (world s)) (concat frames) ∧
    quiet (f_writeRecord (world s1)) ∧
    untouched s s1.
Proof.
  induction frames as [|rs frames IH]; intros fuel rest s Hq Hok.
  - exists s. repeat split; try done. apply untouched_refl.
  - apply Forall_cons in Hok as [[Hlen Hrs] Hok].
    cbn [length Nat.add fmap list_fmap concat recover_loop]. unfold frame_bytes at 1.
    rewrite <- !app_assoc, binary_Read_int64_le by lia.
    rewrite Nat2Z.id, bind_eq, recover_frame_parse, parse_frame_bytes by done.
    cbn [fst snd]. rewrite bind_eq, syncRecords_eq.
    edestruct (syncRecords_loop_replay) as (err & s3 & -> & Hu3 & Hh3 & Hq3); last first.
    + st_simpl. destruct (Hq3 Hq) as (_ & Hq' & Hmain).
      destruct (IH fuel rest s3) as (s1 & -> & Hmain1 & Hq1 & Hu1); [done|done|].
      exists s1. split; [done|]. split; [|split; [done|]].
      * rewrite Hmain1, Hmain, foldl_app. f_equal.
        rewrite (foldl_apply_rec_rel _ (frame_map (length (w_heap (world s))) rs ∅)
                   (foldl put_rec ∅ rs)).
        -- by rewrite <- foldl_put_rec_union.
        -- apply frame_map_rel, frame_rel_empty.
        -- apply range_order_perm.
      * eapply untouched_trans; [|exact Hu1]. eapply untouched_trans; [|exact Hu3].
        repeat split. st_simpl. by eexists.
    + intros ip Hip. st_simpl. eapply range_order_valid; [|exact Hip].
      by rewrite length_app, length_fmap.
Qed.

Lemma frames_length_le frames :
  length frames ≤ length (concat (frame_bytes <$> frames)).
Proof.
  induction frames as [|rs frames IH]; [cbn; lia|].
  cbn [fmap list_fmap concat length]. rewrite length_app. unfold frame_bytes at 1.
  rewrite length_app. unfold int64_le. rewrite length_le_bytes. lia.
Qed.

(** Fuel above the length of the file is as good as any. *)
Lemma recover_loop_fuel fuel1 : ∀ fuel2 file s,
  length file < fuel1 → length file < fuel2 →
  recover_loop fuel1 file s = recover_loop fuel2 file s.
Proof.
  induction fuel1 as [|fuel1 IH]; intros fuel2 file s H1 H2; [lia|].
  destruct fuel2 as [|fuel2]; [lia|]. cbn [recover_loop].
  destruct (binary_Read_int64 file) as [e|[n file1]] eqn:Hrd; [done|].
  apply binary_Read_int64_inr in Hrd as [-> Hlen].
  rewrite !bind_eq, recover_frame_parse.
  destruct (parse_frame (Z.to_nat n) (drop 8 file)) as [rs [e|file2]] eqn:Hpf;
    cbn [fst snd]; [done|].
  rewrite !bind_eq. destruct (syncRecords _ _ _) as [err s3| |]; [|done|done].
  pose proof (parse_frame_rest (Z.to_nat n) (drop 8 file) file2) as Hr.
  rewrite Hpf in Hr. specialize (Hr eq_refl). rewrite length_drop in Hr.
  apply IH; lia.
Qed.

(** [recover] on a log that starts with the header and whole frames. *)
Lemma recover_frames_then s frames rest :
  w_log (world s) = Some (log_bytes frames ++ rest) →
  f_openRead (world s) = None →
  quiet (f_writeRecord (world s)) →
  Forall (λ rs, (Z.of_nat (length rs) < 2 ^ 63)%Z ∧
                Forall (λ r, record_ok r.1 r.2) rs) frames →
  ∃ s1,
    recover s = recover_loop (S (length rest)) rest s1 ∧
    w_main (world s1) = foldl put_rec (w_main (world s)) (concat frames) ∧
    quiet (f_writeRecord (world s1)) ∧
    untouched s s1.
Proof.
  intros Hlog Hopen Hq Hok.
  unfold recover, gets. rewrite bind_eq, Hlog, Hopen. cbv zeta.
  unfold log_bytes. rewrite <- app_assoc.
  cbn [TRANSACTION_LOG_HEADER app take drop length replicate Nat.sub].
  rewrite decide_False by (intros [H|[H|H]]; by apply H). rewrite drop_0.
  pose proof (frames_length_le frames) as Hle.
  set (big := S (S (S (length (concat (frame_bytes <$> frames) ++ rest))))).
  destruct (recover_loop_frames_then frames (big - length frames) rest s Hq Hok)
    as (s1 & Hrun & Hmain & Hq1 & Hu).
  assert (Hbig : length frames + (big - length frames) = big).
  { unfold big. rewrite length_app. lia. }
  rewrite Hbig in Hrun. exists s1. split; [|done]. rewrite Hrun.
  apply recover_loop_fuel; [|lia]. unfold big. rewrite length_app. lia.
Qed.

(** Replay of whole frames, with what it leaves. *)
Lemma recover_frames s frames :
  w_log (world s) = Some (log_bytes frames) →
  f_openRead (world s) = None →
  quiet (f_writeRecord (world s)) →
  Forall (λ rs, (Z.of_nat (length rs) < 2 ^ 63)%Z ∧
                Forall (λ r, record_ok r.1 r.2) rs) frames →
  ∃ s1,
    recover s = Ret None s1 ∧
    w_main (world s1) = foldl put_rec (w_main (world s)) (concat frames) ∧
    quiet (f_writeRecord (world s1)) ∧
    untouched s s1.
Proof.
  intros Hlog Hopen Hq Hok.
  destruct (recover_frames_then s frames []) as (s1 & Hrec & H); [|done|done|done|].
  { by rewrite app_nil_r. }
  exists s1. by rewrite Hrec.
Qed.

Lemma foldl_put_rec_twice main l :
  foldl put_rec (foldl put_rec main l) l = foldl put_rec main l.
Proof.
  apply map_eq. intros j. rewrite !lookup_foldl_put_rec. by destruct (last _).
Qed.

(** X3.  A log whose first two bytes are not the header, an empty file
    among them: [recover] returns [ErrBadMagic] and has done nothing. *)
Theorem recover_bad_magic s content :
  w_log (world s) = Some content →
  f_openRead (world s) = None →
  take 2 content ≠ TRANSACTION_LOG_HEADER →
  recover s = Ret (Some ErrBadMagic) s.
Proof.
  intros Hlog Hopen Hbad. unfold recover, gets. rewrite bind_eq, Hlog, Hopen. cbv zeta.
  rewrite decide_True; [done|].
  destruct content as [|a [|b l]]; cbn; [left; lia|left; lia|].
  right. cbn in Hbad.
  destruct (decide (a = "f"%byte)) as [->|]; [|left; congruence].
  right. intros [= ->]. done.
Qed.

(** A frame cut short: a count of fewer than eight bytes, or a count and
    fewer records than it says, up to one that [ReadRecord] cannot
    read. *)
Definition torn (rest : list byte) (e : error) : Prop :=
  (0 < length rest < 8 ∧ e = ErrUnexpectedEOF) ∨
  (∃ n rs junk,
     rest = int64_le n ++ records_bytes rs ++ junk ∧
     (Z.of_nat (length rs) < n < 2 ^ 63)%Z ∧
     Forall (λ r, record_ok r.1 r.2) rs ∧
     record_parse junk = inl e).

Lemma parse_frame_torn rs : ∀ n junk e,
  length rs < n →
  Forall (λ r, record_ok r.1 r.2) rs →
  record_parse junk = inl e →
  (parse_frame n (records_bytes rs ++ junk)).2 = inl e.
Proof.
  induction rs as [|[i d] rs IH]; intros n junk e Hn Hok Hjunk.
  - destruct n as [|n]; [cbn in Hn; lia|]. cbn. by rewrite Hjunk.
  - destruct n as [|n]; [cbn in Hn; lia|].
    apply Forall_cons in Hok as [Hr Hok]. cbn [fst snd] in Hr.
    unfold records_bytes. cbn [parse_frame fmap list_fmap concat fst snd].
    rewrite <- app_assoc, (record_parse_bytes i d _ Hr).
    rewrite drop_app_length. fold (records_bytes rs). cbn [snd].
    apply IH; [cbn in Hn; lia|done|done].
Qed.

(** X4.  A log that ends inside a frame: the frames before it are
    applied in full, of the torn frame nothing is, and [recover] returns
    the error of reading: [io.ErrUnexpectedEOF] for a count cut short,
    and what [ReadRecord] returns for the record it cannot read.  The
    log file is as it was. *)
Theorem recover_torn_frame s frames rest e :
  w_log (world s) = Some (log_bytes frames ++ rest) →
  f_openRead (world s) = None →
  quiet (f_writeRecord (world s)) →
  Forall (λ rs, (Z.of_nat (length rs) < 2 ^ 63)%Z ∧
                Forall (λ r, record_ok r.1 r.2) rs) frames →
  torn rest e →
  ∃ s', recover s = Ret (Some e) s' ∧
        w_main (world s') = foldl put_rec (w_main (world s)) (concat frames) ∧
        w_log (world s') = w_log (world s).
Proof.
  intros Hlog Hopen Hq Hok Htorn.
  destruct (recover_frames_then s frames rest) as (s1 & -> & Hmain & _ & Hu);
    [done|done|done|done|].
  destruct Hu as (_ & Hl & _).
  cbn [recover_loop]. destruct Htorn as [[Hlen ->]|(n & rs & junk & -> & Hn & Hrs & Hjunk)].
  - unfold binary_Read_int64. destruct rest as [|b l]; [cbn in Hlen; lia|].
    rewrite decide_True by lia. rewrite decide_False by done.
    exists s1. by rewrite Hl.
  - rewrite binary_Read_int64_le by lia.
    rewrite bind_eq, recover_frame_parse, (parse_frame_torn rs _ junk e) by (done || lia).
    eexists. split; [reflexivity|]. st_simpl. by rewrite Hl.
Qed.

(** X5.  Replaying a log of whole frames twice leaves the main file as
    replaying it once: [recover] does not touch the log, and a second
    [recover] writes the same images. *)
Theorem recover_twice s frames :
  w_log (world s) = Some (log_bytes frames) →
  f_openRead (world s) = None →
  quiet (f_writeRecord (world s)) →
  Forall (λ rs, (Z.of_nat (length rs) < 2 ^ 63)%Z ∧
                Forall (λ r, record_ok r.1 r.2) rs) frames →
  ∃ s1 s2,
    recover s = Ret None s1 ∧
    recover s1 = Ret None s2 ∧
    w_log (world s1) = w_log (world s) ∧
    w_main (world s2) = w_main (world s1).
Proof.
  intros Hlog Hopen Hq Hok.
  destruct (recover_frames s frames) as (s1 & Hr1 & Hm1 & Hq1 & Hu1); [done..|].
  destruct Hu1 as (_ & Hl1 & _ & _ & Ho1 & _).
  destruct (recover_frames s1 frames) as (s2 & Hr2 & Hm2 & _); [congruence|congruence|done|done|].
  exists s1, s2. repeat split; [done|done|done|].
  by rewrite Hm2, Hm1, foldl_put_rec_twice.
Qed.

(** X6.  [recover] always comes back, without a panic and within its
    fuel, whatever the log holds and whatever the owner answers.  It
    reads the log and never writes it: the log file, the calls on the
    manager's handle and the manager are as before, and so is every
    record object that was there; the records it reads are new
    objects. *)
Theorem recover_leaves_log_and_manager s :
  ∃ err s' ext,
    recover s = Ret err s' ∧
    tm s' = tm s ∧
    w_log (world s') = w_log (world s) ∧
    w_fileCalls (world s') = w_fileCalls (world s) ∧
    w_heap (world s') = w_heap (world s) ++ ext.
Proof.
  destruct (recover_eq s) as (s' & Hr & Ht & Hl & _ & Hc & _ & _ & _ & ext & Hh).
  eexists. by exists s', ext.
Qed.

Lemma range_order_empty k : range_order k (∅ : gmap N ptr) = [].
Proof.
  apply Permutation_nil_r. rewrite range_order_perm. by rewrite map_to_list_empty.
Qed.

(** X7.  A count that is zero or negative stands for an empty frame:
    the loop over the records does not run, nothing is applied for it,
    and [recover] goes on with the frames that follow. *)
Theorem recover_skips_negative_count s frames n later :
  w_log (world s) =
    Some (log_bytes frames ++ int64_le n ++ concat (frame_bytes <$> later)) →
  f_openRead (world s) = None →
  quiet (f_writeRecord (world s)) →
  Forall (λ rs, (Z.of_nat (length rs) < 2 ^ 63)%Z ∧
                Forall (λ r, record_ok r.1 r.2) rs) frames →
  Forall (λ rs, (Z.of_nat (length rs) < 2 ^ 63)%Z ∧
                Forall (λ r, record_ok r.1 r.2) rs) later →
  (- 2 ^ 63 ≤ n ≤ 0)%Z →
  ∃ s', recover s = Ret None s' ∧
        w_main (world s') =
          foldl put_rec (w_main (world s)) (concat frames ++ concat later).
Proof.
  intros Hlog Hopen Hq Hok Hlater Hn.
  destruct (recover_frames_then s frames _ Hlog Hopen Hq Hok) as (s1 & -> & Hmain & Hq1 & _).
  cbn [recover_loop]. rewrite binary_Read_int64_le by lia.
  replace (Z.to_nat n) with 0 by lia.
  rewrite bind_eq. cbn [recover_frame]. unfold mret at 1, Go_ret at 1.
  rewrite bind_eq, syncRecords_eq, range_order_empty. cbn [syncRecords_loop].
  unfold mret at 1, Go_ret at 1.
  destruct (recover_loop_frames later
              (length (int64_le n ++ concat (frame_bytes <$> later)))
              (on_world (set_ranges (S (w_ranges (world s1)))) s1))
    as (s' & -> & Hmain'); [|done|done|].
  - pose proof (frames_length_le later). rewrite length_app. unfold int64_le.
    rewrite length_le_bytes. lia.
  - exists s'. split; [done|]. rewrite Hmain'. st_simpl. by rewrite Hmain, foldl_app.
Qed.

End Recovery.


(** ** More on commit *)

Section Commit.
Context `{Codec : RecordCodec} `{Order : MapOrder}.

(** The id and the image of the records behind the pointers. *)
Definition images (h : list Rec) (recs : list ptr) : list (N * list byte) :=
  omap (λ p, (λ r, (rec_id r, rec_data r)) <$> h !! p) recs.

(** The heap after [ClearDirty] on the records of [recs]. *)
Definition cleared (recs : list ptr) (h : list Rec) : list Rec :=
  imap (λ p r, if decide (p ∈ recs) then ClearDirty r else r) h.

Lemma lookup_cleared recs h p :
  cleared recs h !! p = (λ r, if decide (p ∈ recs) then ClearDirty r else r) <$> h !! p.
Proof. unfold cleared. by rewrite list_lookup_imap. Qed.

Lemma cleared_nil h : cleared [] h = h.
Proof.
  apply list_eq. intros p. rewrite lookup_cleared.
  destruct (h !! p); [|done]. cbn. rewrite decide_False; [done|]. apply not_elem_of_nil.
Qed.

Lemma cleared_cons p r recs h :
  h !! p = Some r →
  cleared recs (<[p := ClearDirty r]> h) = cleared (p :: recs) h.
Proof.
  intros Hr. apply list_eq. intros q. rewrite !lookup_cleared.
  destruct (decide (q = p)) as [->|Hne].
  - rewrite list_lookup_insert_eq by (by eapply lookup_lt_Some). rewrite Hr. cbn.
    rewrite (decide_True (P := p ∈ p :: recs)) by left. by case_decide.
  - rewrite list_lookup_insert_ne by done. destruct (h !! q); [|done]. cbn.
    apply (f_equal Some), decide_ext. rewrite elem_of_cons.
    split; [by right|]. by intros [?|?].
Qed.

Lemma drop_tail {A} n (l : list A) : drop n (tail l) = drop (S n) l.
Proof. destruct l; cbn [tail]; [by rewrite !drop_nil|done]. Qed.

Lemma quiet_drop n fw : quiet fw → quiet (drop n fw).
Proof. apply Forall_drop. Qed.

Lemma logFile_Write_quiet bs s f :
  logFile (tm s) = Some f →
  quiet (f_logWrite (world s)) →
  logFile_Write bs s =
    Ret None (mkSt (tm s)
                (set_f_logWrite (tail (f_logWrite (world s)))
                   (set_log (Some (default [] (w_log (world s)) ++ bs)) (world s)))).
Proof.
  intros Hf Hq. unfold logFile_Write. rewrite Hf.
  destruct (f_logWrite (world s)) as [|[e|] fs] eqn:E; [done| |done].
  by inversion Hq.
Qed.

(** The first loop of [commit] when no write fails. *)
Lemma commit_write_quiet recs : ∀ s f lg,
  logFile (tm s) = Some f →
  w_log (world s) = Some lg →
  (∀ p, p ∈ recs → is_Some (w_heap (world s) !! p)) →
  quiet (f_logWrite (world s)) →
  commit_write recs s =
    Ret None
      (mkSt (tm s)
         (set_f_logWrite (drop (length recs) (f_logWrite (world s)))
            (set_log (Some (lg ++ records_bytes (images (w_heap (world s)) recs)))
                     (world s)))).
Proof.
  induction recs as [|p recs IH]; intros s f lg Hf Hlg Hv Hq.
  - cbn. unfold mret, Go_ret, records_bytes. cbn. rewrite app_nil_r.
    destruct s as [t []]. cbn in *. by subst.
  - destruct (Hv p) as [r Hr]; [left|].
    cbn [commit_write]. unfold WriteRecord. rewrite !bind_eq. unfold deref at 1.
    rewrite Hr. rewrite (logFile_Write_quiet _ s f) by done. rewrite Hlg.
    cbn [default from_option id].
    rewrite (IH _ f (lg ++ record_bytes (rec_id r) (rec_data r))); st_simpl;
      [|done|done| |by apply quiet_tail].
    2:{ intros q Hq'. apply Hv. by right. }
    unfold images. cbn [omap list_omap]. rewrite Hr. cbn [fmap option_fmap option_map].
    unfold records_bytes. cbn [fmap list_fmap concat fst snd].
    rewrite <- !app_assoc. rewrite drop_tail. done.
Qed.

Lemma commit_clear_cleared recs : ∀ s,
  (∀ p, p ∈ recs → is_Some (w_heap (world s) !! p)) →
  commit_clear recs s =
    Ret tt (mkSt (tm s) (set_heap (cleared recs (w_heap (world s))) (world s))).
Proof.
  induction recs as [|p recs IH]; intros s Hv.
  - cbn. unfold mret, Go_ret. rewrite cleared_nil. by destruct s as [t []].
  - destruct (Hv p) as [r Hr]; [left|].
    cbn [commit_clear]. rewrite bind_eq. unfold update, deref, modify, mbind, Go_bind.
    rewrite Hr. rewrite IH.
    + st_simpl. by rewrite (cleared_cons p r recs).
    + intros q Hq. st_simpl. apply lookup_lt_is_Some. rewrite length_insert.
      apply lookup_lt_is_Some, Hv. by right.
Qed.

Lemma length_images h recs :
  (∀ p, p ∈ recs → is_Some (h !! p)) → length (images h recs) = length recs.
Proof.
  induction recs as [|p recs IH]; intros Hv; [done|].
  destruct (Hv p) as [r Hr]; [left|]. unfold images. cbn [omap list_omap]. rewrite Hr.
  cbn. f_equal. apply IH. intros q Hq. apply Hv. by right.
Qed.

(** [commit] when every write goes through. *)
Lemma commit_frame s f sl lg :
  let recs := default [] sl in
  let h := w_heap (world s) in
  logFile (tm s) = Some f →
  index (transList (tm s)) (curTrans (tm s)) = Some sl →
  w_log (world s) = Some lg →
  (∀ p, p ∈ recs → is_Some (h !! p)) →
  quiet (f_logWrite (world s)) →
  ∃ s',
    commit s = Ret None s' ∧
    tm s' = tm s ∧
    w_log (world s') = Some (lg ++ frame_bytes (images h recs)) ∧
    w_heap (world s') = cleared recs h ∧
    w_main (world s') = w_main (world s) ∧
    w_calls (world s') = w_calls (world s).
Proof.
  intros recs h Hf Hsl Hlg Hv Hq. unfold commit.
  assert (Hcur : ∀ s1, tm s1 = tm s → curSlot s1 = Ret sl s1).
  { intros s1 E. apply curSlot_Ret. by rewrite E. }
  rewrite bind_eq, Hcur by done. rewrite bind_eq, (logFile_Write_quiet _ s f) by done.
  rewrite Hlg. cbn [default from_option id]. fold recs.
  rewrite bind_eq, Hcur by done. fold recs.
  rewrite bind_eq, (commit_write_quiet recs _ f (lg ++ int64_le (Z.of_nat (length recs))));
    st_simpl; [|done|done|done|by apply quiet_tail].
  rewrite bind_eq. unfold syncFile, logFile_Sync at 1. st_simpl. rewrite Hf.
  rewrite bind_eq, Hcur by done. fold recs.
  rewrite bind_eq, commit_clear_cleared by done.
  eexists. split; [reflexivity|]. st_simpl. repeat split.
  unfold frame_bytes. rewrite length_images by done. by rewrite <- app_assoc.
Qed.

(** X8.  A [commit] whose writes all go through returns nil and has
    appended one frame to the log: the number of records of the current
    slot as eight little-endian bytes, and every record of the slot in
    order.  Every record of the slot is clean afterwards; nothing else
    of a record changes, nor the manager, nor the main file, and the
    owner is not called. *)
Theorem commit_appends_frame s f sl lg :
  let recs := default [] sl in
  let h := w_heap (world s) in
  logFile (tm s) = Some f →
  index (transList (tm s)) (curTrans (tm s)) = Some sl →
  w_log (world s) = Some lg →
  (∀ p, p ∈ recs → is_Some (h !! p)) →
  quiet (f_logWrite (world s)) →
  ∃ s',
    commit s = Ret None s' ∧
    tm s' = tm s ∧
    w_log (world s') = Some (lg ++ frame_bytes (images h recs)) ∧
    (∀ p, w_heap (world s') !! p =
            (λ r, if decide (p ∈ recs) then ClearDirty r else r) <$> h !! p) ∧
    w_main (world s') = w_main (world s) ∧
    w_calls (world s') = w_calls (world s).
Proof.
  intros recs h Hf Hsl Hlg Hv Hq.
  destruct (commit_frame s f sl lg) as (s' & Hc & Ht & Hl & Hh & Hm & Hcalls); [done..|].
  exists s'. do 3 (split; [done|]). split; [|done].
  intros p. by rewrite Hh, lookup_cleared.
Qed.

(** The log of earlier frames with one more frame. *)
Lemma log_bytes_snoc frames rs :
  log_bytes frames ++ frame_bytes rs = log_bytes (frames ++ [rs]).
Proof.
  unfold log_bytes. rewrite fmap_app, concat_app. cbn [fmap list_fmap concat].
  by rewrite app_nil_r, app_assoc.
Qed.

(** X9.  A transaction that [commit] has written is replayed.  After a
    [commit] whose writes go through, on a log of whole frames, take any
    later state with that log file, whatever has become of the record
    objects: when the log can be opened and the owner does not fail,
    [recover] returns nil and leaves in the main file the images of the
    earlier frames and then those of the records of the slot, the later
    image of an id over the earlier. *)
Theorem committed_is_replayed s f sl frames :
  let recs := default [] sl in
  let h := w_heap (world s) in
  logFile (tm s) = Some f →
  index (transList (tm s)) (curTrans (tm s)) = Some sl →
  w_log (world s) = Some (log_bytes frames) →
  (∀ p r, p ∈ recs → h !! p = Some r → record_ok (rec_id r) (rec_data r)) →
  (∀ p, p ∈ recs → is_Some (h !! p)) →
  (Z.of_nat (length recs) < 2 ^ 63)%Z →
  Forall (λ rs, (Z.of_nat (length rs) < 2 ^ 63)%Z ∧
                Forall (λ r, record_ok r.1 r.2) rs) frames →
  quiet (f_logWrite (world s)) →
  ∃ s1,
    commit s = Ret None s1 ∧
    ∀ s2,
      w_log (world s2) = w_log (world s1) →
      f_openRead (world s2) = None →
      quiet (f_writeRecord (world s2)) →
      ∃ s3,
        recover s2 = Ret None s3 ∧
        w_main (world s3) =
          foldl put_rec (w_main (world s2)) (concat frames ++ images h recs).
Proof.
  intros recs h Hf Hsl Hlog Hrok Hv Hlen Hok Hq.
  destruct (commit_frame s f sl (log_bytes frames)) as (s1 & Hc & _ & Hl1 & _);
    [done..|].
  exists s1. split; [done|]. intros s2 Hlog2 Hopen Hqw.
  rewrite Hl1, log_bytes_snoc in Hlog2.
  destruct (recover_frames s2 (frames ++ [images h recs])) as (s3 & Hr & Hm & _);
    [done|done|done| |].
  - apply Forall_app. split; [done|]. apply Forall_singleton. split.
    + by rewrite length_images.
    + apply Forall_forall. intros [i d] Hin. unfold images in Hin.
      apply list_elem_of_omap in Hin as (p & Hp & Heq).
      destruct (h !! p) as [r|] eqn:Hr'; [|done]. injection Heq as <- <-.
      by eapply Hrok.
  - exists s3. split; [done|]. rewrite Hm, concat_app. cbn [concat].
    by rewrite app_nil_r.
Qed.

End Commit.

(** ** Construction *)

Section Construction.
Context `{Codec : RecordCodec} `{Order : MapOrder}.

(** X10.  [NewTransactionManager] always comes back, with a manager or
    with an error and never with both.  The manager it returns is the
    new one: the name of the owner with the suffix, the log open, no
    transaction, ten nil slots; the log file then holds the header and
    nothing else, or nothing at all when the write of the header has
    failed.  An error is the one of [open], or the one of [recover]
    when that is not [ErrBadMagic]; the log file is then as it was.
    Without [doRecover] the log is not read: the main file and the
    record objects are as before and the owner is not called. *)
Theorem NewTransactionManager_contract doRecover w :
  ∃ res w',
    NewTransactionManager doRecover w = Ret res w' ∧
    match res with
    | (Some t, None) =>
      f_openWrite w = None ∧
      name t = w_owner w +:+ "." +:+ LOG_FILE_SUFFIX ∧
      logFile t = Some (OsFile (name t)) ∧
      curTrans t = (-1)%Z ∧
      transList t = replicate DEFAULT_TRANS_IN_LOG None ∧
      maxTrans t = Z.of_nat DEFAULT_TRANS_IN_LOG ∧
      w_log w' = Some (match f_logWrite w with
                       | Some _ :: _ => []
                       | _ => TRANSACTION_LOG_HEADER
                       end)
    | (None, Some e) =>
      w_log w' = w_log w ∧
      (f_openWrite w = Some e ∨
       doRecover = true ∧ e ≠ ErrBadMagic ∧
       ∃ s1, recover (mkSt (new_manager w) w) = Ret (Some e) s1)
    | _ => False
    end ∧
    (doRecover = false →
       w_main w' = w_main w ∧ w_heap w' = w_heap w ∧ w_calls w' = w_calls w).
Proof.
  unfold NewTransactionManager. set (s0 := mkSt (new_manager w) w).
  assert (Hopen : ∀ s, tm s = tm s0 → w_log (world s) = w_log w →
            f_openWrite (world s) = f_openWrite w →
            f_logWrite (world s) = f_logWrite w →
            ∃ res w',
              match open s with
              | Ret (Some e) s' => Ret (None, Some e) (world s')
              | Ret None s' => Ret (Some (tm s'), None) (world s')
              | Panic k => Panic k
              | OutOfFuel => OutOfFuel
              end = Ret res w' ∧
              match res with
              | (Some t, None) =>
                f_openWrite w = None ∧
                name t = w_owner w +:+ "." +:+ LOG_FILE_SUFFIX ∧
                logFile t = Some (OsFile (name t)) ∧
                curTrans t = (-1)%Z ∧
                transList t = replicate DEFAULT_TRANS_IN_LOG None ∧
                maxTrans t = Z.of_nat DEFAULT_TRANS_IN_LOG ∧
                w_log w' = Some (match f_logWrite w with
                                 | Some _ :: _ => []
                                 | _ => TRANSACTION_LOG_HEADER
                                 end)
              | (None, Some e) => w_log w' = w_log w ∧ f_openWrite w = Some e
              | _ => False
              end ∧
              w_main w' = w_main (world s) ∧ w_heap w' = w_heap (world s) ∧
              w_calls w' = w_calls (world s)).
  { intros s Ht Hl Ho Hw. destruct (f_openWrite w) as [e|] eqn:E.
    - rewrite (open_fail _ e) by done. eexists _, _. split; [reflexivity|]. done.
    - rewrite open_ok by done. eexists _, _. split; [reflexivity|]. st_simpl.
      rewrite Ht, Hw. done. }
  destruct doRecover.
  - rewrite bind_eq. destruct (recover_eq s0) as (s1 & Hrec & Hu). rewrite Hrec.
    destruct Hu as (Ht & Hl & _ & _ & _ & Ho & Hw & _).
    destruct (recover_status _ _) as [e|] eqn:Hst.
    + destruct (decide (e ≠ ErrBadMagic)) as [Hne|Heq].
      * eexists _, _. split; [reflexivity|]. split; [|done]. split; [done|].
        right. split; [done|]. split; [done|]. by exists s1.
      * destruct (Hopen s1) as (res & w' & -> & Hres & _); [done..|].
        exists res, w'. split; [done|]. split; [|done].
        destruct res as [[t|] [e'|]]; try done. destruct Hres as [? ?]. split; [done|by left].
    + destruct (Hopen s1) as (res & w' & -> & Hres & _); [done..|].
      exists res, w'. split; [done|]. split; [|done].
      destruct res as [[t|] [e'|]]; try done. destruct Hres as [? ?]. split; [done|by left].
  - rewrite bind_eq. unfold mret at 1, Go_ret at 1.
    destruct (Hopen s0) as (res & w' & -> & Hres & Hrest); [done..|].
    exists res, w'. split; [done|]. split; [|done].
    destruct res as [[t|] [e'|]]; try done. destruct Hres as [? ?]. split; [done|by left].
Qed.

(** X11.  Construction with recovery over a log of whole frames.  When
    the log can be read and the owner does not fail, and the log file
    can be created and written, [NewTransactionManager] with
    [doRecover] returns a manager: the main file has the images of the
    frames, the later image of an id over the earlier, and the log file
    holds the header and nothing else, so that the frames are not
    replayed again. *)
Theorem construction_replays_log w frames :
  w_log w = Some (log_bytes frames) →
  f_openRead w = None →
  quiet (f_writeRecord w) →
  Forall (λ rs, (Z.of_nat (length rs) < 2 ^ 63)%Z ∧
                Forall (λ r, record_ok r.1 r.2) rs) frames →
  f_openWrite w = None →
  quiet (f_logWrite w) →
  ∃ t w',
    NewTransactionManager true w = Ret (Some t, None) w' ∧
    w_main w' = foldl put_rec (w_main w) (concat frames) ∧
    w_log w' = Some TRANSACTION_LOG_HEADER ∧
    t = set_logFile (Some (OsFile (name (new_manager w)))) (new_manager w).
Proof.
  intros Hlog Hor Hq Hok Hopen Hw.
  unfold NewTransactionManager. rewrite bind_eq.
  destruct (recover_frames (mkSt (new_manager w) w) frames)
    as (s1 & -> & Hm & _ & Hu); [done..|].
  destruct Hu as (Ht & _ & _ & _ & _ & Ho & Hlw & _). st_simpl.
  rewrite open_ok by congruence. eexists _, _. split; [reflexivity|]. st_simpl.
  rewrite Hm, Ht, Hlw. st_simpl. repeat split.
  destruct (f_logWrite w) as [|[e|] fs]; [done| |done]. by inversion Hw.
Qed.

(** X12.  [open] drops what the write of the header returns.  When the
    file is created and the write fails, [open] still returns nil, on a
    new handle and with no transaction open; the log file is empty, and
    the next [recover] over it that can open it returns [ErrBadMagic]
    and applies nothing. *)
Theorem open_drops_header_error s e fs :
  f_openWrite (world s) = None →
  f_logWrite (world s) = Some e :: fs →
  ∃ s',
    open s = Ret None s' ∧
    logFile (tm s') = Some (OsFile (name (tm s))) ∧
    curTrans (tm s') = (-1)%Z ∧
    w_log (world s') = Some [] ∧
    (f_openRead (world s) = None → recover s' = Ret (Some ErrBadMagic) s').
Proof.
  intros Hopen Hw. rewrite open_ok by done. eexists. split; [reflexivity|].
  st_simpl. rewrite Hw. repeat split.
  intros Hor. unfold recover, gets. rewrite bind_eq. st_simpl. rewrite Hor. cbv zeta.
  rewrite decide_True; [done|]. left. cbn. lia.
Qed.

End Construction.

(** ** A drain that goes through *)

Section Drain.
Context `{Codec : RecordCodec} `{Order : MapOrder}.

Lemma lower_ext_live c c' h :
  (∀ p, p < length h → c p = c' p) → lower c h = lower c' h.
Proof.
  intros E. apply list_eq. intros p. rewrite !lookup_lower.
  destruct (h !! p) as [r|] eqn:Hr; [|done]. cbn. rewrite E; [done|].
  by eapply lookup_lt_Some.
Qed.

(** The calls of the loop of [syncRecords] that counts the records
    down: every record is written, and handed back when its counter is
    not positive after the decrement. *)
Fixpoint sync_calls (h : list Rec) (l : list (N * ptr)) : list OwnerCall :=
  match l with
  | [] => []
  | (_, p) :: rest =>
    match h !! p with
    | None => []
    | Some r =>
      CallWriteRecord p ::
      (if InTransaction (DecTransCount r) then [] else [CallReleaseInTrans p true]) ++
      sync_calls (<[p := DecTransCount r]> h) rest
    end
  end.

(** The loop of [syncRecords] that counts the records down, when the
    owner does not fail: every record is applied and counted down. *)
Lemma syncRecords_loop_clear_quiet l : ∀ s,
  (∀ ip, ip ∈ l → is_Some (w_heap (world s) !! ip.2)) →
  quiet (f_writeRecord (world s)) →
  ∃ s',
    syncRecords_loop l true s = Ret None s' ∧
    tm s' = tm s ∧
    w_log (world s') = w_log (world s) ∧
    f_openWrite (world s') = f_openWrite (world s) ∧
    f_logWrite (world s') = f_logWrite (world s) ∧
    w_fileCalls (world s') = w_fileCalls (world s) ∧
    w_calls (world s') = w_calls (world s) ++ sync_calls (w_heap (world s)) l ∧
    quiet (f_writeRecord (world s')) ∧
    w_heap (world s') = lower (count_occ Nat.eq_dec l.*2) (w_heap (world s)) ∧
    w_main (world s') = foldl (apply_rec (w_heap (world s))) (w_main (world s)) l.
Proof.
  induction l as [|[i p] l IH]; intros s Hv Hq.
  - exists s. cbn. rewrite lower_0, app_nil_r. done.
  - destruct (Hv (i, p)) as [r Hr]; [left|]. cbn [snd] in Hr.
    cbn [syncRecords_loop]. rewrite bind_eq.
    rewrite (owner_writeRecord_ok p r s Hr) by (by apply quiet_head).
    rewrite !bind_eq. rewrite (update_Dec p r) by done. rewrite bind_eq.
    unfold deref at 1. st_simpl. rewrite lookup_lower, Hr. cbn [fmap option_fmap option_map].
    set (s2 := on_world _ (on_world _ s)).
    assert (∃ s3, (if negb (InTransaction
              (mkRec (rec_id r) (rec_data r) (rec_dirty r)
                 (rec_transCount r - Z.of_nat (if decide (p = p) then 1 else 0))))
            then owner_releaseInTrans p true else mret tt) s2 = Ret tt s3 ∧
            tm s3 = tm s ∧ w_log (world s3) = w_log (world s) ∧
            f_openWrite (world s3) = f_openWrite (world s) ∧
            f_logWrite (world s3) = f_logWrite (world s) ∧
            w_fileCalls (world s3) = w_fileCalls (world s) ∧
            w_calls (world s3) =
              w_calls (world s) ++ CallWriteRecord p ::
                (if InTransaction (DecTransCount r) then []
                 else [CallReleaseInTrans p true]) ∧
            w_heap (world s3) = lower (λ q, if decide (q = p) then 1 else 0)
                                      (w_heap (world s)) ∧
            w_main (world s3) = <[rec_id r := rec_data r]> (w_main (world s)) ∧
            f_writeRecord (world s3) = tail (f_writeRecord (world s)))
      as (s3 & -> & Ht3 & Hl3 & Ho3 & Hw3 & Hfc3 & Hc3 & Hh3 & Hm3 & Hf3).
    { rewrite decide_True by done.
      change (mkRec (rec_id r) (rec_data r) (rec_dirty r) (rec_transCount r - Z.of_nat 1))
        with (DecTransCount r).
      destruct (InTransaction (DecTransCount r)); cbn [negb].
      - eexists. split; [reflexivity|]. unfold s2. st_simpl. done.
      - eexists. split; [reflexivity|]. unfold s2, owner_releaseInTrans, modify.
        st_simpl. by rewrite <- app_assoc. }
    destruct (IH s3) as (s' & -> & Ht & Hl & Ho & Hw & Hfc & Hc & Hq' & Hh & Hm).
    { intros ip Hip. rewrite Hh3, lookup_lower.
      destruct (Hv ip) as [r' ->]; [by right|]. by eexists. }
    { rewrite Hf3. by apply quiet_tail. }
    exists s'. split; [done|].
    do 5 (split; [congruence|]). split.
    { rewrite Hc, Hc3, Hh3, <- (insert_Dec_lower _ _ _ Hr). cbn [sync_calls]. rewrite Hr.
      by rewrite <- app_assoc. }
    split; [done|]. split.
    + rewrite Hh, Hh3, lower_lower. apply lower_ext. intros q.
      cbn [fmap list_fmap snd]. by rewrite count_occ_cons_decide.
    + rewrite Hm, Hh3, Hm3, foldl_apply_rec_lower. cbn [foldl].
      f_equal. unfold apply_rec. cbn [snd]. by rewrite Hr.
Qed.

Lemma count_occ_perm (l1 l2 : list ptr) p :
  l1 ≡ₚ l2 → count_occ Nat.eq_dec l1 p = count_occ Nat.eq_dec l2 p.
Proof. intros H. by apply (Permutation_count_occ Nat.eq_dec). Qed.

(** A pointer that a map holds under one key only is ranged over once. *)
Lemma count_occ_map_to_list (p : ptr) (i : N) : ∀ m : gmap N ptr,
  (∀ j, m !! j = Some p → j = i) →
  count_occ Nat.eq_dec (map_to_list m).*2 p = if decide (m !! i = Some p) then 1 else 0.
Proof.
  apply (map_ind (λ m, (∀ j, m !! j = Some p → j = i) →
           count_occ Nat.eq_dec (map_to_list m).*2 p =
             if decide (m !! i = Some p) then 1 else 0)).
  - intros _. rewrite map_to_list_empty. cbn. by rewrite decide_False.
  - intros k x m Hk IH Huniq.
    rewrite (count_occ_perm _ ((k, x) :: map_to_list m).*2)
      by (apply fmap_Permutation, map_to_list_insert; exact Hk).
    cbn [fmap list_fmap snd]. rewrite count_occ_cons_decide, IH.
    2:{ intros j Hj. apply Huniq. rewrite lookup_insert_ne; [done|]. congruence. }
    destruct (decide (k = i)) as [->|Hne].
    + rewrite lookup_insert_eq, Hk. rewrite (decide_False (P := None = Some p)) by done.
      repeat case_decide; try done; congruence.
    + rewrite lookup_insert_ne by done.
      rewrite (decide_False (P := p = x)); [done|].
      intros ->. apply Hne, Huniq. by rewrite lookup_insert_eq.
Qed.

(** The main file after the records of a map are applied, in any order. *)
Lemma lookup_foldl_apply_rec_list h l : ∀ main i,
  NoDup l.*1 →
  (∀ j p, (j, p) ∈ l → rec_id <$> h !! p = Some j) →
  foldl (apply_rec h) main l !! i =
    match (list_to_map l : gmap N ptr) !! i with
    | Some p => rec_data <$> h !! p
    | None => main !! i
    end.
Proof.
  induction l as [|[j p] l IH]; intros main i Hnd Hid; [done|].
  apply NoDup_cons in Hnd as [Hj Hnd]. cbn [foldl list_to_map foldr].
  rewrite IH; [|done|intros ? ? ?; apply Hid; by right].
  pose proof (Hid j p ltac:(left)) as Hp.
  destruct (h !! p) as [r|] eqn:Hr; [|done]. injection Hp as <-.
  unfold apply_rec. cbn [snd fst]. rewrite Hr.
  destruct (decide (i = rec_id r)) as [->|Hne].
  - rewrite !lookup_insert_eq, Hr. by rewrite (not_elem_of_list_to_map_1 _ _ Hj).
  - by rewrite !lookup_insert_ne.
Qed.

Lemma lookup_foldl_apply_rec h (m : gmap N ptr) l main i :
  l ≡ₚ map_to_list m →
  (∀ j p, m !! j = Some p → rec_id <$> h !! p = Some j) →
  foldl (apply_rec h) main l !! i =
    match m !! i with
    | Some p => rec_data <$> h !! p
    | None => main !! i
    end.
Proof.
  intros Hperm Hid.
  assert (Hnd : NoDup l.*1) by (rewrite Hperm; apply NoDup_fst_map_to_list).
  rewrite lookup_foldl_apply_rec_list; [|done|].
  - by rewrite (list_to_map_proper _ _ Hnd Hperm), list_to_map_to_list.
  - intros j p Hjp. apply Hid. rewrite Hperm in Hjp. by apply elem_of_map_to_list.
Qed.

(** The record map of the drain holds a pointer under the id of its
    record. *)
Lemma scan_map_id h occs i p :
  scan_map (ids h) occs ∅ !! i = Some p → p ∈ occs ∧ rec_id <$> h !! p = Some i.
Proof.
  rewrite scan_map_lookup, lookup_empty. intros Hp.
  apply head_Some_elem_of, list_elem_of_filter in Hp as [Hi Hp].
  by rewrite lookup_ids in Hi.
Qed.

(** A drain up to its [open], when the owner does not fail. *)
Lemma drain_quiet s f :
  let occs := occurrences (transList (tm s)) in
  let h := w_heap (world s) in
  logFile (tm s) = Some f →
  (∀ p, p ∈ occs → is_Some (h !! p)) →
  quiet (f_writeRecord (world s)) →
  ∃ s2,
    syncLogFromMemory s = open s2 ∧
    tm s2 = set_transList (replicate (length (transList (tm s))) None)
              (set_logFile None (tm s)) ∧
    w_heap (world s2) = lower (count_occ Nat.eq_dec occs) h ∧
    w_main (world s2) =
      foldl (apply_rec h) (w_main (world s))
            (range_order (w_ranges (world s)) (scan_map (ids h) occs ∅)) ∧
    w_log (world s2) = w_log (world s) ∧
    f_openWrite (world s2) = f_openWrite (world s) ∧
    f_logWrite (world s2) = f_logWrite (world s) ∧
    w_fileCalls (world s2) = w_fileCalls (world s) ++ [FileSync; FileClose] ∧
    w_calls (world s2) =
      w_calls (world s) ++
      sync_calls (lower (count_occ Nat.eq_dec (scan_dec (ids h) occs ∅)) h)
                 (range_order (w_ranges (world s)) (scan_map (ids h) occs ∅)) ++
      [CallSync] ∧
    quiet (f_writeRecord (world s2)).
Proof.
  intros occs h Hf Hv Hq.
  unfold syncLogFromMemory. rewrite bind_eq, (close_open s f Hf).
  unfold gets at 1. rewrite bind_eq. st_simpl. rewrite bind_eq.
  rewrite (coalesce_scan (transList (tm s)) []) by done.
  st_simpl. fold h occs. rewrite bind_eq, syncRecords_eq. st_simpl.
  set (recMap := scan_map (ids h) occs ∅).
  set (order := range_order (w_ranges (world s)) recMap).
  edestruct (syncRecords_loop_clear_quiet order)
    as (s' & -> & Ht & Hl & Ho & Hw & Hfc & Hc & Hq' & Hh & Hm); last first.
  - rewrite bind_eq. unfold owner_Sync, modify. st_simpl.
    eexists. split; [reflexivity|]. st_simpl.
    rewrite Ht, Hh, Hm, Hl, Ho, Hw, Hfc, Hc. st_simpl.
    repeat split; try done.
    + rewrite lower_lower. apply lower_ext_live. intros p Hp.
      apply lookup_lt_is_Some in Hp as [r Hr].
      pose proof (scan_dec_count (ids h) occs p (rec_id r) ∅) as Hcnt.
      rewrite lookup_ids, Hr in Hcnt. specialize (Hcnt eq_refl).
      rewrite lookup_empty in Hcnt. fold recMap in Hcnt.
      rewrite <- Hcnt. f_equal. unfold order.
      rewrite (count_occ_perm _ (map_to_list recMap).*2)
        by apply fmap_Permutation, range_order_perm.
      rewrite (count_occ_map_to_list p (rec_id r)).
      * apply decide_ext. intuition.
      * intros j Hj. apply scan_map_id in Hj as [_ Hj]. rewrite Hr in Hj. by injection Hj.
    + by rewrite foldl_apply_rec_lower.
    + by rewrite <- app_assoc.
  - st_simpl. done.
  - intros [i p] Hip. st_simpl. rewrite lookup_lower.
    unfold order in Hip. rewrite range_order_perm in Hip.
    apply elem_of_map_to_list, scan_map_id in Hip as [Hip _].
    destruct (Hv p Hip) as [r Hr]. cbn [snd]. rewrite Hr. by eexists.
Qed.

(** X13.  A drain that goes through.  On an open log over live records,
    with an owner that does not fail and a log file that can be created
    and written, [syncLogFromMemory] returns nil.  The main file then
    holds, for every id that has a record in a slot, the image of the
    first such record in the order of the slots, and is as before for
    every other id.  Every slot entry has cost its record one
    [DecTransCount]; every slot is nil; the log file holds the header
    and nothing else, on a new handle, with no transaction open; and the
    last call to the owner is [Sync]. *)
Theorem drain_applies_first_seen s f :
  let occs := occurrences (transList (tm s)) in
  let h := w_heap (world s) in
  logFile (tm s) = Some f →
  (∀ p, p ∈ occs → is_Some (h !! p)) →
  quiet (f_writeRecord (world s)) →
  f_openWrite (world s) = None →
  quiet (f_logWrite (world s)) →
  ∃ s',
    syncLogFromMemory s = Ret None s' ∧
    (∀ i, w_main (world s') !! i =
            match head (filter (λ p, Id <$> h !! p = Some i) occs) with
            | Some p => rec_data <$> h !! p
            | None => w_main (world s) !! i
            end) ∧
    w_heap (world s') = lower (count_occ Nat.eq_dec occs) h ∧
    transList (tm s') = replicate (length (transList (tm s))) None ∧
    curTrans (tm s') = (-1)%Z ∧
    logFile (tm s') = Some (OsFile (name (tm s))) ∧
    w_log (world s') = Some TRANSACTION_LOG_HEADER ∧
    last (w_calls (world s')) = Some CallSync.
Proof.
  intros occs h Hf Hv Hq Hopen Hw.
  destruct (drain_quiet s f Hf Hv Hq)
    as (s2 & -> & Ht & Hh & Hm & Hl & Ho & Hlw & _ & Hc & _).
  rewrite open_ok by congruence. eexists. split; [reflexivity|]. st_simpl.
  rewrite Ht, Hh, Hm, Hc, Hlw. st_simpl. repeat split.
  - intros i. rewrite (lookup_foldl_apply_rec _ (scan_map (ids h) occs ∅)).
    + by rewrite scan_map_first_seen.
    + apply range_order_perm.
    + intros j p Hj. by apply scan_map_id in Hj as [_ Hj].
  - destruct (f_logWrite (world s)) as [|[e|] fs]; [done| |done]. by inversion Hw.
  - by rewrite app_assoc, last_snoc.
Qed.

(** *** What a drain tells the owner *)

(** The counter of the record behind a pointer. *)
Definition counter (h : list Rec) (p : ptr) : Z :=
  from_option rec_transCount 0%Z (h !! p).

(** For every entry of the record map, in the order of the loop:
    [writeRecord], and [releaseInTrans] with [true] when the counter of
    the record is not above the number of its slot entries. *)
Definition told (h : list Rec) (occs : list ptr) (l : list (N * ptr)) : list OwnerCall :=
  concat ((λ ip, CallWriteRecord ip.2 ::
                 if decide (counter h ip.2 ≤ Z.of_nat (count_occ Nat.eq_dec occs ip.2))%Z
                 then [CallReleaseInTrans ip.2 true] else []) <$> l).

(** The calls of the loop over distinct records. *)
Lemma sync_calls_distinct l : ∀ h,
  NoDup l.*2 →
  (∀ ip, ip ∈ l → is_Some (h !! ip.2)) →
  sync_calls h l =
    concat ((λ ip, CallWriteRecord ip.2 ::
                   if decide (counter h ip.2 ≤ 1)%Z
                   then [CallReleaseInTrans ip.2 true] else []) <$> l).
Proof.
  induction l as [|[i p] l IH]; intros h Hnd Hv; [done|].
  cbn [fmap list_fmap snd] in Hnd. apply NoDup_cons in Hnd as [Hp Hnd].
  destruct (Hv (i, p)) as [r Hr]; [left|]. cbn [snd] in Hr.
  cbn [sync_calls fmap list_fmap concat snd]. rewrite Hr.
  rewrite IH; [|done|].
  2:{ intros ip Hip. apply lookup_lt_is_Some. rewrite length_insert.
      apply lookup_lt_is_Some, Hv. by right. }
  cbn [app]. f_equal. f_equal.
  - unfold counter. rewrite Hr. cbn. unfold InTransaction.
    cbn [DecTransCount rec_transCount]. case_bool_decide; case_decide; try done; lia.
  - f_equal. apply list_fmap_ext. intros k [j q] Hk. cbn [snd].
    assert (q ≠ p).
    { intros ->. apply Hp, list_elem_of_fmap. exists (j, p). split; [done|].
      by eapply list_elem_of_lookup_2. }
    unfold counter. by rewrite list_lookup_insert_ne.
Qed.

Lemma scan_map_NoDup h occs k :
  NoDup (range_order k (scan_map (ids h) occs ∅)).*2.
Proof.
  apply NoDup_ListNoDup, (NoDup_count_occ Nat.eq_dec). intros p.
  rewrite (count_occ_perm _ (map_to_list (scan_map (ids h) occs ∅)).*2)
    by apply fmap_Permutation, range_order_perm.
  rewrite (count_occ_map_to_list p (default 0%N (rec_id <$> h !! p))).
  - case_decide; lia.
  - intros j Hj. apply scan_map_id in Hj as [_ Hj]. by rewrite Hj.
Qed.

(** X14.  What a drain tells the owner.  On an open log over live
    records, with an owner that does not fail, [syncLogFromMemory]
    comes back, and the owner has been called for every entry of the
    record map, in the order of the loop over it: [writeRecord] for the
    record, and then [releaseInTrans(record, true)] when its counter was
    not above the number of its slot entries, so that the decrements of
    the drain have taken it out of every transaction.  After the last
    record comes [Sync], and that is all. *)
Theorem drain_tells_owner s f recMap :
  let occs := occurrences (transList (tm s)) in
  let h := w_heap (world s) in
  logFile (tm s) = Some f →
  (∀ p, p ∈ occs → is_Some (h !! p)) →
  quiet (f_writeRecord (world s)) →
  (∀ i, recMap !! i = head (filter (λ p, Id <$> h !! p = Some i) occs)) →
  ∃ err s',
    syncLogFromMemory s = Ret err s' ∧
    w_calls (world s') =
      w_calls (world s) ++
      told h occs (range_order (w_ranges (world s)) recMap) ++ [CallSync].
Proof.
  intros occs h Hf Hv Hq Hmap.
  assert (HrecMap : recMap = scan_map (ids h) occs ∅).
  { apply map_eq. intros i. by rewrite Hmap, scan_map_first_seen. }
  destruct (drain_quiet s f Hf Hv Hq)
    as (s2 & Hd & _ & _ & _ & _ & _ & _ & _ & Hc & _).
  fold h occs in Hc. rewrite <- HrecMap in Hc.
  assert (Hvalid : ∀ ip, ip ∈ range_order (w_ranges (world s)) recMap →
            recMap !! ip.1 = Some ip.2 ∧ ip.2 ∈ occs ∧ rec_id <$> h !! ip.2 = Some ip.1).
  { intros [i p] Hip. rewrite range_order_perm in Hip. apply elem_of_map_to_list in Hip.
    split; [done|]. rewrite HrecMap in Hip. by apply scan_map_id in Hip. }
  assert (Hcalls : w_calls (world s2) =
            w_calls (world s) ++
            told h occs (range_order (w_ranges (world s)) recMap) ++ [CallSync]).
  { rewrite Hc. f_equal. f_equal. rewrite sync_calls_distinct.
    - unfold told. f_equal. apply list_fmap_ext. intros k [i p] Hk. cbn [snd].
      destruct (Hvalid (i, p)) as (Hm & Hp & Hid); [by eapply list_elem_of_lookup_2|].
      cbn [fst snd] in Hm, Hp, Hid. f_equal.
      destruct (h !! p) as [r|] eqn:Hr; [|done]. injection Hid as <-.
      pose proof (scan_dec_count (ids h) occs p (rec_id r) ∅) as Hcnt.
      rewrite lookup_ids, Hr in Hcnt. specialize (Hcnt eq_refl).
      rewrite lookup_empty, <- HrecMap, Hm in Hcnt.
      rewrite decide_True in Hcnt by done.
      unfold counter. rewrite lookup_lower. fold h. rewrite Hr. cbn. fold occs.
      apply decide_ext. lia.
    - rewrite HrecMap. apply scan_map_NoDup.
    - intros ip Hip. rewrite lookup_lower. destruct (Hvalid ip Hip) as (_ & Hp & _).
      destruct (Hv _ Hp) as [r Hr]. fold h. rewrite Hr. by eexists. }
  rewrite Hd. destruct (f_openWrite (world s2)) as [e|] eqn:Ho.
  - rewrite (open_fail _ e) by done. by eexists _, _.
  - rewrite open_ok by done. eexists _, _. split; [reflexivity|]. st_simpl. done.
Qed.

End Drain.

(** ** A rollback that goes through *)

Section Rollback.
Context `{Codec : RecordCodec} `{Order : MapOrder}.

(** X15.  A rollback that goes through.  On an open log of whole frames
    over live records, with an owner that does not fail and a log file
    that can be read, created and written, [syncLogFromDisk] returns
    nil.  What the slots held is dropped: every slot entry has cost its
    record one [DecTransCount] and every slot is nil.  What the log
    held is applied: the main file has the images of the frames, the
    later image of an id over the earlier.  The log file then holds the
    header and nothing else, on a new handle, with no transaction
    open. *)
Theorem rollback_replays_log s f frames :
  let occs := occurrences (transList (tm s)) in
  let h := w_heap (world s) in
  logFile (tm s) = Some f →
  (∀ p, p ∈ occs → is_Some (h !! p)) →
  w_log (world s) = Some (log_bytes frames) →
  f_openRead (world s) = None →
  quiet (f_writeRecord (world s)) →
  Forall (λ rs, (Z.of_nat (length rs) < 2 ^ 63)%Z ∧
                Forall (λ r, record_ok r.1 r.2) rs) frames →
  f_openWrite (world s) = None →
  quiet (f_logWrite (world s)) →
  ∃ s',
    syncLogFromDisk s = Ret None s' ∧
    w_main (world s') = foldl put_rec (w_main (world s)) (concat frames) ∧
    (∀ p r, h !! p = Some r →
       w_heap (world s') !! p =
         Some (mkRec (rec_id r) (rec_data r) (rec_dirty r)
                 (rec_transCount r - Z.of_nat (count_occ Nat.eq_dec occs p)))) ∧
    transList (tm s') = replicate (length (transList (tm s))) None ∧
    curTrans (tm s') = (-1)%Z ∧
    logFile (tm s') = Some (OsFile (name (tm s))) ∧
    w_log (world s') = Some TRANSACTION_LOG_HEADER.
Proof.
  intros occs h Hf Hv Hlog Hor Hq Hok Hopen Hw.
  unfold syncLogFromDisk. rewrite bind_eq, (close_open s f Hf).
  unfold gets at 1. rewrite bind_eq. st_simpl. rewrite bind_eq.
  rewrite (discard_released (transList (tm s)) []) by done.
  st_simpl. fold h occs. rewrite bind_eq.
  edestruct (recover_frames) as (s2 & -> & Hm & _ & Hu); last first.
  - destruct Hu as (Ht & _ & _ & _ & _ & Ho & Hlw & ext & Hh). st_simpl.
    rewrite open_ok by congruence. eexists. split; [reflexivity|]. st_simpl.
    rewrite Ht, Hm, Hh, Hlw. st_simpl. repeat split.
    + intros p r Hr. rewrite lookup_app_l by (rewrite length_lower; by eapply lookup_lt_Some).
      by rewrite lookup_lower, Hr.
    + destruct (f_logWrite (world s)) as [|[e|] fs]; [done| |done]. by inversion Hw.
  - exact Hok.
  - done.
  - done.
  - done.
Qed.

End Rollback.

(** ** A transaction from start to commit *)

Section Transaction.
Context `{Codec : RecordCodec} `{Order : MapOrder}.

(** The heap after [c p] calls of [IncTransCount] on each record [p]. *)
Definition raised (c : ptr → nat) (h : list Rec) : list Rec :=
  imap (λ p r, mkRec (rec_id r) (rec_data r) (rec_dirty r)
                     (rec_transCount r + Z.of_nat (c p))) h.

Lemma lookup_raised c h p :
  raised c h !! p =
    (λ r, mkRec (rec_id r) (rec_data r) (rec_dirty r)
                (rec_transCount r + Z.of_nat (c p))) <$> h !! p.
Proof. unfold raised. by rewrite list_lookup_imap. Qed.

Lemma raised_0 h : raised (λ _, 0) h = h.
Proof.
  apply list_eq. intros p. rewrite lookup_raised.
  destruct (h !! p) as [[]|]; [|done]. simpl. f_equal. f_equal. lia.
Qed.

Lemma raised_cons p r ps h :
  h !! p = Some r →
  raised (count_occ Nat.eq_dec ps) (<[p := IncTransCount r]> h) =
    raised (count_occ Nat.eq_dec (p :: ps)) h.
Proof.
  intros Hr. apply list_eq. intros q. rewrite !lookup_raised, count_occ_cons_decide.
  destruct (decide (q = p)) as [->|Hne].
  - rewrite list_lookup_insert_eq by (by eapply lookup_lt_Some). rewrite Hr. cbn.
    f_equal. f_equal. lia.
  - by rewrite list_lookup_insert_ne.
Qed.

Lemma images_raised c h ps : images (raised c h) ps = images h ps.
Proof.
  unfold images. apply list_omap_ext, Forall2_same_length_lookup_2; [done|].
  intros i p q Hp Hq. rewrite Hp in Hq. injection Hq as <-. rewrite lookup_raised.
  by destruct (h !! p).
Qed.

(** [add] after [add]: the records join the current slot in order, and
    each call counts its record up. *)
Lemma adds_Ret ps : ∀ s recs,
  index (transList (tm s)) (curTrans (tm s)) = Some (Some recs) →
  (∀ p, p ∈ ps → is_Some (w_heap (world s) !! p)) →
  run (OpAdd <$> ps) s =
    Ret tt (mkSt (set_transList (<[Z.to_nat (curTrans (tm s)) := Some (recs ++ ps)]>
                                   (transList (tm s))) (tm s))
                 (set_heap (raised (count_occ Nat.eq_dec ps) (w_heap (world s))) (world s))).
Proof.
  induction ps as [|p ps IH]; intros s recs Hsl Hv.
  - cbn. unfold mret, Go_ret. rewrite raised_0, app_nil_r.
    apply index_Some in Hsl as [_ Hsl]. rewrite list_insert_id by done.
    by destruct s as [[] []].
  - destruct (Hv p) as [r Hr]; [left|].
    cbn [fmap list_fmap run run_op]. rewrite bind_eq, (add_Ret p r (Some recs)) by done.
    pose proof Hsl as Hsl'. apply index_Some in Hsl' as [Hpos Hsl'].
    rewrite (IH _ (recs ++ [p])); st_simpl.
    + rewrite list_insert_insert_eq, <- app_assoc. cbn [app]. by rewrite (raised_cons p r).
    + apply index_Some. split; [done|].
      apply list_lookup_insert_eq. by eapply lookup_lt_Some.
    + intros q Hq. apply lookup_lt_is_Some. rewrite length_insert.
      apply lookup_lt_is_Some, Hv. by right.
Qed.

(** X16.  A transaction from [start] to [commit].  Below the capacity,
    on an open log that takes every write, [start], then [add] for the
    records of [ps] in order, then [commit] come back, [commit] with
    nil.  The log file has grown by one frame: the count of [ps] and
    the images of its records in the order of the calls of [add], a
    record added twice twice.  The transaction has the next slot, and
    the slot holds [ps]; every call of [add] has counted its record up,
    and every record of [ps] is clean. *)
Theorem transaction_writes_frame s f lg ps :
  let h := w_heap (world s) in
  let cur := (curTrans (tm s) + 1)%Z in
  tm_ok (tm s) →
  (cur < maxTrans (tm s))%Z →
  logFile (tm s) = Some f →
  w_log (world s) = Some lg →
  quiet (f_logWrite (world s)) →
  (∀ p, p ∈ ps → is_Some (h !! p)) →
  ∃ s1 s2 s3,
    start s = Ret tt s1 ∧
    run (OpAdd <$> ps) s1 = Ret tt s2 ∧
    commit s2 = Ret None s3 ∧
    w_log (world s3) = Some (lg ++ frame_bytes (images h ps)) ∧
    tm s3 = set_transList (<[Z.to_nat cur := Some ps]> (transList (tm s)))
              (set_curTrans cur (tm s)) ∧
    (∀ p r, h !! p = Some r →
       w_heap (world s3) !! p =
         Some (mkRec (rec_id r) (rec_data r)
                 (if decide (p ∈ ps) then false else rec_dirty r)
                 (rec_transCount r + Z.of_nat (count_occ Nat.eq_dec ps p)))) ∧
    w_main (world s3) = w_main (world s) ∧
    w_calls (world s3) = w_calls (world s).
Proof.
  intros h cur (Hmax & Hlen & Hcur) Hbelow Hf Hlg Hq Hv.
  assert (Hi : ∃ old, index (transList (tm s)) cur = Some old).
  { apply index_is_Some. unfold cur. lia. }
  destruct Hi as [old Hold].
  pose proof Hold as Hold'. apply index_Some in Hold' as [Hpos Hold'].
  set (s1 := mkSt (set_transList (<[Z.to_nat cur := Some []]> (transList (tm s)))
                     (set_curTrans cur (tm s))) (world s)).
  set (s2 := mkSt (set_transList (<[Z.to_nat cur := Some ps]> (transList (tm s)))
                     (set_curTrans cur (tm s)))
                  (set_heap (raised (count_occ Nat.eq_dec ps) h) (world s))).
  assert (Hs1 : start s = Ret tt s1).
  { rewrite start_below by (fold cur; lia). fold cur.
    unfold set_curSlot. st_simpl. by rewrite Hold. }
  assert (Hcurslot : ∀ x, index (<[Z.to_nat cur := x]> (transList (tm s))) cur = Some x).
  { intros x. apply index_Some. split; [done|].
    apply list_lookup_insert_eq. by eapply lookup_lt_Some. }
  assert (Hs2 : run (OpAdd <$> ps) s1 = Ret tt s2).
  { rewrite (adds_Ret ps _ []) by (unfold s1; st_simpl; done). unfold s1, s2. st_simpl.
    by rewrite list_insert_insert_eq. }
  destruct (commit_frame s2 f (Some ps) lg)
    as (s3 & Hc & Ht & Hl & Hh & Hm & Hcalls).
  - exact Hf.
  - unfold s2. st_simpl. apply Hcurslot.
  - exact Hlg.
  - unfold s2. st_simpl. cbn [default from_option id]. intros p Hp. rewrite lookup_raised.
    destruct (Hv p Hp) as [r ->]. by eexists.
  - exact Hq.
  - cbn [default from_option id] in *. unfold s2 in Hl, Ht, Hh, Hm, Hcalls. st_simpl.
    exists s1, s2, s3. do 3 (split; [done|]).
    rewrite Hl, Ht, Hh, Hm, Hcalls, images_raised. repeat split.
    intros p r Hr. rewrite lookup_cleared, lookup_raised, Hr. cbn.
    by case_decide.
Qed.

End Transaction.

(** ** Counters and slot entries *)

Section Balance.
Context `{Codec : RecordCodec} `{Order : MapOrder}.

(** The counter of a record over the number of its slot entries. *)
Definition slack (s : St) (p : ptr) : option Z :=
  (λ r, rec_transCount r -
        Z.of_nat (count_occ Nat.eq_dec (occurrences (transList (tm s))) p))%Z
    <$> w_heap (world s) !! p.

(** The slots above the current one hold nothing. *)
Definition fresh_above (s : St) : Prop :=
  ∀ i sl, (curTrans (tm s) < Z.of_nat i)%Z →
          transList (tm s) !! i = Some sl → default [] sl = [].

(** A manager in order over live records, and an owner that does not
    fail. *)
Definition in_order (s : St) : Prop :=
  tm_ok (tm s) ∧ slots_live s ∧ fresh_above s ∧ quiet (f_writeRecord (world s)).

Lemma count_occ_occurrences_insert slots : ∀ i old new q,
  slots !! i = Some old →
  count_occ Nat.eq_dec (occurrences (<[i := new]> slots)) q +
    count_occ Nat.eq_dec (default [] old) q
  = count_occ Nat.eq_dec (occurrences slots) q +
    count_occ Nat.eq_dec (default [] new) q.
Proof.
  unfold occurrences. induction slots as [|sl slots IH]; intros i old new q Hi; [done|].
  destruct i as [|i]; simpl in Hi |- *.
  - injection Hi as ->. rewrite !count_occ_app. lia.
  - rewrite !count_occ_app. specialize (IH i old new q Hi). unfold fmap in IH. lia.
Qed.

Lemma occurrences_replicate n : occurrences (replicate n None) = [].
Proof. unfold occurrences. induction n as [|n IH]; [done|]. cbn. exact IH. Qed.

Lemma occurrences_insert_nil n i :
  occurrences (<[i := Some []]> (replicate n None)) = [].
Proof.
  revert i. induction n as [|n IH]; intros [|i]; try done.
  - apply (occurrences_replicate n).
  - apply (IH i).
Qed.

(** *** What [commit] leaves of the counters *)

(** The manager, the answers of the owner and every counter are the
    same. *)
Definition steady (s s' : St) : Prop :=
  tm s' = tm s ∧
  f_writeRecord (world s') = f_writeRecord (world s) ∧
  ∀ p, rec_transCount <$> w_heap (world s') !! p = rec_transCount <$> w_heap (world s) !! p.

#[local] Instance steady_refl : Reflexive steady.
Proof. by intros s. Qed.
#[local] Instance steady_trans : Transitive steady.
Proof.
  intros s1 s2 s3 (?&?&H12) (?&?&H23). split; [congruence|]. split; [congruence|].
  intros p. by rewrite H23.
Qed.

Lemma steady_bind {A B} (m : Go St A) (f : A → Go St B) :
  respects steady m → (∀ a, respects steady (f a)) → respects steady (m ≫= f).
Proof. apply respects_bind, _. Qed.

Lemma steady_ret {A} (a : A) : respects steady (mret a).
Proof. apply respects_ret, _. Qed.

Lemma steady_curSlot : respects steady curSlot.
Proof.
  intros s a s' H. unfold curSlot in H. destruct (index _ _); [|done].
  by injection H as _ <-.
Qed.

Lemma steady_logFile_Write bs : respects steady (logFile_Write bs).
Proof.
  intros s a s' H. unfold logFile_Write in H. destruct (logFile (tm s)); [|done].
  destruct (f_logWrite (world s)) as [|[e|] fs]; by injection H as _ <-.
Qed.

Lemma steady_logFile_Sync : respects steady logFile_Sync.
Proof.
  intros s a s' H. unfold logFile_Sync in H. destruct (logFile (tm s)); [|done].
  by injection H as _ <-.
Qed.

Lemma steady_WriteRecord p : respects steady (WriteRecord p).
Proof.
  unfold WriteRecord. apply steady_bind; [|intros r; apply steady_logFile_Write].
  intros s a s' H. unfold deref in H. destruct (_ !! p); [|done]. by injection H as _ <-.
Qed.

Lemma steady_ClearDirty p : respects steady (update ClearDirty p).
Proof.
  intros s a s' H. unfold update, deref, modify, mbind, Go_bind in H.
  destruct (w_heap (world s) !! p) as [r|] eqn:Hr; [|done]. injection H as _ <-.
  repeat split. st_simpl. intros q. destruct (decide (q = p)) as [->|Hne].
  - rewrite list_lookup_insert_eq by (by eapply lookup_lt_Some). by rewrite Hr.
  - by rewrite list_lookup_insert_ne.
Qed.

Lemma steady_commit_write recs : respects steady (commit_write recs).
Proof.
  induction recs as [|p recs IH]; [apply steady_ret|].
  cbn [commit_write]. apply steady_bind; [apply steady_WriteRecord|].
  intros [e|]; [apply steady_ret|done].
Qed.

Lemma steady_commit_clear recs : respects steady (commit_clear recs).
Proof.
  induction recs as [|p recs IH]; [apply steady_ret|].
  cbn [commit_clear]. apply steady_bind; [apply steady_ClearDirty|]. by intros _.
Qed.

Lemma steady_commit : respects steady commit.
Proof.
  unfold commit. apply steady_bind; [apply steady_curSlot|]. intros sl.
  apply steady_bind; [apply steady_logFile_Write|]. intros [e|]; [apply steady_ret|].
  apply steady_bind; [apply steady_curSlot|]. intros sl2.
  apply steady_bind; [apply steady_commit_write|]. intros [e|]; [apply steady_ret|].
  apply steady_bind; [apply steady_logFile_Sync|]. intros _.
  apply steady_bind; [apply steady_curSlot|]. intros sl3.
  apply steady_bind; [apply steady_commit_clear|]. intros _. apply steady_ret.
Qed.

(** *** What [recover] and [open] leave of the owner's answers *)

Lemma recover_loop_quiet fuel : ∀ file s,
  length file < fuel →
  quiet (f_writeRecord (world s)) →
  ∃ err s', recover_loop fuel file s = Ret err s' ∧ quiet (f_writeRecord (world s')).
Proof.
  induction fuel as [|fuel IH]; intros file s Hfuel Hq; [lia|].
  cbn [recover_loop].
  destruct (binary_Read_int64 file) as [e|[n file1]] eqn:Hrd.
  - case_decide; by eexists _, s.
  - apply binary_Read_int64_inr in Hrd as [-> Hlen].
    rewrite bind_eq, recover_frame_parse.
    destruct (parse_frame (Z.to_nat n) (drop 8 file)) as [rs [e|file2]] eqn:Hpf; cbn [fst snd].
    + eexists _, _. split; [reflexivity|]. st_simpl. done.
    + rewrite bind_eq, syncRecords_eq.
      edestruct (syncRecords_loop_replay) as (err & s3 & -> & _ & _ & Hq3); last first.
      * st_simpl. destruct (Hq3 Hq) as (_ & Hq' & _). apply IH; [|done].
        pose proof (parse_frame_rest (Z.to_nat n) (drop 8 file) file2) as Hr.
        rewrite Hpf in Hr. specialize (Hr eq_refl). rewrite length_drop in Hr. lia.
      * intros ip Hip. st_simpl. eapply range_order_valid; [|exact Hip].
        by rewrite length_app, length_fmap.
Qed.

Lemma recover_cases s :
  (∃ err, recover s = Ret err s) ∨
  (∃ content, recover s = recover_loop (S (length content)) (drop 2 content) s).
Proof.
  unfold recover, gets. rewrite bind_eq.
  destruct (w_log (world s)) as [content|]; [|left; by eexists].
  destruct (f_openRead (world s)) as [e|]; [left; by eexists|].
  cbv zeta. case_decide; [left; by eexists|right; by eexists].
Qed.

Lemma recover_quiet s :
  quiet (f_writeRecord (world s)) →
  ∃ err s', recover s = Ret err s' ∧ untouched s s' ∧ quiet (f_writeRecord (world s')).
Proof.
  intros Hq. destruct (recover_eq s) as (s' & Hrec & Hu).
  exists (recover_status (w_log (world s)) (f_openRead (world s))), s'.
  split; [done|]. split; [done|].
  destruct (recover_cases s) as [[err Hr]|[content Hr]]; rewrite Hr in Hrec.
  - by injection Hrec as _ <-.
  - destruct (recover_loop_quiet (S (length content)) (drop 2 content) s)
      as (err & s1 & Hr1 & Hq1); [rewrite length_drop; lia|done|].
    rewrite Hr1 in Hrec. by injection Hrec as _ <-.
Qed.

Lemma open_keeps s :
  ∃ err s',
    open s = Ret err s' ∧
    transList (tm s') = transList (tm s) ∧
    (curTrans (tm s') = curTrans (tm s) ∨ curTrans (tm s') = (-1)%Z) ∧
    w_heap (world s') = w_heap (world s) ∧
    f_writeRecord (world s') = f_writeRecord (world s).
Proof.
  destruct (f_openWrite (world s)) as [e|] eqn:Ho.
  - rewrite (open_fail _ e) by done. eexists _, _. split; [reflexivity|].
    repeat split. by left.
  - rewrite open_ok by done. eexists _, _. split; [reflexivity|]. st_simpl.
    repeat split. by right.
Qed.

(** *** One request *)

(** What a request that leaves the slots as they are, and the counters,
    keeps. *)
Lemma same_slots_in_order s s' :
  in_order s → tm_ok (tm s') →
  transList (tm s') = transList (tm s) →
  curTrans (tm s') = curTrans (tm s) →
  (∀ p, is_Some (w_heap (world s) !! p) →
     rec_transCount <$> w_heap (world s') !! p = rec_transCount <$> w_heap (world s) !! p) →
  quiet (f_writeRecord (world s')) →
  in_order s' ∧ ∀ p, is_Some (w_heap (world s) !! p) → slack s' p = slack s p.
Proof.
  intros (_ & Hlive & Hfresh & _) Hok Ht Hc Hh Hq.
  assert (Hval : ∀ p, is_Some (w_heap (world s) !! p) → is_Some (w_heap (world s') !! p)).
  { intros p Hp. specialize (Hh p Hp). destruct Hp as [r Hr]. rewrite Hr in Hh.
    destruct (w_heap (world s') !! p); [by eexists|done]. }
  split; [split; [done|split; [|split; [|done]]]|].
  - intros p Hp. rewrite Ht in Hp. by apply lookup_lt_is_Some, Hval, lookup_lt_is_Some, Hlive.
  - intros i sl Hi Hsl. rewrite Ht in Hsl. rewrite Hc in Hi. by eapply Hfresh.
  - intros p Hp. unfold slack. rewrite Ht. specialize (Hh p Hp).
    destruct (w_heap (world s') !! p) as [r'|], (w_heap (world s) !! p) as [r|];
      cbn in Hh |- *; try done. injection Hh as ->. done.
Qed.

(** What a request that drops the slots, with one [DecTransCount] for
    every entry, keeps. *)
Lemma nil_slots_in_order s s' :
  in_order s → tm_ok (tm s') →
  occurrences (transList (tm s')) = [] →
  fresh_above s' →
  (∀ p r, w_heap (world s) !! p = Some r →
     w_heap (world s') !! p =
       Some (mkRec (rec_id r) (rec_data r) (rec_dirty r)
               (rec_transCount r -
                Z.of_nat (count_occ Nat.eq_dec (occurrences (transList (tm s))) p)))) →
  quiet (f_writeRecord (world s')) →
  in_order s' ∧ ∀ p, is_Some (w_heap (world s) !! p) → slack s' p = slack s p.
Proof.
  intros _ Hok Hocc Hfresh Hh Hq.
  split; [split; [done|split; [|split; [done|done]]]|].
  - intros p Hp. rewrite Hocc in Hp. by apply elem_of_nil in Hp.
  - intros p [r Hr]. unfold slack. rewrite Hocc, (Hh p r Hr), Hr. cbn. f_equal. lia.
Qed.

Lemma fresh_above_nil s n :
  transList (tm s) = replicate n None → fresh_above s.
Proof.
  intros Ht i sl _ Hsl. rewrite Ht in Hsl. apply lookup_replicate in Hsl as [-> _]. done.
Qed.

Lemma lookup_lower_app c h ext p r :
  h !! p = Some r →
  (lower c h ++ ext) !! p =
    Some (mkRec (rec_id r) (rec_data r) (rec_dirty r) (rec_transCount r - Z.of_nat (c p))).
Proof.
  intros Hr. rewrite lookup_app_l by (rewrite length_lower; by eapply lookup_lt_Some).
  by rewrite lookup_lower, Hr.
Qed.

Lemma slots_live_valid s p :
  slots_live s → p ∈ occurrences (transList (tm s)) → is_Some (w_heap (world s) !! p).
Proof. intros Hlive Hp. by apply lookup_lt_is_Some, Hlive. Qed.

Lemma drain_in_order s err s' :
  slots_live s → quiet (f_writeRecord (world s)) →
  syncLogFromMemory s = Ret err s' →
  occurrences (transList (tm s')) = [] ∧
  transList (tm s') = replicate (length (transList (tm s))) None ∧
  (∀ p r, w_heap (world s) !! p = Some r →
     w_heap (world s') !! p =
       Some (mkRec (rec_id r) (rec_data r) (rec_dirty r)
               (rec_transCount r -
                Z.of_nat (count_occ Nat.eq_dec (occurrences (transList (tm s))) p)))) ∧
  quiet (f_writeRecord (world s')).
Proof.
  intros Hlive Hq Hd.
  destruct (logFile (tm s)) as [f|] eqn:Hf; [|by rewrite syncLogFromMemory_nil in Hd].
  destruct (drain_quiet s f Hf) as (s2 & Hd2 & Ht2 & Hh2 & _ & _ & _ & _ & _ & _ & Hq2);
    [intros p Hp; by apply slots_live_valid|done|].
  rewrite Hd2 in Hd. destruct (open_keeps s2) as (e & s3 & Ho & Ht3 & _ & Hh3 & Hq3).
  rewrite Ho in Hd. injection Hd as _ <-.
  rewrite Ht3, Ht2, Hh3, Hh2, Hq3. st_simpl.
  split; [apply occurrences_replicate|]. split; [done|]. split; [|done].
  intros p r Hr. by rewrite lookup_lower, Hr.
Qed.

Lemma rollback_in_order s err s' :
  in_order s →
  syncLogFromDisk s = Ret err s' →
  transList (tm s') = replicate (length (transList (tm s))) None ∧
  (∀ p r, w_heap (world s) !! p = Some r →
     w_heap (world s') !! p =
       Some (mkRec (rec_id r) (rec_data r) (rec_dirty r)
               (rec_transCount r -
                Z.of_nat (count_occ Nat.eq_dec (occurrences (transList (tm s))) p)))) ∧
  quiet (f_writeRecord (world s')).
Proof.
  intros (_ & Hlive & _ & Hq) Hd.
  destruct (logFile (tm s)) as [f|] eqn:Hf; [|by rewrite syncLogFromDisk_nil in Hd].
  unfold syncLogFromDisk in Hd. rewrite bind_eq, (close_open s f Hf) in Hd.
  unfold gets at 1 in Hd. rewrite bind_eq in Hd. st_simpl. rewrite bind_eq in Hd.
  rewrite (discard_released (transList (tm s)) []) in Hd;
    [|done|intros p Hp; by apply slots_live_valid].
  st_simpl. rewrite bind_eq in Hd.
  match type of Hd with context [recover ?x] => set (s1 := x) in * end.
  destruct (recover_quiet s1) as (e & s2 & Hr & Hu & Hq2); [done|].
  rewrite Hr in Hd. destruct Hu as (Ht2 & _ & _ & _ & _ & _ & _ & ext & Hh2).
  unfold s1 in Ht2, Hh2. st_simpl.
  destruct e as [e|].
  - injection Hd as _ <-. rewrite Ht2, Hh2. st_simpl. repeat split; [|done].
    intros p r Hp. by apply lookup_lower_app.
  - destruct (open_keeps s2) as (e & s3 & Ho & Ht3 & _ & Hh3 & Hq3).
    rewrite Ho in Hd. injection Hd as _ <-. rewrite Ht3, Hh3, Hq3, Ht2, Hh2. st_simpl.
    repeat split; [|done]. intros p r Hp. by apply lookup_lower_app.
Qed.

Lemma start_in_order s s' :
  in_order s → start s = Ret tt s' →
  in_order s' ∧ ∀ p, is_Some (w_heap (world s) !! p) → slack s' p = slack s p.
Proof.
  intros Hin Hst. pose proof Hin as (Hok & Hlive & Hfresh & Hq).
  destruct (start_tm_ok s s' Hok Hst) as (Hok' & _).
  destruct Hok as (Hmax & Hlen & Hcur).
  destruct (decide (curTrans (tm s) + 1 < maxTrans (tm s))%Z) as [Hlt|Hge].
  - rewrite start_below in Hst by lia. unfold set_curSlot in Hst. st_simpl.
    destruct (index _ _) as [old|] eqn:Hi; [|done]. injection Hst as <-.
    apply index_Some in Hi as [Hpos Hi].
    assert (Hold : default [] old = []).
    { apply (Hfresh (Z.to_nat (curTrans (tm s) + 1))); [lia|done]. }
    split; [split; [done|split; [|split; [|done]]]|].
    + intros q Hq'. st_simpl. apply occurrences_insert in Hq' as [Hq'|Hq'];
        [by apply Hlive|by apply elem_of_nil in Hq'].
    + intros i sl Hlt' Hsl. st_simpl. rewrite list_lookup_insert_ne in Hsl by lia.
      apply (Hfresh i); [lia|done].
    + intros p _. unfold slack. st_simpl.
      pose proof (count_occ_occurrences_insert (transList (tm s)) _ old (Some []) p Hi) as Hc.
      rewrite Hold in Hc. cbn in Hc.
      replace (count_occ Nat.eq_dec
                 (occurrences (<[Z.to_nat (curTrans (tm s) + 1) := Some []]> (transList (tm s)))) p)
        with (count_occ Nat.eq_dec (occurrences (transList (tm s))) p) by lia.
      done.
  - rewrite start_full in Hst by lia. rewrite !bind_eq in Hst.
    set (s0 := on_tm (set_curTrans (curTrans (tm s) + 1)) s) in *.
    destruct (syncLogFromMemory s0) as [err sd| |] eqn:Hd; [|done|done].
    destruct (drain_in_order s0 err sd) as (_ & Htd & Hhd & Hqd); [done|done|done|].
    unfold modify, set_curSlot in Hst. st_simpl.
    destruct (index _ _) as [old|] eqn:Hi; [|done]. injection Hst as <-.
    apply nil_slots_in_order; st_simpl; try done.
    + rewrite Htd. apply occurrences_insert_nil.
    + intros i sl Hlt' Hsl. st_simpl. rewrite list_lookup_insert_ne in Hsl by lia.
      rewrite Htd in Hsl. apply lookup_replicate in Hsl as [-> _]. done.
Qed.

Lemma add_in_order p s s' :
  in_order s → add p s = Ret tt s' →
  in_order s' ∧ ∀ q, is_Some (w_heap (world s) !! q) → slack s' q = slack s q.
Proof.
  intros Hin Hadd. pose proof Hin as (Hok & Hlive & Hfresh & Hq).
  assert (Hok' : tm_ok (tm s')).
  { eapply settled_tm_ok; [|exact Hok]. by eapply settled_add. }
  destruct (w_heap (world s) !! p) as [r|] eqn:Hr; [|by rewrite add_nil in Hadd].
  destruct (index (transList (tm s)) (curTrans (tm s))) as [sl|] eqn:Hsl;
    [|by rewrite (add_out_of_range p r) in Hadd].
  rewrite (add_Ret p r sl) in Hadd by done. injection Hadd as <-.
  pose proof Hsl as Hsl'. apply index_Some in Hsl' as [Hpos Hsl'].
  split; [split; [done|split; [|split; [|done]]]|].
  - intros q Hq'. st_simpl. rewrite length_insert.
    apply occurrences_insert in Hq' as [Hq'|Hq']; [by apply Hlive|].
    apply elem_of_app in Hq' as [Hq'|Hq'].
    + apply Hlive, elem_of_occurrences.
      destruct sl as [recs|]; [|by apply elem_of_nil in Hq']. eauto.
    + apply list_elem_of_singleton in Hq' as ->. by eapply lookup_lt_Some.
  - intros i sl' Hlt Hi. st_simpl. rewrite list_lookup_insert_ne in Hi by lia.
    by apply (Hfresh i).
  - intros q [rq Hrq]. unfold slack. st_simpl.
    pose proof (count_occ_occurrences_insert (transList (tm s)) _ sl
                  (Some (default [] sl ++ [p])) q Hsl') as Hc.
    cbn [default from_option id] in Hc. rewrite count_occ_app in Hc.
    change (count_occ Nat.eq_dec [p] q) with (count_occ Nat.eq_dec (p :: []) q) in Hc.
    rewrite count_occ_cons_decide in Hc. cbn [count_occ] in Hc.
    destruct (decide (q = p)) as [->|Hne].
    + rewrite list_lookup_insert_eq by (by eapply lookup_lt_Some). rewrite Hr. cbn.
      f_equal. lia.
    + rewrite list_lookup_insert_ne, Hrq by done. cbn. f_equal. lia.
Qed.

(** A request other than [open]: what it keeps, when it comes back. *)
Lemma perform_in_order q s a s' :
  in_order s → q ≠ DoOpen → perform q s = Ret a s' →
  in_order s' ∧ ∀ p, is_Some (w_heap (world s) !! p) → slack s' p = slack s p.
Proof.
  intros Hin Hq Hrun. pose proof Hin as (Hok & Hlive & Hfresh & Hquiet).
  destruct (perform_tm_ok q s a s' Hok Hrun) as (Hok' & _).
  destruct q as [|p| | | | | |]; cbn [perform] in Hrun; try done.
  - rewrite bind_eq in Hrun. destruct (start s) as [[] s1| |] eqn:Hst; [|done|done].
    injection Hrun as _ <-. by apply start_in_order.
  - rewrite bind_eq in Hrun. destruct (add p s) as [[] s1| |] eqn:Hadd; [|done|done].
    injection Hrun as _ <-. by apply (add_in_order p).
  - apply steady_commit in Hrun as (Ht & Hw & Hh).
    apply same_slots_in_order; try done; try congruence.
  - destruct (rollback_in_order s a s' Hin Hrun) as (Ht & Hh & Hq').
    apply nil_slots_in_order; try done.
    + rewrite Ht. apply occurrences_replicate.
    + by eapply fresh_above_nil.
  - destruct (drain_in_order s a s' Hlive Hquiet Hrun) as (Hocc & Ht & Hh & Hq').
    apply nil_slots_in_order; try done. by eapply fresh_above_nil.
  - rewrite bind_eq in Hrun.
    destruct (logFile (tm s)) as [f|] eqn:Hf; [|by rewrite close_nil in Hrun].
    rewrite (close_open s f Hf) in Hrun. injection Hrun as _ <-.
    apply same_slots_in_order; done.
  - destruct (recover_quiet s Hquiet) as (e & s1 & Hr & Hu & Hq').
    rewrite Hr in Hrun. injection Hrun as _ <-.
    destruct Hu as (Ht & _ & _ & _ & _ & _ & _ & ext & Hh).
    apply same_slots_in_order; try done; try congruence.
    intros p Hp. rewrite Hh, lookup_app_l; [done|]. by apply lookup_lt_is_Some.
Qed.

(** X17.  The counters follow the slots.  Take a manager in order over
    live records, with nothing in the slots above the current one, and
    an owner that does not fail.  Whatever a caller asks of it, [open]
    on its own apart, in any order and with whatever the file system
    answers: when the requests come back, the manager is in order again
    and the counter of every record has moved by as much as the number
    of its slot entries has.  So a record whose counter was the number
    of its slot entries is in a transaction exactly when a slot holds
    it. *)
Theorem counters_follow_slots qs : ∀ s s',
  in_order s →
  DoOpen ∉ qs →
  serve qs s = Ret tt s' →
  in_order s' ∧ ∀ p, is_Some (w_heap (world s) !! p) → slack s' p = slack s p.
Proof.
  induction qs as [|q qs IH]; intros s s' Hin Hno Hrun.
  - by injection Hrun as <-.
  - cbn [serve] in Hrun. rewrite bind_eq in Hrun.
    destruct (perform q s) as [a s1| |] eqn:Hq; [|done|done].
    apply not_elem_of_cons in Hno as [Hne Hno].
    destruct (perform_in_order q s a s1 Hin (not_eq_sym Hne) Hq) as (Hin1 & Hs1).
    destruct (IH s1 s' Hin1 Hno Hrun) as (Hin' & Hs').
    split; [done|]. intros p Hp. rewrite Hs', Hs1; [done|done|].
    specialize (Hs1 p Hp). unfold slack in Hs1. destruct Hp as [r Hr]. rewrite Hr in Hs1.
    destruct (w_heap (world s1) !! p); [by eexists|done].
Qed.

End Balance.

(** ** The further properties at work *)

(** A new manager over an open log and one record, dirty and in no
    transaction. *)
Definition demo_served : St :=
  mkSt (demo_tm (-1) [])
       (calm_world [mkRec 7 ["A"%byte] true 0] (Some TRANSACTION_LOG_HEADER)).

(** A transaction, a drain, and the start of the next transaction. *)
Definition demo_requests : list Request :=
  [DoStart; DoAdd 0; DoAdd 0; DoCommit; DoDrain; DoStart].

(** A manager of the default capacity is in order. *)
Ltac default_tm_ok := unfold tm_ok; simpl; unfold DEFAULT_TRANS_IN_LOG; lia.

Lemma manager_invariant_witness :
  ∃ s', serve demo_requests demo_served = Ret tt s' ∧
        tm_ok (tm s') ∧
        name (tm s') = name (tm demo_served) ∧
        maxTrans (tm s') = maxTrans (tm demo_served) ∧
        length (transList (tm s')) = length (transList (tm demo_served)).
Proof.
  eexists. split; [vm_compute; reflexivity|].
  apply (manager_invariant demo_requests demo_served).
  - default_tm_ok.
  - vm_compute. reflexivity.
Defined.

Lemma records_keep_id_and_image_witness :
  ∃ s', serve demo_requests demo_served = Ret tt s' ∧
        ∃ r', w_heap (world s') !! 0 = Some r' ∧
              rec_id r' = 7%N ∧ rec_data r' = ["A"%byte].
Proof.
  eexists. split; [vm_compute; reflexivity|].
  apply (records_keep_id_and_image demo_requests demo_served _ 0
           (mkRec 7 ["A"%byte] true 0)).
  - vm_compute. reflexivity.
  - reflexivity.
Defined.

(** An empty log file. *)
Definition demo_empty_log : St :=
  mkSt (demo_tm (-1) []) (calm_world [] (Some [])).

Lemma recover_bad_magic_witness :
  recover demo_empty_log = Ret (Some ErrBadMagic) demo_empty_log.
Proof.
  apply (recover_bad_magic demo_empty_log []).
  - reflexivity.
  - reflexivity.
  - discriminate.
Defined.

(** A log of one whole frame, and a frame of two records of which the
    second is missing. *)
Definition demo_torn : St :=
  mkSt (demo_tm (-1) [])
       (calm_world []
          (Some (log_bytes [[(5%N, ["X"%byte])]] ++
                 int64_le 2 ++ records_bytes [(6%N, ["Y"%byte])] ++ []))).

Lemma recover_torn_frame_witness :
  ∃ s', recover demo_torn = Ret (Some ErrUnexpectedEOF) s' ∧
        w_main (world s') =
          foldl put_rec (w_main (world demo_torn)) (concat [[(5%N, ["X"%byte])]]) ∧
        w_log (world s') = w_log (world demo_torn).
Proof.
  apply (recover_torn_frame demo_torn [[(5%N, ["X"%byte])]]
           (int64_le 2 ++ records_bytes [(6%N, ["Y"%byte])] ++ []) ErrUnexpectedEOF).
  - reflexivity.
  - reflexivity.
  - constructor.
  - repeat constructor; simpl; lia.
  - right. exists 2%Z, [(6%N, ["Y"%byte])], [].
    split; [reflexivity|]. split; [simpl; lia|]. split; [|reflexivity].
    repeat constructor; simpl; lia.
Defined.

Lemma recover_twice_witness :
  ∃ s1 s2,
    recover demo_twice = Ret None s1 ∧
    recover s1 = Ret None s2 ∧
    w_log (world s1) = w_log (world demo_twice) ∧
    w_main (world s2) = w_main (world s1).
Proof.
  apply (recover_twice demo_twice [[(5%N, ["X"%byte]); (5%N, ["Y"%byte])]]).
  - reflexivity.
  - reflexivity.
  - constructor.
  - repeat constructor; simpl; lia.
Defined.

(** A frame with the count -1 before a whole frame. *)
Definition demo_negative : St :=
  mkSt (demo_tm (-1) [])
       (calm_world []
          (Some (log_bytes [] ++ int64_le (-1) ++
                 concat (frame_bytes <$> [[(5%N, ["X"%byte])]])))).

Lemma recover_skips_negative_count_witness :
  ∃ s', recover demo_negative = Ret None s' ∧
        w_main (world s') =
          foldl put_rec (w_main (world demo_negative))
                (concat [] ++ concat [[(5%N, ["X"%byte])]]).
Proof.
  apply (recover_skips_negative_count demo_negative [] (-1) [[(5%N, ["X"%byte])]]).
  - reflexivity.
  - reflexivity.
  - constructor.
  - constructor.
  - repeat constructor; simpl; lia.
  - lia.
Defined.

(** One dirty record in the open transaction, and a disk that takes
    every write. *)
Definition demo_written : St :=
  mkSt (demo_tm 0 [Some [0]])
       (calm_world [mkRec 7 ["A"%byte] true 1] (Some (log_bytes []))).

Lemma commit_appends_frame_witness :
  ∃ s',
    commit demo_written = Ret None s' ∧
    tm s' = tm demo_written ∧
    w_log (world s') =
      Some (log_bytes [] ++ frame_bytes (images (w_heap (world demo_written)) [0])) ∧
    (∀ p, w_heap (world s') !! p =
            (λ r, if decide (p ∈ [0]) then ClearDirty r else r)
              <$> w_heap (world demo_written) !! p) ∧
    w_main (world s') = w_main (world demo_written) ∧
    w_calls (world s') = w_calls (world demo_written).
Proof.
  apply (commit_appends_frame demo_written (OsFile "db.tlg") (Some [0]) (log_bytes [])).
  - reflexivity.
  - reflexivity.
  - reflexivity.
  - apply Forall_forall. repeat constructor. by eexists.
  - constructor.
Defined.

Lemma committed_is_replayed_witness :
  ∃ s1,
    commit demo_written = Ret None s1 ∧
    ∀ s2,
      w_log (world s2) = w_log (world s1) →
      f_openRead (world s2) = None →
      quiet (f_writeRecord (world s2)) →
      ∃ s3,
        recover s2 = Ret None s3 ∧
        w_main (world s3) =
          foldl put_rec (w_main (world s2))
                (concat [] ++ images (w_heap (world demo_written)) [0]).
Proof.
  apply (committed_is_replayed demo_written (OsFile "db.tlg") (Some [0]) []).
  - reflexivity.
  - reflexivity.
  - reflexivity.
  - intros p r Hp Hr. apply list_elem_of_singleton in Hp as ->. injection Hr as <-.
    split; [done|reflexivity].
  - apply Forall_forall. repeat constructor. by eexists.
  - simpl. lia.
  - constructor.
  - constructor.
Defined.

(** A directory with a log of one frame. *)
Definition demo_directory : World :=
  calm_world [] (Some (log_bytes [[(5%N, ["X"%byte])]])).

Lemma construction_replays_log_witness :
  ∃ t w',
    NewTransactionManager true demo_directory = Ret (Some t, None) w' ∧
    w_main w' = foldl put_rec (w_main demo_directory) (concat [[(5%N, ["X"%byte])]]) ∧
    w_log w' = Some TRANSACTION_LOG_HEADER ∧
    t = set_logFile (Some (OsFile (name (new_manager demo_directory))))
          (new_manager demo_directory).
Proof.
  apply (construction_replays_log demo_directory [[(5%N, ["X"%byte])]]).
  - reflexivity.
  - reflexivity.
  - constructor.
  - repeat constructor; simpl; lia.
  - reflexivity.
  - constructor.
Defined.

(** A closed manager over a disk that is full. *)
Definition demo_disk_full : St :=
  mkSt (mkTM "db.tlg" None (-1) (replicate DEFAULT_TRANS_IN_LOG None)
             (Z.of_nat DEFAULT_TRANS_IN_LOG))
       (mkWorld [] None "db" ∅ [] [] 0 None None [Some (ErrOS 28)] []).

Lemma open_drops_header_error_witness :
  ∃ s',
    open demo_disk_full = Ret None s' ∧
    logFile (tm s') = Some (OsFile (name (tm demo_disk_full))) ∧
    curTrans (tm s') = (-1)%Z ∧
    w_log (world s') = Some [] ∧
    (f_openRead (world demo_disk_full) = None →
       recover s' = Ret (Some ErrBadMagic) s').
Proof.
  apply (open_drops_header_error demo_disk_full (ErrOS 28) []); reflexivity.
Defined.

Lemma drain_applies_first_seen_witness :
  let occs := occurrences (transList (tm demo_coalesce)) in
  let h := w_heap (world demo_coalesce) in
  ∃ s',
    syncLogFromMemory demo_coalesce = Ret None s' ∧
    (∀ i, w_main (world s') !! i =
            match head (filter (λ p, Id <$> h !! p = Some i) occs) with
            | Some p => rec_data <$> h !! p
            | None => w_main (world demo_coalesce) !! i
            end) ∧
    w_heap (world s') = lower (count_occ Nat.eq_dec occs) h ∧
    transList (tm s') = replicate (length (transList (tm demo_coalesce))) None ∧
    curTrans (tm s') = (-1)%Z ∧
    logFile (tm s') = Some (OsFile (name (tm demo_coalesce))) ∧
    w_log (world s') = Some TRANSACTION_LOG_HEADER ∧
    last (w_calls (world s')) = Some CallSync.
Proof.
  apply (drain_applies_first_seen demo_coalesce (OsFile "db.tlg")).
  - reflexivity.
  - apply Forall_forall.
    change (occurrences (transList (tm demo_coalesce))) with [0; 1; 1; 2; 0].
    repeat (constructor; [by eexists|]). constructor.
  - constructor.
  - reflexivity.
  - constructor.
Defined.

(** Two slots over three records, and a log of one frame. *)
Definition demo_undo : St :=
  mkSt (demo_tm 1 [Some [0; 1]; Some [1; 2; 0]])
       (calm_world [mkRec 5 ["X"%byte] false 2; mkRec 5 ["Y"%byte] false 2;
                    mkRec 9 ["Z"%byte] false 1]
                   (Some (log_bytes [[(5%N, ["W"%byte])]]))).

Lemma rollback_replays_log_witness :
  let occs := occurrences (transList (tm demo_undo)) in
  let h := w_heap (world demo_undo) in
  ∃ s',
    syncLogFromDisk demo_undo = Ret None s' ∧
    w_main (world s') =
      foldl put_rec (w_main (world demo_undo)) (concat [[(5%N, ["W"%byte])]]) ∧
    (∀ p r, h !! p = Some r →
       w_heap (world s') !! p =
         Some (mkRec (rec_id r) (rec_data r) (rec_dirty r)
                 (rec_transCount r - Z.of_nat (count_occ Nat.eq_dec occs p)))) ∧
    transList (tm s') = replicate (length (transList (tm demo_undo))) None ∧
    curTrans (tm s') = (-1)%Z ∧
    logFile (tm s') = Some (OsFile (name (tm demo_undo))) ∧
    w_log (world s') = Some TRANSACTION_LOG_HEADER.
Proof.
  apply (rollback_replays_log demo_undo (OsFile "db.tlg") [[(5%N, ["W"%byte])]]).
  - reflexivity.
  - apply Forall_forall.
    change (occurrences (transList (tm demo_undo))) with [0; 1; 1; 2; 0].
    repeat (constructor; [by eexists|]). constructor.
  - reflexivity.
  - reflexivity.
  - constructor.
  - repeat constructor; simpl; lia.
  - reflexivity.
  - constructor.
Defined.

Lemma transaction_writes_frame_witness :
  let h := w_heap (world demo_served) in
  let cur := (curTrans (tm demo_served) + 1)%Z in
  ∃ s1 s2 s3,
    start demo_served = Ret tt s1 ∧
    run (OpAdd <$> [0; 0]) s1 = Ret tt s2 ∧
    commit s2 = Ret None s3 ∧
    w_log (world s3) = Some (TRANSACTION_LOG_HEADER ++ frame_bytes (images h [0; 0])) ∧
    tm s3 = set_transList (<[Z.to_nat cur := Some [0; 0]]> (transList (tm demo_served)))
              (set_curTrans cur (tm demo_served)) ∧
    (∀ p r, h !! p = Some r →
       w_heap (world s3) !! p =
         Some (mkRec (rec_id r) (rec_data r)
                 (if decide (p ∈ [0; 0]) then false else rec_dirty r)
                 (rec_transCount r + Z.of_nat (count_occ Nat.eq_dec [0; 0] p)))) ∧
    w_main (world s3) = w_main (world demo_served) ∧
    w_calls (world s3) = w_calls (world demo_served).
Proof.
  apply (transaction_writes_frame demo_served (OsFile "db.tlg") TRANSACTION_LOG_HEADER [0; 0]).
  - default_tm_ok.
  - simpl. unfold DEFAULT_TRANS_IN_LOG. lia.
  - reflexivity.
  - reflexivity.
  - constructor.
  - apply Forall_forall. repeat constructor; by eexists.
Defined.

Lemma counters_follow_slots_witness :
  ∃ s', serve demo_requests demo_served = Ret tt s' ∧
        in_order s' ∧
        ∀ p, is_Some (w_heap (world demo_served) !! p) →
             slack s' p = slack demo_served p.
Proof.
  eexists. split; [vm_compute; reflexivity|].
  apply (counters_follow_slots demo_requests demo_served).
  - split; [default_tm_ok|]. split; [|split; [|constructor]].
    + intros p Hp. by apply elem_of_nil in Hp.
    + intros i sl _ Hsl. apply lookup_replicate in Hsl as [-> _]. done.
  - intros Hin. repeat (apply elem_of_cons in Hin as [Hin|Hin]; [discriminate|]).
    by apply elem_of_nil in Hin.
  - vm_compute. reflexivity.
Defined.

Lemma drain_tells_owner_witness :
  let occs := occurrences (transList (tm demo_coalesce)) in
  let h := w_heap (world demo_coalesce) in
  ∃ err s',
    syncLogFromMemory demo_coalesce = Ret err s' ∧
    w_calls (world s') =
      w_calls (world demo_coalesce) ++
      told h occs (range_order (w_ranges (world demo_coalesce))
                     (scan_map (ids h) occs ∅)) ++ [CallSync].
Proof.
  apply (drain_tells_owner demo_coalesce (OsFile "db.tlg")).
  - reflexivity.
  - apply Forall_forall.
    change (occurrences (transList (tm demo_coalesce))) with [0; 1; 1; 2; 0].
    repeat (constructor; [by eexists|]). constructor.
  - constructor.
  - intros i. apply scan_map_first_seen.
Defined.

(** Records 0 and 1 are two objects with the id 5: the drain writes the
    first and hands it back, and the second it only counts down. *)
Example drain_of_two_objects_with_one_id :
  ∃ s',
    syncLogFromMemory demo_coalesce = Ret None s' ∧
    w_calls (world s') =
      [CallWriteRecord 2; CallReleaseInTrans 2 true;
       CallWriteRecord 0; CallReleaseInTrans 0 true; CallSync] ∧
    w_main (world s') = {[5%N := ["X"%byte]; 9%N := ["Z"%byte]]} ∧
    rec_transCount <$> w_heap (world s') = [0; 0; 0]%Z.
Proof.
  eexists. split; [vm_compute; reflexivity|].
  split; [reflexivity|]. split; [|reflexivity].
  apply map_eq. intros i. vm_compute. reflexivity.
Qed.

(** ** The drain and the rollback from end to end *)

Section Whole.
Context `{Codec : RecordCodec} `{Order : MapOrder}.

(** *** The handle during a drain *)

(** The calls on the log handle are the same. *)
Definition handle_kept (s s' : St) : Prop :=
  w_fileCalls (world s') = w_fileCalls (world s).

#[local] Instance handle_kept_refl : Reflexive handle_kept.
Proof. by intros s. Qed.
#[local] Instance handle_kept_trans : Transitive handle_kept.
Proof. intros s1 s2 s3 H12 H23. unfold handle_kept in *. congruence. Qed.

Lemma handle_kept_bind {A B} (m : Go St A) (f : A → Go St B) :
  respects handle_kept m → (∀ a, respects handle_kept (f a)) →
  respects handle_kept (m ≫= f).
Proof. apply respects_bind, _. Qed.

Lemma handle_kept_ret {A} (a : A) : respects handle_kept (mret a).
Proof. apply respects_ret, _. Qed.

Lemma handle_kept_deref p : respects handle_kept (deref p).
Proof.
  intros s a s' H. unfold deref in H. destruct (_ !! p); [|done]. by injection H as _ <-.
Qed.

Lemma handle_kept_update g p : respects handle_kept (update g p).
Proof.
  unfold update. apply handle_kept_bind; [apply handle_kept_deref|]. intros r.
  by apply respects_modify.
Qed.

Lemma handle_kept_owner_writeRecord p : respects handle_kept (owner_writeRecord p).
Proof.
  intros s a s' H.
  unfold owner_writeRecord, deref, gets, modify, mbind, mret, Go_bind, Go_ret in H.
  destruct (w_heap (world s) !! p); [|done].
  destruct (f_writeRecord (world s)) as [|[e|] fs]; by injection H as _ <-.
Qed.

Lemma handle_kept_syncRecords_loop l clear :
  respects handle_kept (syncRecords_loop l clear).
Proof.
  induction l as [|[i p] l IH]; [apply handle_kept_ret|].
  cbn [syncRecords_loop]. apply handle_kept_bind; [apply handle_kept_owner_writeRecord|].
  intros [e|]; [apply handle_kept_ret|].
  apply handle_kept_bind; [|by intros _].
  destruct clear; [|apply handle_kept_ret].
  apply handle_kept_bind; [apply handle_kept_update|]. intros _.
  apply handle_kept_bind; [apply handle_kept_deref|]. intros r.
  destruct (negb _); [by apply respects_modify|apply handle_kept_ret].
Qed.

(** A drain on an open log over live records, whatever the owner and
    the file system answer: it comes back, every slot is nil, and the
    handle it found has been synced and closed. *)
Lemma drain_closes_handle s f :
  logFile (tm s) = Some f →
  (∀ p, p ∈ occurrences (transList (tm s)) → is_Some (w_heap (world s) !! p)) →
  ∃ err s' rest,
    syncLogFromMemory s = Ret err s' ∧
    transList (tm s') = replicate (length (transList (tm s))) None ∧
    w_fileCalls (world s') = w_fileCalls (world s) ++ [FileSync; FileClose] ++ rest.
Proof.
  intros Hf Hv. unfold syncLogFromMemory. rewrite bind_eq, (close_open s f Hf).
  unfold gets at 1. rewrite bind_eq. st_simpl. rewrite bind_eq.
  rewrite (coalesce_scan (transList (tm s)) []) by done.
  st_simpl. rewrite bind_eq, syncRecords_eq. st_simpl.
  match goal with |- context [syncRecords_loop ?l true ?x] =>
    set (order := l); set (s1 := x) end.
  destruct (syncRecords_loop_clear order s1) as (err & s2 & Hloop & Ht & _ & _ & _).
  { intros [i p] Hip. unfold s1. st_simpl. rewrite lookup_lower.
    unfold order in Hip. rewrite range_order_perm in Hip.
    apply elem_of_map_to_list in Hip. rewrite scan_map_first_seen in Hip.
    apply head_Some_elem_of, list_elem_of_filter in Hip as [_ Hip].
    destruct (Hv p Hip) as [r Hr]. cbn [snd]. rewrite Hr. by eexists. }
  pose proof (handle_kept_syncRecords_loop order true s1 err s2 Hloop) as Hfc.
  unfold handle_kept in Hfc. rewrite Hloop. unfold s1 in Ht, Hfc. st_simpl.
  destruct err as [e|].
  - eexists _, _, []. split; [reflexivity|]. rewrite Ht, Hfc. st_simpl.
    by rewrite app_nil_r.
  - rewrite bind_eq. unfold owner_Sync, modify.
    destruct (f_openWrite (world s2)) as [e|] eqn:Ho.
    + rewrite (open_fail _ e) by done. eexists _, _, []. split; [reflexivity|]. st_simpl.
      rewrite Ht, Hfc. st_simpl. by rewrite app_nil_r.
    + rewrite open_ok by done. eexists _, _, [FileSync]. split; [reflexivity|]. st_simpl.
      rewrite Ht, Hfc. st_simpl. by rewrite <- app_assoc.
Qed.

(** A drain when the owner does not fail: what it leaves, whatever
    [open] returns. *)
Lemma drain_quiet_result s f :
  let occs := occurrences (transList (tm s)) in
  let h := w_heap (world s) in
  logFile (tm s) = Some f →
  (∀ p, p ∈ occs → is_Some (h !! p)) →
  quiet (f_writeRecord (world s)) →
  ∃ err s' cs,
    syncLogFromMemory s = Ret err s' ∧
    (∀ i, w_main (world s') !! i =
            match head (filter (λ p, Id <$> h !! p = Some i) occs) with
            | Some p => rec_data <$> h !! p
            | None => w_main (world s) !! i
            end) ∧
    w_heap (world s') = lower (count_occ Nat.eq_dec occs) h ∧
    transList (tm s') = replicate (length (transList (tm s))) None ∧
    w_calls (world s') = w_calls (world s) ++ cs ++ [CallSync].
Proof.
  intros occs h Hf Hv Hq.
  destruct (drain_quiet s f Hf Hv Hq)
    as (s2 & -> & Ht & Hh & Hm & _ & _ & _ & _ & Hc & _).
  assert (Hmain : ∀ i, w_main (world s2) !! i =
            match head (filter (λ p, Id <$> h !! p = Some i) occs) with
            | Some p => rec_data <$> h !! p
            | None => w_main (world s) !! i
            end).
  { intros i. rewrite Hm, (lookup_foldl_apply_rec _ (scan_map (ids h) occs ∅)).
    - by rewrite scan_map_first_seen.
    - apply range_order_perm.
    - intros j p Hj. by apply scan_map_id in Hj as [_ Hj]. }
  destruct (f_openWrite (world s2)) as [e|] eqn:Ho.
  - rewrite (open_fail _ e) by done. eexists _, s2, _. split; [reflexivity|].
    rewrite Ht. by repeat split.
  - rewrite open_ok by done. eexists _, _, _. split; [reflexivity|]. st_simpl.
    rewrite Ht. by repeat split.
Qed.

(** *** A drain that fails *)

(** C2, as the code has it.  When [owner.writeRecord] fails for the
    [k]-th record of a drain, [syncLogFromMemory] returns that error.
    The records before it in the order of the loop are applied and no
    other; the log file on disk is as it was, its handle is closed and
    [logFile] is nil; every slot is nil.  From then on [close], a drain
    and a rollback stop on the nil handle, and so does [commit] when
    [curTrans] is at a slot; with [curTrans] at no slot [commit] stops
    on the index.  [add] does not use the handle: with [curTrans] at a
    slot, [add] of a live record goes through, and otherwise it stops on
    the index.  When [open] goes through the handle is back, and [close]
    goes through again.  [start] has no error to return: a [start]
    whose drain is this one comes back, with [curTrans] at 0, a new
    empty slot 0, and [logFile] nil. *)
Theorem drain_stops_at_write_error s f recMap k e fs :
  let occs := occurrences (transList (tm s)) in
  let h := w_heap (world s) in
  let at_slot := (0 ≤ curTrans (tm s) < Z.of_nat (length (transList (tm s))))%Z in
  logFile (tm s) = Some f →
  (∀ p, p ∈ occs → is_Some (h !! p)) →
  (∀ i, recMap !! i = head (filter (λ p, Id <$> h !! p = Some i) occs)) →
  f_writeRecord (world s) = replicate k None ++ Some e :: fs →
  k < size recMap →
  ∃ s',
    syncLogFromMemory s = Ret (Some e) s' ∧
    logFile (tm s') = None ∧
    transList (tm s') = replicate (length (transList (tm s))) None ∧
    curTrans (tm s') = curTrans (tm s) ∧
    w_log (world s') = w_log (world s) ∧
    w_main (world s') =
      foldl (apply_rec h) (w_main (world s))
            (take k (range_order (w_ranges (world s)) recMap)) ∧
    close s' = Panic NilDereference ∧
    syncLogFromMemory s' = Panic NilDereference ∧
    syncLogFromDisk s' = Panic NilDereference ∧
    (at_slot → commit s' = Panic NilDereference) ∧
    (¬ at_slot → commit s' = Panic IndexOutOfRange) ∧
    (∀ p, is_Some (h !! p) → at_slot →
       ∃ s'', add p s' = Ret tt s'' ∧
              logFile (tm s'') = None ∧
              index (transList (tm s'')) (curTrans (tm s'')) = Some (Some [p])) ∧
    (∀ p, is_Some (h !! p) → ¬ at_slot → add p s' = Panic IndexOutOfRange) ∧
    (f_openWrite (world s) = None →
       ∃ s'' s3, open s' = Ret None s'' ∧
                 logFile (tm s'') = Some (OsFile (name (tm s))) ∧
                 close s'' = Ret tt s3) ∧
    (∀ s0,
       s = on_tm (set_curTrans (curTrans (tm s0) + 1)) s0 →
       (-1 ≤ curTrans (tm s0))%Z →
       (maxTrans (tm s0) ≤ curTrans (tm s0) + 1 < 2 ^ 63)%Z →
       0 < length (transList (tm s0)) →
       start s0 =
         Ret tt (on_tm (λ t, set_transList (<[0 := Some []]> (transList t))
                               (set_curTrans 0 t)) s')).
Proof.
  intros occs h at_slot Hf Hv Hmap Hfw Hk.
  assert (HrecMap : recMap = scan_map (ids h) occs ∅).
  { apply map_eq. intros i. by rewrite Hmap, scan_map_first_seen. }
  assert (Hd : ∃ s', syncLogFromMemory s = Ret (Some e) s' ∧
            tm s' = set_transList (replicate (length (transList (tm s))) None)
                      (set_logFile None (tm s)) ∧
            w_log (world s') = w_log (world s) ∧
            f_openWrite (world s') = f_openWrite (world s) ∧
            w_main (world s') =
              foldl (apply_rec h) (w_main (world s))
                    (take k (range_order (w_ranges (world s)) recMap))).
  { unfold syncLogFromMemory. rewrite bind_eq, (close_open s f Hf).
    unfold gets at 1. rewrite bind_eq. st_simpl. rewrite bind_eq.
    rewrite (coalesce_scan (transList (tm s)) []) by done.
    st_simpl. fold h occs. rewrite <- HrecMap. rewrite bind_eq, syncRecords_eq. st_simpl.
    set (order := range_order (w_ranges (world s)) recMap).
    assert (Hlen : length order = size recMap).
    { unfold order. by rewrite range_order_perm, length_map_to_list. }
    edestruct (syncRecords_loop_clear order) as (err & s' & -> & Ht & Hl & Ho & Hstop);
      last first.
    - destruct (Hstop k e fs) as (-> & _ & Hmain); [done|lia|].
      st_simpl. exists s'. split; [done|].
      rewrite Ht, Hl, Ho, Hmain, foldl_apply_rec_lower. st_simpl. done.
    - intros [i p] Hip. st_simpl. rewrite lookup_lower.
      unfold order in Hip. rewrite range_order_perm in Hip.
      apply elem_of_map_to_list in Hip. rewrite Hmap in Hip.
      apply head_Some_elem_of, list_elem_of_filter in Hip as [_ Hip].
      destruct (Hv p Hip) as [r Hr]. cbn [snd]. rewrite Hr. by eexists. }
  destruct Hd as (s' & Hd & Ht & Hl & Ho & Hmain).
  assert (Hnil : logFile (tm s') = None) by (by rewrite Ht).
  assert (Hslots : transList (tm s') = replicate (length (transList (tm s))) None)
    by (by rewrite Ht).
  assert (Hcur : curTrans (tm s') = curTrans (tm s)) by (by rewrite Ht).
  assert (Hin : at_slot → index (transList (tm s')) (curTrans (tm s')) = Some None).
  { intros [Hlo Hhi]. rewrite Hslots, Hcur. apply index_Some. split; [done|].
    apply lookup_replicate. split; [done|]. lia. }
  assert (Hout : ¬ at_slot → index (transList (tm s')) (curTrans (tm s')) = None).
  { intros Hno. rewrite Hslots, Hcur. apply index_None. rewrite length_replicate.
    unfold at_slot in Hno. lia. }
  assert (Hlive : ∀ p, is_Some (h !! p) → is_Some (w_heap (world s') !! p)).
  { intros p [r Hr]. apply settled_syncLogFromMemory, settled_imaged in Hd.
    destruct (Hd p r Hr) as (r' & Hr' & _). by exists r'. }
  exists s'. do 6 (split; [done|]).
  split; [by apply close_nil|]. split; [by apply syncLogFromMemory_nil|].
  split; [by apply syncLogFromDisk_nil|]. split; [|split; [|split; [|split; [|split]]]].
  - intros Hat. unfold commit.
    rewrite bind_eq, (curSlot_Ret _ None) by auto. by rewrite bind_eq, logFile_Write_nil.
  - intros Hno. unfold commit. by rewrite bind_eq, curSlot_Panic by auto.
  - intros p Hp Hat. destruct (Hlive p Hp) as [r' Hr'].
    rewrite (add_Ret p r' None) by auto. eexists. split; [reflexivity|]. st_simpl.
    split; [done|]. cbn [default from_option id app].
    destruct Hat as [Hlo Hhi]. apply index_Some. split; [lia|].
    apply list_lookup_insert_eq. rewrite Hslots, length_replicate, Hcur. lia.
  - intros p Hp Hno. destruct (Hlive p Hp) as [r' Hr'].
    apply (add_out_of_range p r'); auto.
  - intros Hopen. rewrite open_ok by (by rewrite Ho).
    eexists _, _. split; [reflexivity|]. st_simpl. split; [by rewrite Ht|].
    by rewrite (close_open _ (OsFile (name (tm s')))).
  - intros s0 Hs Hlo Hhi Hlen. rewrite start_full by lia. rewrite <- Hs.
    rewrite !bind_eq, Hd. unfold modify at 1. unfold set_curSlot, on_tm. st_simpl.
    rewrite Hslots. rewrite Hs in *. st_simpl.
    destruct (transList (tm s0)) as [|sl0 sls]; [cbn in Hlen; lia|]. done.
Qed.

(** *** The drain and the first record of an id *)

(** C5.  [syncLogFromMemory] on an open log over live records closes
    the log and scans the slots in order.  The record map it builds
    holds for every id the first occurrence scanned with that id; every
    other occurrence has had [DecTransCount] called on it, once; the
    records are otherwise as they were; and every slot is nil.  With
    that map it goes on to [syncRecords].  When the owner does not fail
    it comes back, and the image the main file then holds for an id is
    the image of that first record, whatever later records of the id
    the slots held; for every other id the main file is as before.  By
    then every slot entry has cost its record one [DecTransCount]. *)
Theorem drain_keeps_first_seen s f :
  let occs := occurrences (transList (tm s)) in
  let h := w_heap (world s) in
  logFile (tm s) = Some f →
  (∀ p, p ∈ occs → is_Some (h !! p)) →
  ∃ recMap h1,
    (∀ i, recMap !! i = head (filter (λ p, Id <$> h !! p = Some i) occs)) ∧
    length h1 = length h ∧
    (∀ p r, h !! p = Some r →
       h1 !! p =
         Some (mkRec (rec_id r) (rec_data r) (rec_dirty r)
                 (rec_transCount r -
                  Z.of_nat (count_occ Nat.eq_dec occs p -
                            (if decide (recMap !! Id r = Some p) then 1 else 0))))) ∧
    syncLogFromMemory s =
      (err ← syncRecords recMap true;
       match err with
       | Some e => mret (Some e)
       | None => owner_Sync;; open
       end)
        (mkSt (set_transList (replicate (length (transList (tm s))) None)
                             (set_logFile None (tm s)))
              (set_heap h1
                 (set_fileCalls (w_fileCalls (world s) ++ [FileSync; FileClose])
                                (world s)))) ∧
    (quiet (f_writeRecord (world s)) →
       ∃ err s',
         syncLogFromMemory s = Ret err s' ∧
         (∀ i, w_main (world s') !! i =
                 match recMap !! i with
                 | Some p => rec_data <$> h !! p
                 | None => w_main (world s) !! i
                 end) ∧
         transList (tm s') = replicate (length (transList (tm s))) None ∧
         (∀ p r, h !! p = Some r →
            w_heap (world s') !! p =
              Some (mkRec (rec_id r) (rec_data r) (rec_dirty r)
                      (rec_transCount r - Z.of_nat (count_occ Nat.eq_dec occs p))))).
Proof.
  intros occs h Hf Hv.
  exists (scan_map (ids h) occs ∅), (lower (count_occ Nat.eq_dec (scan_dec (ids h) occs ∅)) h).
  split; [intros i; apply scan_map_first_seen|]. split; [apply length_lower|].
  split; [|split].
  - intros p r Hr. rewrite lookup_lower. fold h. rewrite Hr. cbn. do 3 f_equal.
    pose proof (scan_dec_count (ids h) occs p (rec_id r) ∅) as Hc.
    rewrite lookup_ids, Hr in Hc. specialize (Hc eq_refl).
    rewrite lookup_empty in Hc. unfold Id. fold occs.
    repeat case_decide; try lia; intuition congruence.
  - unfold syncLogFromMemory. rewrite bind_eq, (close_open s f Hf).
    unfold gets at 1. rewrite bind_eq. st_simpl. rewrite bind_eq.
    by rewrite (coalesce_scan (transList (tm s)) []) by done.
  - intros Hq.
    destruct (drain_quiet_result s f Hf Hv Hq) as (err & s' & cs & Hd & Hm & Hh & Ht & _).
    exists err, s'. split; [done|]. split; [|split; [done|]].
    + intros i. by rewrite Hm, scan_map_first_seen.
    + intros p r Hr. rewrite Hh, lookup_lower. fold h. by rewrite Hr.
Qed.

(** *** The rollback *)

(** C7.  [syncLogFromDisk] on an open log whose slots hold live records,
    none with a counter below the number of its slot entries: it syncs
    and closes the log; every slot entry costs its record one
    [DecTransCount]; the owner gets [releaseInTrans(record, false)] once
    for each record whose counter has come to zero, and for no other;
    every slot is nil; and from that state it runs [recover] and, when
    that returns nil, [open].  Over a log of whole frames that can be
    read, with an owner that does not fail and a log file that can be
    created and written, it returns nil: the frames of the log have
    been applied to the main file, the later image of an id over the
    earlier, and no image of a record of the slots has; the log file
    holds the header and nothing else, on a new handle that has been
    synced, with no transaction open. *)
Theorem rollback_discards_and_replays s f :
  let occs := occurrences (transList (tm s)) in
  let h := w_heap (world s) in
  logFile (tm s) = Some f →
  (∀ p, p ∈ occs →
     ∃ r, h !! p = Some r ∧ (Z.of_nat (count_occ Nat.eq_dec occs p) ≤ rec_transCount r)%Z) →
  ∃ rel,
    NoDup rel ∧
    (∀ p, p ∈ rel ↔
          p ∈ occs ∧
          ∃ r, h !! p = Some r ∧ rec_transCount r = Z.of_nat (count_occ Nat.eq_dec occs p)) ∧
    syncLogFromDisk s =
      (err ← recover; match err with Some e => mret (Some e) | None => open end)
        (mkSt (set_transList (replicate (length (transList (tm s))) None)
                             (set_logFile None (tm s)))
              (set_calls (w_calls (world s) ++ release_calls false rel)
                 (set_heap (lower (count_occ Nat.eq_dec occs) h)
                    (set_fileCalls (w_fileCalls (world s) ++ [FileSync; FileClose])
                                   (world s))))) ∧
    ∀ frames,
      w_log (world s) = Some (log_bytes frames) →
      f_openRead (world s) = None →
      quiet (f_writeRecord (world s)) →
      Forall (λ rs, (Z.of_nat (length rs) < 2 ^ 63)%Z ∧
                    Forall (λ r, record_ok r.1 r.2) rs) frames →
      f_openWrite (world s) = None →
      quiet (f_logWrite (world s)) →
      ∃ s',
        syncLogFromDisk s = Ret None s' ∧
        w_main (world s') = foldl put_rec (w_main (world s)) (concat frames) ∧
        w_log (world s') = Some TRANSACTION_LOG_HEADER ∧
        logFile (tm s') = Some (OsFile (name (tm s))) ∧
        curTrans (tm s') = (-1)%Z ∧
        transList (tm s') = replicate (length (transList (tm s))) None ∧
        w_fileCalls (world s') = w_fileCalls (world s) ++ [FileSync; FileClose; FileSync] ∧
        (∀ p r, h !! p = Some r →
           w_heap (world s') !! p =
             Some (mkRec (rec_id r) (rec_data r) (rec_dirty r)
                     (rec_transCount r - Z.of_nat (count_occ Nat.eq_dec occs p)))).
Proof.
  intros occs h Hf Hinv.
  destruct (released_spec occs h Hinv) as [Hnd Hmem].
  assert (Hv : ∀ p, p ∈ occs → is_Some (h !! p)).
  { intros p Hp. destruct (Hinv p Hp) as (r & Hr & _). by exists r. }
  assert (Heq : syncLogFromDisk s =
    (err ← recover; match err with Some e => mret (Some e) | None => open end)
      (mkSt (set_transList (replicate (length (transList (tm s))) None)
                           (set_logFile None (tm s)))
            (set_calls (w_calls (world s) ++ release_calls false (released h occs))
               (set_heap (lower (count_occ Nat.eq_dec occs) h)
                  (set_fileCalls (w_fileCalls (world s) ++ [FileSync; FileClose])
                                 (world s)))))).
  { unfold syncLogFromDisk. rewrite bind_eq, (close_open s f Hf).
    unfold gets at 1. rewrite bind_eq. st_simpl. rewrite bind_eq.
    by rewrite (discard_released (transList (tm s)) []). }
  exists (released h occs). split; [done|]. split; [done|]. split; [done|].
  intros frames Hlog Hor Hq Hok Hopen Hw. rewrite Heq, bind_eq.
  edestruct (recover_frames) as (s2 & -> & Hm & _ & Hu); last first.
  - destruct Hu as (Ht & _ & _ & Hfc & _ & Ho & Hlw & ext & Hh). st_simpl.
    rewrite open_ok by congruence. eexists. split; [reflexivity|]. st_simpl.
    rewrite Ht, Hm, Hh, Hlw, Hfc. st_simpl. repeat split.
    + destruct (f_logWrite (world s)) as [|[e|] fs]; [done| |done]. by inversion Hw.
    + by rewrite <- app_assoc.
    + intros p r Hr. by apply lookup_lower_app.
  - exact Hok.
  - done.
  - done.
  - done.
Qed.

(** *** The drain at capacity *)

(** C8.  Take a manager with no transaction open, its log open and its
    slots over live records, and any run of [start], [add] and [commit]
    that comes back and calls [start] [maxTrans] times.  No drain has
    happened by then: the owner has not been called, the log handle is
    the same, and [curTrans] is [maxTrans - 1].  The next [start] runs
    [syncLogFromMemory] first, on the state the run has left, and then
    sets [curTrans] to 0 and a new empty slot at 0 in the state the
    drain has left.  That drain has done its work before slot 0 is set:
    every slot is nil after it, and the handle it found has been synced
    and closed; and when the owner does not fail, the main file has for
    every id of the run's slots the image of its first record, every
    slot entry has cost its record one [DecTransCount], and the owner
    has been called, last with [Sync]. *)
Theorem start_drains_at_capacity s f ops s1 :
  let occs := occurrences (transList (tm s1)) in
  let h := w_heap (world s1) in
  curTrans (tm s) = (-1)%Z →
  logFile (tm s) = Some f →
  (0 < maxTrans (tm s) < 2 ^ 63)%Z →
  (maxTrans (tm s) ≤ Z.of_nat (length (transList (tm s))))%Z →
  (∀ p, p ∈ occurrences (transList (tm s)) → is_Some (w_heap (world s) !! p)) →
  starts ops = Z.to_nat (maxTrans (tm s)) →
  run ops s = Ret tt s1 →
  w_calls (world s1) = w_calls (world s) ∧
  logFile (tm s1) = Some f ∧
  curTrans (tm s1) = (maxTrans (tm s) - 1)%Z ∧
  ∃ err sd,
    syncLogFromMemory (on_tm (set_curTrans (maxTrans (tm s))) s1) = Ret err sd ∧
    start s1 =
      Ret tt (on_tm (λ t, set_transList (<[0 := Some []]> (transList t))
                            (set_curTrans 0 t)) sd) ∧
    index (<[0 := Some []]> (transList (tm sd))) 0 = Some (Some []) ∧
    transList (tm sd) = replicate (length (transList (tm s))) None ∧
    (∃ rest,
       w_fileCalls (world sd) = w_fileCalls (world s1) ++ [FileSync; FileClose] ++ rest) ∧
    (quiet (f_writeRecord (world s1)) →
       (∀ i, w_main (world sd) !! i =
               match head (filter (λ p, Id <$> h !! p = Some i) occs) with
               | Some p => rec_data <$> h !! p
               | None => w_main (world s1) !! i
               end) ∧
       w_heap (world sd) = lower (count_occ Nat.eq_dec occs) h ∧
       ∃ cs, w_calls (world sd) = w_calls (world s) ++ cs ++ [CallSync]).
Proof.
  intros occs h Hcur Hf Hmax Hlen Hlive Hstarts Hrun.
  destruct (run_below ops s s1) as (Hl & Hm & Hn & Hc & Hv & Hk); [lia|lia|lia| |done|].
  { intros p Hp. by apply lookup_lt_is_Some, Hlive. }
  rewrite Hf in Hl. rewrite Hstarts, Hcur in Hk.
  assert (Hk' : curTrans (tm s1) = (maxTrans (tm s) - 1)%Z) by lia. clear Hk.
  split; [done|]. split; [done|]. split; [done|].
  set (s1' := on_tm (set_curTrans (maxTrans (tm s))) s1).
  assert (Hv' : ∀ p, p ∈ occurrences (transList (tm s1')) →
            is_Some (w_heap (world s1') !! p)).
  { intros p Hp. by apply lookup_lt_is_Some, Hv. }
  destruct (drain_closes_handle s1' f) as (err & sd & rest & Hd & Hslots & Hfc); [done|done|].
  unfold s1' in Hslots, Hfc. st_simpl. rewrite Hn in Hslots.
  exists err, sd. split; [done|].
  assert (Hpos : 0 < length (transList (tm sd))).
  { rewrite Hslots, length_replicate. lia. }
  split; [|split; [|split; [done|split; [by exists rest|]]]].
  - rewrite start_full by lia. rewrite Hk'.
    replace (maxTrans (tm s) - 1 + 1)%Z with (maxTrans (tm s)) by lia. fold s1'.
    rewrite !bind_eq, Hd. unfold modify at 1. unfold set_curSlot, on_tm. st_simpl.
    destruct (transList (tm sd)) as [|sl0 sls]; [cbn in Hpos; lia|]. done.
  - destruct (transList (tm sd)) as [|sl0 sls]; [cbn in Hpos; lia|]. done.
  - intros Hq.
    destruct (drain_quiet_result s1' f) as (err2 & sd2 & cs & Hd2 & Hmain & Hh & _ & Hcalls);
      [done|done|done|].
    rewrite Hd in Hd2. injection Hd2 as _ <-.
    unfold s1' in Hmain, Hh, Hcalls. st_simpl. split; [done|]. split; [done|].
    exists cs. by rewrite Hcalls, Hc.
Qed.

End Whole.

(** ** The drain and the rollback at work *)

(** *** C2: a drain that fails at its second record *)

(** Two records in the open transaction, and an owner that writes one
    record and fails on the next. *)
Definition demo_half_drain : St :=
  mkSt (demo_tm 0 [Some [0; 1]])
       (mkWorld [mkRec 5 ["X"%byte] false 1; mkRec 9 ["Z"%byte] false 1]
                (Some TRANSACTION_LOG_HEADER) "db" ∅ [] [] 0
                None None [] [None; Some (ErrOS 5)]).

Lemma drain_stops_witness :
  let s := demo_half_drain in
  let at_slot := (0 ≤ curTrans (tm s) < Z.of_nat (length (transList (tm s))))%Z in
  ∃ s',
    syncLogFromMemory s = Ret (Some (ErrOS 5)) s' ∧
    logFile (tm s') = None ∧
    transList (tm s') = replicate (length (transList (tm s))) None ∧
    curTrans (tm s') = curTrans (tm s) ∧
    w_log (world s') = w_log (world s) ∧
    w_main (world s') =
      foldl (apply_rec (w_heap (world s))) (w_main (world s))
            (take 1 (range_order (w_ranges (world s)) {[5%N := 0; 9%N := 1]})) ∧
    close s' = Panic NilDereference ∧
    syncLogFromMemory s' = Panic NilDereference ∧
    syncLogFromDisk s' = Panic NilDereference ∧
    (at_slot → commit s' = Panic NilDereference) ∧
    (¬ at_slot → commit s' = Panic IndexOutOfRange) ∧
    (∀ p, is_Some (w_heap (world s) !! p) → at_slot →
       ∃ s'', add p s' = Ret tt s'' ∧
              logFile (tm s'') = None ∧
              index (transList (tm s'')) (curTrans (tm s'')) = Some (Some [p])) ∧
    (∀ p, is_Some (w_heap (world s) !! p) → ¬ at_slot → add p s' = Panic IndexOutOfRange) ∧
    (f_openWrite (world s) = None →
       ∃ s'' s3, open s' = Ret None s'' ∧
                 logFile (tm s'') = Some (OsFile (name (tm s))) ∧
                 close s'' = Ret tt s3) ∧
    (∀ s0,
       s = on_tm (set_curTrans (curTrans (tm s0) + 1)) s0 →
       (-1 ≤ curTrans (tm s0))%Z →
       (maxTrans (tm s0) ≤ curTrans (tm s0) + 1 < 2 ^ 63)%Z →
       0 < length (transList (tm s0)) →
       start s0 =
         Ret tt (on_tm (λ t, set_transList (<[0 := Some []]> (transList t))
                               (set_curTrans 0 t)) s')).
Proof.
  apply (drain_stops_at_write_error demo_half_drain (OsFile "db.tlg")
           {[5%N := 0; 9%N := 1]} 1 (ErrOS 5) []).
  - reflexivity.
  - apply Forall_forall.
    change (occurrences (transList (tm demo_half_drain))) with [0; 1].
    repeat (constructor; [by eexists|]). constructor.
  - intros i. apply (scan_map_first_seen (w_heap (world demo_half_drain)) [0; 1] i).
  - reflexivity.
  - vm_compute. lia.
Defined.

(** The record with the id 9 comes first in the loop and is applied; the
    write of the other fails.  After that [commit] stops on the nil
    handle, and [add] goes through. *)
Example drain_stops_after_one :
  ∃ s' s'',
    syncLogFromMemory demo_half_drain = Ret (Some (ErrOS 5)) s' ∧
    w_main (world s') = {[9%N := ["Z"%byte]]} ∧
    w_calls (world s') =
      [CallWriteRecord 1; CallReleaseInTrans 1 true; CallWriteRecord 0] ∧
    commit s' = Panic NilDereference ∧
    add 0 s' = Ret tt s'' ∧
    index (transList (tm s'')) (curTrans (tm s'')) = Some (Some [0]).
Proof.
  eexists _, _.
  split; [vm_compute; reflexivity|].
  split; [vm_compute; reflexivity|].
  split; [reflexivity|].
  split; [reflexivity|].
  split; [vm_compute; reflexivity|].
  reflexivity.
Qed.

(** *** C5: two records of one id, the later one last *)

(** Records 0 and 1 are two objects with the id 5.  The first slot holds
    0 and then 1, the second holds 2 and then 1 again: the first record
    scanned with the id 5 is 0, the last is 1. *)
Definition demo_first_seen : St :=
  mkSt (demo_tm 1 [Some [0; 1]; Some [2; 1]])
       (calm_world [mkRec 5 ["X"%byte] false 1; mkRec 5 ["Y"%byte] false 2;
                    mkRec 9 ["Z"%byte] false 1]
                   (Some TRANSACTION_LOG_HEADER)).

(** The map keeps record 0 for the id 5, and the main file gets its
    image ["X"], not the ["Y"] of the record seen later. *)
Lemma drain_keeps_first_seen_witness :
  ∃ (recMap : gmap N ptr) err s',
    recMap !! 5%N = Some 0 ∧
    recMap !! 9%N = Some 2 ∧
    syncLogFromMemory demo_first_seen = Ret err s' ∧
    w_main (world s') !! 5%N = Some ["X"%byte] ∧
    w_main (world s') !! 9%N = Some ["Z"%byte] ∧
    transList (tm s') = replicate (length (transList (tm demo_first_seen))) None ∧
    rec_transCount <$> w_heap (world s') !! 1 = Some 0%Z.
Proof.
  destruct (drain_keeps_first_seen demo_first_seen (OsFile "db.tlg"))
    as (recMap & h1 & Hmap & _ & _ & _ & Hquiet).
  - reflexivity.
  - apply Forall_forall.
    change (occurrences (transList (tm demo_first_seen))) with [0; 1; 2; 1].
    repeat (constructor; [by eexists|]). constructor.
  - destruct Hquiet as (err & s' & Hd & Hmain & Hslots & Hheap); [constructor|].
    exists recMap, err, s'.
    split; [by rewrite Hmap|]. split; [by rewrite Hmap|]. split; [exact Hd|].
    split; [by rewrite Hmain, Hmap|]. split; [by rewrite Hmain, Hmap|].
    split; [exact Hslots|].
    by rewrite (Hheap 1 (mkRec 5 ["Y"%byte] false 2)).
Defined.

Example drain_first_seen_demo :
  ∃ s',
    syncLogFromMemory demo_first_seen = Ret None s' ∧
    w_main (world s') = {[5%N := ["X"%byte]; 9%N := ["Z"%byte]]} ∧
    rec_transCount <$> w_heap (world s') = [0; 0; 0]%Z ∧
    transList (tm s') = replicate 10 None.
Proof.
  eexists. split; [vm_compute; reflexivity|].
  split; [vm_compute; reflexivity|]. split; reflexivity.
Qed.

(** *** C7: the rollback of the spec's example *)

Lemma rollback_discards_and_replays_witness :
  let s := demo_rollback in
  let occs := occurrences (transList (tm s)) in
  let h := w_heap (world s) in
  ∃ rel s',
    NoDup rel ∧
    (∀ p, p ∈ rel ↔
          p ∈ occs ∧
          ∃ r, h !! p = Some r ∧ rec_transCount r = Z.of_nat (count_occ Nat.eq_dec occs p)) ∧
    syncLogFromDisk s =
      (err ← recover; match err with Some e => mret (Some e) | None => open end)
        (mkSt (set_transList (replicate (length (transList (tm s))) None)
                             (set_logFile None (tm s)))
              (set_calls (w_calls (world s) ++ release_calls false rel)
                 (set_heap (lower (count_occ Nat.eq_dec occs) h)
                    (set_fileCalls (w_fileCalls (world s) ++ [FileSync; FileClose])
                                   (world s))))) ∧
    syncLogFromDisk s = Ret None s' ∧
    w_main (world s') = foldl put_rec (w_main (world s)) (concat [[(9%N, ["Q"%byte])]]) ∧
    w_log (world s') = Some TRANSACTION_LOG_HEADER ∧
    logFile (tm s') = Some (OsFile (name (tm s))) ∧
    curTrans (tm s') = (-1)%Z ∧
    transList (tm s') = replicate (length (transList (tm s))) None ∧
    w_fileCalls (world s') = w_fileCalls (world s) ++ [FileSync; FileClose; FileSync] ∧
    (∀ p r, h !! p = Some r →
       w_heap (world s') !! p =
         Some (mkRec (rec_id r) (rec_data r) (rec_dirty r)
                 (rec_transCount r - Z.of_nat (count_occ Nat.eq_dec occs p)))).
Proof.
  destruct (rollback_discards_and_replays demo_rollback (OsFile "db.tlg"))
    as (rel & Hnd & Hrel & Heq & Hreplay).
  - reflexivity.
  - apply Forall_forall.
    change (occurrences (transList (tm demo_rollback))) with [0; 0].
    repeat (constructor; [eexists; split; [reflexivity|simpl; lia]|]).
    constructor.
  - destruct (Hreplay [[(9%N, ["Q"%byte])]]) as (s' & Hrun);
      [reflexivity|reflexivity|constructor|repeat constructor; simpl; lia
      |reflexivity|constructor|].
    exists rel, s'. split; [exact Hnd|]. split; [exact Hrel|]. split; [exact Heq|].
    exact Hrun.
Defined.

(** *** C8: the drain at capacity *)

Lemma start_drains_at_capacity_witness :
  ∃ s1,
    run three_cycles demo_three = Ret tt s1 ∧
    let occs := occurrences (transList (tm s1)) in
    let h := w_heap (world s1) in
    w_calls (world s1) = w_calls (world demo_three) ∧
    logFile (tm s1) = Some (OsFile "db.tlg") ∧
    curTrans (tm s1) = (maxTrans (tm demo_three) - 1)%Z ∧
    ∃ err sd,
      syncLogFromMemory (on_tm (set_curTrans (maxTrans (tm demo_three))) s1) = Ret err sd ∧
      start s1 =
        Ret tt (on_tm (λ t, set_transList (<[0 := Some []]> (transList t))
                              (set_curTrans 0 t)) sd) ∧
      index (<[0 := Some []]> (transList (tm sd))) 0 = Some (Some []) ∧
      transList (tm sd) = replicate (length (transList (tm demo_three))) None ∧
      (∃ rest,
         w_fileCalls (world sd) = w_fileCalls (world s1) ++ [FileSync; FileClose] ++ rest) ∧
      (quiet (f_writeRecord (world s1)) →
         (∀ i, w_main (world sd) !! i =
                 match head (filter (λ p, Id <$> h !! p = Some i) occs) with
                 | Some p => rec_data <$> h !! p
                 | None => w_main (world s1) !! i
                 end) ∧
         w_heap (world sd) = lower (count_occ Nat.eq_dec occs) h ∧
         ∃ cs, w_calls (world sd) = w_calls (world demo_three) ++ cs ++ [CallSync]).
Proof.
  eexists. split; [vm_compute; reflexivity|].
  apply (start_drains_at_capacity demo_three (OsFile "db.tlg") three_cycles).
  - reflexivity.
  - reflexivity.
  - simpl. lia.
  - simpl. lia.
  - intros p Hp. by apply elem_of_nil in Hp.
  - reflexivity.
  - vm_compute; reflexivity.
Defined.
